(** * Logseq-to-Orca importer: parser, inline-syntax scanner and batch driver

    A shallow embedding of the TypeScript sources [parser.ts], [importer.ts]
    (its historical variants) and [index.ts], with the properties of the
    specification stated and settled against it.

    Conventions of the embedding.
    - A JavaScript string is the list of its UTF-16 code units ([list N]).
      [JS.lit] turns an ASCII literal into such a list and [JS.utf8] a
      literal with other characters.
    - [Map<string, V>] read only through [get]/[set] is a [gmap (list N) V];
      where iteration order is observable an insertion-ordered association
      list is used instead.
    - Objects that are mutated through several aliases (the blocks under
      construction in the parser) live in an explicit heap, addressed by their
      allocation index.
    - Host calls (editor commands, backend calls, file-system handles) are
      answered by an oracle that sees the whole call history; every call is
      appended to that history. *)

From Stdlib Require Import ZArith NArith QArith Ascii String Lia Lqa DecimalString.
From stdpp Require Import gmap list strings.

Set Warnings "-register-all".

Set Default Proof Using "Type".
Local Open Scope nat_scope.

(** ** JavaScript strings *)

Module JS.

Definition lit (s : string) : list N :=
  (λ c, N_of_ascii c) <$> list_ascii_of_string s.

(** The code units of a literal written in UTF-8 in this file: code points
    above [0xFFFF] become a surrogate pair. *)
Fixpoint utf8Units (bytes : list N) : list N :=
  match bytes with
  | [] => []
  | b1 :: rest1 =>
      if (b1 <? 128)%N then b1 :: utf8Units rest1
      else match rest1 with
      | [] => []
      | b2 :: rest2 =>
          if (b1 <? 224)%N then
            ((b1 - 192) * 64 + (b2 - 128))%N :: utf8Units rest2
          else match rest2 with
          | [] => []
          | b3 :: rest3 =>
              if (b1 <? 240)%N then
                ((b1 - 224) * 4096 + (b2 - 128) * 64 + (b3 - 128))%N :: utf8Units rest3
              else match rest3 with
              | [] => []
              | b4 :: rest4 =>
                  let cp := ((b1 - 240) * 262144 + (b2 - 128) * 4096
                             + (b3 - 128) * 64 + (b4 - 128))%N in
                  (55296 + (cp - 65536) / 1024)%N
                  :: (56320 + (cp - 65536) mod 1024)%N :: utf8Units rest4
              end
          end
      end
  end.

Definition utf8 (s : string) : list N := utf8Units (lit s).

(** The double quote. *)
Definition quote : list N := [34%N].

(** [WhiteSpace] and [LineTerminator] of ECMAScript: what [String.prototype.trim]
    strips and what [\s] matches. *)
Definition isWhiteSpace (c : N) : bool :=
  ((9 <=? c) && (c <=? 13) || (c =? 32) || (c =? 160) || (c =? 5760)
   || (8192 <=? c) && (c <=? 8202) || (c =? 8232) || (c =? 8233)
   || (c =? 8239) || (c =? 8287) || (c =? 12288) || (c =? 65279))%N.

(** [LineTerminator]: the code units the regex dot does not match. *)
Definition isLineTerminator (c : N) : bool :=
  ((c =? 10) || (c =? 13) || (c =? 8232) || (c =? 8233))%N.

Definition isDigit (c : N) : bool := ((48 <=? c) && (c <=? 57))%N.

(** [\w]: [A-Za-z0-9_]. *)
Definition isWord (c : N) : bool :=
  ((65 <=? c) && (c <=? 90) || (97 <=? c) && (c <=? 122) || isDigit c
   || (c =? 95))%N.

Fixpoint drop_while (p : N → bool) (s : list N) : list N :=
  match s with
  | [] => []
  | c :: s' => if p c then drop_while p s' else s
  end.

Fixpoint take_while (p : N → bool) (s : list N) : list N :=
  match s with
  | [] => []
  | c :: s' => if p c then c :: take_while p s' else []
  end.

Definition trim (s : list N) : list N :=
  rev (drop_while isWhiteSpace (rev (drop_while isWhiteSpace s))).

Fixpoint startsWith (prefix s : list N) : bool :=
  match prefix, s with
  | [], _ => true
  | p :: prefix', c :: s' => (p =? c)%N && startsWith prefix' s'
  | _ :: _, [] => false
  end.

Definition endsWith (suffix s : list N) : bool :=
  startsWith (rev suffix) (rev s).

(** [s.substring(a)] and [s.substring(a, b)] for non-negative integer
    arguments; the two-argument form swaps its arguments when [a > b] and
    both forms clamp to the length of [s]. *)
Definition substringFrom (s : list N) (a : nat) : list N := drop a s.

Definition substring (s : list N) (a b : nat) : list N :=
  take (Nat.max a b - Nat.min a b) (drop (Nat.min a b) s).

(** [s.indexOf(needle)]; [None] stands for [-1]. *)
Fixpoint indexOf (needle s : list N) : option nat :=
  if startsWith needle s then Some 0
  else match s with
       | [] => None
       | _ :: s' => S <$> indexOf needle s'
       end.

(** [s.split(sep)] for a one-code-unit separator. *)
Fixpoint split (sep : N) (s : list N) : list (list N) :=
  match s with
  | [] => [[]]
  | c :: s' =>
      if (c =? sep)%N then [] :: split sep s'
      else match split sep s' with
           | l :: ls => (c :: l) :: ls
           | [] => [[c]]
           end
  end.

(** Truthiness of a string: the empty string is falsy. *)
Definition truthy (s : list N) : bool :=
  match s with [] => false | _ :: _ => true end.

(** *** Numbers

    The numbers the importers meet have integer values; [number] holds the
    non-negative ones and [Infinity]. A number is a double: [toDouble n] is
    the double nearest to the natural number [n] (a tie goes to the even
    significand), which is [n] itself up to [2^53] and [Infinity] from
    [2^1024 - 2^970] on. *)
Inductive number : Type :=
| Num (n : N)
| Infinity.

Definition toDouble (n : N) : number :=
  let bits := N.size n in
  if (bits <=? 53)%N then Num n
  else
    let shift := (bits - 53)%N in
    let q := N.shiftr n shift in
    let r := (n - N.shiftl q shift)%N in
    let half := N.shiftl 1 (shift - 1) in
    let q' := if ((half <? r) || (r =? half) && N.odd q)%N then (q + 1)%N else q in
    let v := N.shiftl q' shift in
    if (2 ^ 1024 <=? v)%N then Infinity else Num v.

(** The decimal digits of a natural number. *)
Definition decimal (n : N) : list N := lit (NilZero.string_of_uint (N.to_uint n)).

Definition roundTrips (x v : N) : bool :=
  match toDouble v with
  | Num y => (y =? x)%N
  | Infinity => false
  end.

(** [Number::toString] for the double [x > 0], whose value is an integer
    of [digits] digits: the integers with at most [k] significant digits
    that round to [x], if any; of two, the nearer to [x], and of two equally
    near the one whose digits [s] make an even number. *)
Definition shortestFor (x : N) (digits k : nat) : option N :=
  let p := (10 ^ N.of_nat (digits - k))%N in
  let lo := (x / p * p)%N in
  let hi := (lo + p)%N in
  match roundTrips x lo, roundTrips x hi with
  | true, true =>
      if (x - lo <? hi - x)%N then Some lo
      else if (hi - x <? x - lo)%N then Some hi
      else if N.even (lo / p) then Some lo else Some hi
  | true, false => Some lo
  | false, true => Some hi
  | false, false => None
  end.

(** The integer with the fewest significant digits that rounds to [x]. *)
Definition shortest (x : N) : N :=
  let digits := length (decimal x) in
  default x (head (omap (shortestFor x digits) (seq 1 digits))).

(** [`${x}`]: the digits of [shortest x], written out in full up to 21
    digits and with an exponent beyond. *)
Definition numberToString (x : number) : list N :=
  match x with
  | Infinity => lit "Infinity"
  | Num x =>
      let s := decimal (if (x =? 0)%N then 0%N else shortest x) in
      let n := length s in
      if n <=? 21 then s
      else
        let significant := rev (drop_while (λ c, (c =? 48)%N) (rev s)) in
        take 1 significant
        ++ (if 1 <? length significant then lit "." ++ drop 1 significant else [])
        ++ lit "e+" ++ decimal (N.of_nat (n - 1))
  end.

End JS.

(** ** Regular expressions

    A backtracking matcher in continuation-passing style for the fragment of
    ECMAScript regular expressions the sources use: literals, classes,
    sequence, alternation, greedy [?], greedy and lazy [*] over a class,
    capture groups and the anchors [^] and [$] (no [m] flag anywhere). The
    order in which alternatives are tried is the order of the ECMAScript
    semantics, so the first success is the match the engine reports. *)

Module Re.

Inductive regex : Type :=
| Eps
| Chr (c : N)
| Cls (p : N → bool)
| Cat (r1 r2 : regex)
| Alt (r1 r2 : regex)
| Opt (r : regex)
| Star (p : N → bool)
| StarLazy (p : N → bool)
| Grp (n : nat) (r : regex)
| Bol
| Eol.

(** Captures: the most recent binding of a group number comes first. *)
Definition caps := list (nat * list N).

Fixpoint group (n : nat) (cs : caps) : option (list N) :=
  match cs with
  | [] => None
  | (m, s) :: cs' => if Nat.eqb n m then Some s else group n cs'
  end.

(** A continuation receives the position reached, the input that is left
    there and the captures so far. *)
Definition cont := nat → list N → caps → option (nat * caps).

Fixpoint star_greedy (p : N → bool) (pos : nat) (rest : list N) (cs : caps)
    (k : cont) : option (nat * caps) :=
  match rest with
  | c :: rest' =>
      if p c then
        match star_greedy p (S pos) rest' cs k with
        | Some r => Some r
        | None => k pos rest cs
        end
      else k pos rest cs
  | [] => k pos rest cs
  end.

Fixpoint star_lazy (p : N → bool) (pos : nat) (rest : list N) (cs : caps)
    (k : cont) : option (nat * caps) :=
  match k pos rest cs with
  | Some r => Some r
  | None =>
      match rest with
      | c :: rest' => if p c then star_lazy p (S pos) rest' cs k else None
      | [] => None
      end
  end.

Fixpoint run (r : regex) (pos : nat) (rest : list N) (cs : caps) (k : cont)
    : option (nat * caps) :=
  match r with
  | Eps => k pos rest cs
  | Chr c =>
      match rest with
      | c' :: rest' => if (c =? c')%N then k (S pos) rest' cs else None
      | [] => None
      end
  | Cls p =>
      match rest with
      | c' :: rest' => if p c' then k (S pos) rest' cs else None
      | [] => None
      end
  | Cat r1 r2 => run r1 pos rest cs (λ pos' rest' cs', run r2 pos' rest' cs' k)
  | Alt r1 r2 =>
      match run r1 pos rest cs k with
      | Some x => Some x
      | None => run r2 pos rest cs k
      end
  | Opt r1 =>
      match run r1 pos rest cs k with
      | Some x => Some x
      | None => k pos rest cs
      end
  | Star p => star_greedy p pos rest cs k
  | StarLazy p => star_lazy p pos rest cs k
  | Grp n r1 =>
      run r1 pos rest cs
        (λ pos' rest' cs', k pos' rest' ((n, take (pos' - pos) rest) :: cs'))
  | Bol => if Nat.eqb pos 0 then k pos rest cs else None
  | Eol => match rest with [] => k pos rest cs | _ :: _ => None end
  end.

Definition accept : cont := λ pos _ cs, Some (pos, cs).

(** A successful match: where it starts, the matched text and the groups. *)
Record result := Result { index : nat; matched : list N; groups : caps }.

(** The search of [RegExp.prototype.exec]: the leftmost start position, from
    [pos] on, at which the pattern matches. *)
Fixpoint search (r : regex) (pos : nat) (rest : list N) : option result :=
  match run r pos rest [] accept with
  | Some (e, cs) => Some (Result pos (take (e - pos) rest) cs)
  | None =>
      match rest with
      | [] => None
      | _ :: rest' => search r (S pos) rest'
      end
  end.

(** [s.match(r)] and [r.exec(s)] for a regex without the [g] flag. *)
Definition exec (r : regex) (s : list N) : option result := search r 0 s.

Definition test (r : regex) (s : list N) : bool :=
  match exec r s with Some _ => true | None => false end.

(** Derived forms. *)
Definition Plus (p : N → bool) : regex := Cat (Cls p) (Star p).

Fixpoint Str (s : list N) : regex :=
  match s with
  | [] => Eps
  | c :: s' => Cat (Chr c) (Str s')
  end.

Definition dot (c : N) : bool := negb (JS.isLineTerminator c).

Definition noneOf (s : list N) (c : N) : bool :=
  negb (existsb (N.eqb c) s).

(** The least number of code units a match of [r] consumes. *)
Fixpoint min_len (r : regex) : nat :=
  match r with
  | Eps | Opt _ | Star _ | StarLazy _ | Bol | Eol => 0
  | Chr _ | Cls _ => 1
  | Cat r1 r2 => min_len r1 + min_len r2
  | Alt r1 r2 => Nat.min (min_len r1) (min_len r2)
  | Grp _ r1 => min_len r1
  end.

(** The [g] flag: the matches from left to right, each search starting
    where the previous match ended (one further on after an empty match,
    and never beyond the end of the string). [rest] is the input from [pos]
    on. *)
Fixpoint matchesFrom (fuel : nat) (r : regex) (pos : nat) (rest : list N)
    : list result :=
  match fuel with
  | 0 => []
  | S fuel' =>
      match search r pos rest with
      | None => []
      | Some m =>
          let stop := index m + length (matched m) in
          if Nat.eqb (length (matched m)) 0 then
            match drop (index m - pos) rest with
            | [] => [m]
            | _ :: rest' => m :: matchesFrom fuel' r (S stop) rest'
            end
          else m :: matchesFrom fuel' r stop (drop (stop - pos) rest)
      end
  end.

(** [s.matchAll(new RegExp(r, 'g'))] *)
Definition matchAll (r : regex) (s : list N) : list result :=
  matchesFrom (S (length s)) r 0 s.

(** [s.replace(r, f)] for [r] with the [g] flag: the text between the
    matches is kept and every match is replaced by [f] of it. *)
Fixpoint spliceFrom (ms : list result) (f : result → list N) (pos : nat)
    (rest : list N) : list N :=
  match ms with
  | [] => rest
  | m :: ms' =>
      let stop := index m + length (matched m) in
      take (index m - pos) rest ++ f m ++ spliceFrom ms' f stop (drop (stop - pos) rest)
  end.

Definition replaceAll (r : regex) (f : result → list N) (s : list N) : list N :=
  spliceFrom (matchAll r s) f 0 s.

End Re.

(** ** Plain objects used as dictionaries ([Record<string, any>])

    Own string-keyed properties in insertion order. *)

Module Obj.

Definition t := list (list N * list N).

Fixpoint update (k v : list N) (o : t) : option t :=
  match o with
  | [] => None
  | (k', v') :: o' =>
      if decide (k = k') then Some ((k', v) :: o')
      else (λ o'', (k', v') :: o'') <$> update k v o'
  end.

(** [o[k] = v] for a string [v]. Assigning a primitive to [__proto__] goes to
    the setter inherited from [Object.prototype], which ignores it. *)
Definition set (k v : list N) (o : t) : t :=
  if decide (k = JS.lit "__proto__") then o
  else match update k v o with
       | Some o' => o'
       | None => o ++ [(k, v)]
       end.

(** The value of a canonical array-index key (["0"], ["17"], ... below
    [2^32 - 1]); such keys are enumerated first, in ascending order. *)
Definition indexValue (k : list N) : option N :=
  match k with
  | [] => None
  | c :: k' =>
      if forallb JS.isDigit k && ((negb (c =? 48)%N) || bool_decide (k' = [])) then
        let n := fold_left (λ acc d, acc * 10 + (d - 48))%N k 0%N in
        if (n <? 4294967295)%N then Some n else None
      else None
  end.

Fixpoint insertSorted (e : N * (list N * list N))
    (l : list (N * (list N * list N))) : list (N * (list N * list N)) :=
  match l with
  | [] => [e]
  | e' :: l' => if (e.1 <? e'.1)%N then e :: l else e' :: insertSorted e l'
  end.

(** [Object.entries(o)]. *)
Definition entries (o : t) : list (list N * list N) :=
  let indexed := omap (λ kv, (λ n, (n, kv)) <$> indexValue kv.1) o in
  let named := filter (λ kv, indexValue kv.1 = None) o in
  (snd <$> foldr insertSorted [] indexed) ++ named.

Definition keys (o : t) : list (list N) := fst <$> entries o.

End Obj.

(** ** parser.ts *)

Record LogseqFile := {
  file_path : list N;      (* relative path, e.g. "pages/My Note.md" *)
  file_content : list N }.

(** A [LogseqBlock] object while the parser runs. [children] holds references
    (heap indices): the same object is reachable from the block stack, from
    [currentBlock] and from its parent's [children]. *)
Record BlockObj := {
  o_id : option (list N);
  o_content : list N;
  o_properties : Obj.t;
  o_children : list nat;
  o_level : Q }.

(** A [LogseqBlock] once parsing is over: the tree below one block. *)
Inductive LogseqBlock := mkLogseqBlock {
  blk_id : option (list N);
  blk_content : list N;
  blk_properties : Obj.t;
  blk_children : list LogseqBlock;
  blk_level : Q }.

Record LogseqPage := {
  page_name : list N;
  page_properties : Obj.t;
  page_blocks : list LogseqBlock }.

Record LogseqGraph := {
  graph_pages : list (list N * LogseqPage);   (* Map, in insertion order *)
  graph_blocks : gmap (list N) LogseqBlock }.  (* UUID -> block *)

Module Parser.

Import Re.

(** [/^(\w+):: (.+)$/] *)
Definition PROPERTY_REGEX : regex :=
  Cat Bol (Cat (Grp 1 (Plus JS.isWord))
    (Cat (Str (JS.lit ":: ")) (Cat (Grp 2 (Plus dot)) Eol))).

(** [/^id:: (.+)$/] *)
Definition ID_REGEX : regex :=
  Cat Bol (Cat (Str (JS.lit "id:: ")) (Cat (Grp 1 (Plus dot)) Eol)).

(** [/^\s*/] *)
Definition INDENT_REGEX : regex := Cat Bol (Star JS.isWhiteSpace).

(** [m[n]] of a match whose group [n] took part in it. *)
Definition grp (n : nat) (m : result) : list N := default [] (group n (groups m)).

(** The state of the loop of [parseLogseqFile]. The block stack is kept with
    its top (the last array element) first. *)
Record State := {
  properties : Obj.t;          (* page.properties *)
  blocks : list nat;           (* page.blocks *)
  heap : list BlockObj;
  currentBlock : option nat;
  blockStack : list nat;
  isFirstBlock : bool }.

Definition init : State :=
  {| properties := []; blocks := []; heap := []; currentBlock := None;
     blockStack := []; isFirstBlock := true |}.

Definition levelOf (h : list BlockObj) (r : nat) : option Q := o_level <$> h !! r.

(** [while (blockStack.length > 0 && top.level >= level) blockStack.pop()] *)
Fixpoint popWhile (h : list BlockObj) (level : Q) (stack : list nat) : list nat :=
  match stack with
  | [] => []
  | top :: stack' =>
      match levelOf h top with
      | Some l => if Qle_bool level l then popWhile h level stack' else stack
      | None => stack
      end
  end.

Definition pushChild (child : nat) (o : BlockObj) : BlockObj :=
  {| o_id := o_id o; o_content := o_content o; o_properties := o_properties o;
     o_children := o_children o ++ [child]; o_level := o_level o |}.

Definition setId (v : list N) (o : BlockObj) : BlockObj :=
  {| o_id := Some v; o_content := o_content o; o_properties := o_properties o;
     o_children := o_children o; o_level := o_level o |}.

Definition setProperty (k v : list N) (o : BlockObj) : BlockObj :=
  {| o_id := o_id o; o_content := o_content o;
     o_properties := Obj.set k v (o_properties o);
     o_children := o_children o; o_level := o_level o |}.

Definition indentationOf (line : list N) : nat :=
  match exec INDENT_REGEX line with
  | Some m => length (matched m)
  | None => 0
  end.

(** One iteration of [for (const line of lines)]. *)
Definition step (st : State) (line : list N) : State :=
  let trimmedLine := JS.trim line in
  if negb (JS.truthy trimmedLine) then st
  else
    let isBlockLine := JS.startsWith (JS.lit "- ") trimmedLine in
    if isFirstBlock st && negb isBlockLine then
      match exec PROPERTY_REGEX trimmedLine with
      | Some m =>
          {| properties := Obj.set (grp 1 m) (grp 2 m) (properties st);
             blocks := blocks st; heap := heap st;
             currentBlock := currentBlock st; blockStack := blockStack st;
             isFirstBlock := isFirstBlock st |}
      | None => st
      end
    else if isBlockLine then
      let indentation := indentationOf line in
      let level := (Z.of_nat indentation # 2)%Q in
      let newBlock :=
        {| o_id := None; o_content := JS.substringFrom trimmedLine 2;
           o_properties := []; o_children := []; o_level := level |} in
      let ref := length (heap st) in
      let stack := popWhile (heap st) level (blockStack st) in
      let h := heap st ++ [newBlock] in
      match stack with
      | parent :: _ =>
          {| properties := properties st; blocks := blocks st;
             heap := alter (pushChild ref) parent h;
             currentBlock := Some ref; blockStack := ref :: stack;
             isFirstBlock := false |}
      | [] =>
          {| properties := properties st; blocks := blocks st ++ [ref];
             heap := h;
             currentBlock := Some ref; blockStack := ref :: stack;
             isFirstBlock := false |}
      end
    else
      match currentBlock st with
      | Some cb =>
          match exec ID_REGEX trimmedLine with
          | Some idMatch =>
              {| properties := properties st; blocks := blocks st;
                 heap := alter (setId (grp 1 idMatch)) cb (heap st);
                 currentBlock := currentBlock st; blockStack := blockStack st;
                 isFirstBlock := isFirstBlock st |}
          | None =>
              match exec PROPERTY_REGEX trimmedLine with
              | Some propMatch =>
                  {| properties := properties st; blocks := blocks st;
                     heap := alter (setProperty (grp 1 propMatch) (grp 2 propMatch))
                               cb (heap st);
                     currentBlock := currentBlock st;
                     blockStack := blockStack st;
                     isFirstBlock := isFirstBlock st |}
              | None => st
              end
          end
      | None => st
      end.

(** The loop over [file.content.split('\n')]. *)
Definition run (content : list N) : State :=
  fold_left step (JS.split 10 content) init.

(** [file.path.replace(/\.md$/, "").split("/").pop() || "Untitled"] *)
Definition pageName (path : list N) : list N :=
  let stem :=
    if JS.endsWith (JS.lit ".md") path then take (length path - 3) path
    else path in
  match last (JS.split 47 stem) with
  | Some s => if JS.truthy s then s else JS.lit "Untitled"
  | None => JS.lit "Untitled"
  end.

(** The trees below the objects [i], [i+1], ... of the heap. A child is
    always allocated after its parent, so the trees of the children are
    among those built for the later objects. *)
Fixpoint trees (i : nat) (objs : list BlockObj) : list LogseqBlock :=
  match objs with
  | [] => []
  | o :: objs' =>
      let later := trees (S i) objs' in
      {| blk_id := o_id o; blk_content := o_content o;
         blk_properties := o_properties o;
         blk_children :=
           omap (λ c, if decide (i < c) then later !! (c - S i) else None)
                (o_children o);
         blk_level := o_level o |} :: later
  end.

Definition treeOf (h : list BlockObj) (r : nat) : option LogseqBlock :=
  trees 0 h !! r.

End Parser.

(** The page object [parseLogseqFile] returns, with the blocks reachable from
    it: [pf_blocks] is [page.blocks] as references into [pf_heap]. *)
Record ParsedFile := {
  pf_name : list N;
  pf_properties : Obj.t;
  pf_blocks : list nat;
  pf_heap : list BlockObj }.

Definition parseLogseqFile (file : LogseqFile) : ParsedFile :=
  let st := Parser.run (file_content file) in
  {| pf_name := Parser.pageName (file_path file);
     pf_properties := Parser.properties st;
     pf_blocks := Parser.blocks st;
     pf_heap := Parser.heap st |}.

(** The returned page as an immutable value (nothing mutates it after the
    parser has returned). *)
Definition pageOf (p : ParsedFile) : LogseqPage :=
  {| page_name := pf_name p;
     page_properties := pf_properties p;
     page_blocks := omap (Parser.treeOf (pf_heap p)) (pf_blocks p) |}.

(** [Map.prototype.set] on an insertion-ordered map: an existing key keeps
    its place and gets the new value. *)
Fixpoint mapSet {V} (k : list N) (v : V) (m : list (list N * V)) : list (list N * V) :=
  match m with
  | [] => [(k, v)]
  | (k', v') :: m' =>
      if decide (k = k') then (k', v) :: m' else (k', v') :: mapSet k v m'
  end.

Fixpoint mapGet {V} (k : list N) (m : list (list N * V)) : option V :=
  match m with
  | [] => None
  | (k', v') :: m' => if decide (k = k') then Some v' else mapGet k m'
  end.

(** [recursivelyFindBlocks]: pre-order, a later block with the same id
    replaces an earlier one. *)
Fixpoint recursivelyFindBlock (block : LogseqBlock)
    (index : gmap (list N) LogseqBlock) : gmap (list N) LogseqBlock :=
  let index' :=
    match blk_id block with
    | Some u => if JS.truthy u then <[u := block]> index else index
    | None => index
    end in
  fold_left (λ acc child, recursivelyFindBlock child acc) (blk_children block) index'.

Definition recursivelyFindBlocks (bs : list LogseqBlock)
    (index : gmap (list N) LogseqBlock) : gmap (list N) LogseqBlock :=
  fold_left (λ acc b, recursivelyFindBlock b acc) bs index.

Definition parseLogseqGraph (files : list LogseqFile) : LogseqGraph :=
  fold_left
    (λ graph file,
       let page := pageOf (parseLogseqFile file) in
       {| graph_pages := mapSet (page_name page) page (graph_pages graph);
          graph_blocks := recursivelyFindBlocks (page_blocks page) (graph_blocks graph) |})
    files
    {| graph_pages := []; graph_blocks := ∅ |}.

(** ** importer.ts: the inline-syntax scanner *)

(** [ContentFragment]: [{ t, v, f?, [key]: any }]. The optional keys the
    importer writes are [q] (the referenced uuid), [a] (alt text), [w], [h]
    (image size), [f] (format) and [fa] (format arguments [{ l, t }]). *)
Record ContentFragment := {
  cf_t : list N;
  cf_v : list N;
  cf_q : option (list N);
  cf_a : option (list N);
  cf_w : option JS.number;
  cf_h : option JS.number;
  cf_f : option (list N);
  cf_fa : option (list N * list N) }.

(** [{ t: "t", v }] *)
Definition textFragment (v : list N) : ContentFragment :=
  {| cf_t := JS.lit "t"; cf_v := v; cf_q := None; cf_a := None; cf_w := None;
     cf_h := None; cf_f := None; cf_fa := None |}.

(** [{ t: "r", v }] *)
Definition pageRefFragment (v : list N) : ContentFragment :=
  {| cf_t := JS.lit "r"; cf_v := v; cf_q := None; cf_a := None; cf_w := None;
     cf_h := None; cf_f := None; cf_fa := None |}.

(** [{ t: "r", v, q: uuid }] *)
Definition blockRefFragment (v uuid : list N) : ContentFragment :=
  {| cf_t := JS.lit "r"; cf_v := v; cf_q := Some uuid; cf_a := None;
     cf_w := None; cf_h := None; cf_f := None; cf_fa := None |}.

(** [{ t: "i", v: newPath, a: altText }] with [w], [h] when present. *)
Definition imageFragment (newPath altText : list N) (w h : option JS.number)
    : ContentFragment :=
  {| cf_t := JS.lit "i"; cf_v := newPath; cf_q := None; cf_a := Some altText;
     cf_w := w; cf_h := h; cf_f := None; cf_fa := None |}.

(** [{ t: "t", v, f: "l", fa: { l: newPath, t: "_blank" } }] *)
Definition linkFragment (v newPath : list N) : ContentFragment :=
  {| cf_t := JS.lit "t"; cf_v := v; cf_q := None; cf_a := None; cf_w := None;
     cf_h := None; cf_f := Some (JS.lit "l");
     cf_fa := Some (newPath, JS.lit "_blank") |}.

Module Importer.

Import Re.

(** [/(!?\[(.*?)\]\((.*?)\))\s*(\{:(.*?)\})?/] *)
Definition ATTACHMENT_REGEX : regex :=
  Cat (Grp 1 (Cat (Opt (Chr 33))                       (* !? *)
             (Cat (Chr 91)                             (* \[ *)
             (Cat (Grp 2 (StarLazy dot))               (* (.*?) *)
             (Cat (Chr 93)                             (* \] *)
             (Cat (Chr 40)                             (* \( *)
             (Cat (Grp 3 (StarLazy dot))               (* (.*?) *)
                  (Chr 41))))))))                      (* \) *)
  (Cat (Star JS.isWhiteSpace)                          (* \s* *)
       (Opt (Grp 4 (Cat (Chr 123) (Cat (Chr 58)        (* \{: *)
                   (Cat (Grp 5 (StarLazy dot))         (* (.*?) *)
                        (Chr 125))))))).               (* \} *)

(** [/^#([^\s#\[\]]+)/], written in place in the source *)
Definition SIMPLE_TAG_REGEX : regex :=
  Cat Bol (Cat (Chr 35)
    (Grp 1 (Plus (λ c, negb (JS.isWhiteSpace c) && noneOf (JS.lit "#[]") c)))).

(** A letter of a pattern under the [i] flag: it matches its two ASCII
    cases (canonicalisation never maps a non-ASCII code unit to ASCII). *)
Definition ci (lower : N) : regex :=
  Cls (λ c, (c =? lower)%N || (c =? lower - 32)%N).

Fixpoint StrI (s : list N) : regex :=
  match s with
  | [] => Eps
  | c :: s' => Cat (ci c) (StrI s')
  end.

(** [/\.(png|jpg|jpeg|gif|svg|webp)$/i] *)
Definition IMAGE_REGEX : regex :=
  Cat (Chr 46)
    (Cat (Grp 1 (Alt (StrI (JS.lit "png")) (Alt (StrI (JS.lit "jpg"))
                 (Alt (StrI (JS.lit "jpeg")) (Alt (StrI (JS.lit "gif"))
                 (Alt (StrI (JS.lit "svg")) (StrI (JS.lit "webp"))))))))
         Eol).

(** [/:width\s+(\d+)/] and [/:height\s+(\d+)/] *)
Definition WIDTH_REGEX : regex :=
  Cat (Str (JS.lit ":width")) (Cat (Plus JS.isWhiteSpace) (Grp 1 (Plus JS.isDigit))).

Definition HEIGHT_REGEX : regex :=
  Cat (Str (JS.lit ":height")) (Cat (Plus JS.isWhiteSpace) (Grp 1 (Plus JS.isDigit))).

(** [parseInt] of a string of decimal digits: the double nearest to the
    number the digits write. *)
Definition parseInt (digits : list N) : JS.number :=
  JS.toDouble (fold_left (λ acc d, acc * 10 + (d - 48))%N digits 0%N).

(** The placeholder texts. *)
Definition blockNotFound : list N := JS.utf8 "未找到的块: ".
Definition attachmentNotFound : list N := JS.utf8 "[附件未找到: ".

Section Scanner.

Variable content : list N.
Variable graph : LogseqGraph.
Variable assetPathMap : gmap (list N) (list N).

(** The mutable locals of [parseContentToFragments]. *)
Record Scan := { i : nat; buffer : list N; fragments : list ContentFragment }.

Definition start : Scan := {| i := 0; buffer := []; fragments := [] |}.

Definition flushBuffer (st : Scan) : Scan :=
  if JS.truthy (buffer st) then
    {| i := i st; buffer := []; fragments := fragments st ++ [textFragment (buffer st)] |}
  else st.

(** [flushBuffer(); fragments.push(fr); i += n; continue] *)
Definition emit (st : Scan) (fr : ContentFragment) (n : nat) : Scan :=
  let st' := flushBuffer st in
  {| i := i st' + n; buffer := buffer st'; fragments := fragments st' ++ [fr] |}.

(** [block?.content || `未找到的块: ${uuid}`] for [block = graph.blocks.get(uuid)] *)
Definition resolve (uuid : list N) : list N :=
  match graph_blocks graph !! uuid with
  | Some block =>
      if JS.truthy (blk_content block) then blk_content block
      else blockNotFound ++ uuid
  | None => blockNotFound ++ uuid
  end.

(** 1. Block embed: [{{embed ((uuid))}}] *)
Definition blockEmbed (st : Scan) (remaining : list N) : option Scan :=
  if JS.startsWith (JS.lit "{{embed ((") remaining then
    match JS.indexOf (JS.lit "))}}") remaining with
    | Some endIdx =>
        let uuid := JS.substring remaining 10 endIdx in
        Some (emit st (blockRefFragment (resolve uuid) uuid) (endIdx + 4))
    | None => None
    end
  else None.

(** 2. Block reference: [((uuid))] *)
Definition blockReference (st : Scan) (remaining : list N) : option Scan :=
  if JS.startsWith (JS.lit "((") remaining then
    match JS.indexOf (JS.lit "))") remaining with
    | Some endIdx =>
        let uuid := JS.substring remaining 2 endIdx in
        Some (emit st (blockRefFragment (resolve uuid) uuid) (endIdx + 2))
    | None => None
    end
  else None.

(** 3. Page link or tag: [[[...]]] or [#[[...]]] *)
Definition pageLink (st : Scan) (remaining : list N) : option Scan :=
  if JS.startsWith (JS.lit "[[") remaining || JS.startsWith (JS.lit "#[[") remaining then
    let isTag := JS.startsWith (JS.lit "#") remaining in
    let startIdx := if isTag then 3 else 2 in
    match JS.indexOf (JS.lit "]]") remaining with
    | Some endIdx =>
        let pageName := JS.substring remaining startIdx endIdx in
        Some (emit st (pageRefFragment pageName) (endIdx + 2))
    | None => None
    end
  else None.

(** 4. Simple tag: [#tag] *)
Definition simpleTag (st : Scan) (remaining : list N) : option Scan :=
  match exec SIMPLE_TAG_REGEX remaining with
  | Some tagMatch =>
      Some (emit st (pageRefFragment (default [] (group 1 (groups tagMatch))))
                 (length (matched tagMatch)))
  | None => None
  end.

(** [attrs.match(re)?.[1]], then [parseInt] when it is there. *)
Definition sizeAttr (re : regex) (attrs : list N) : option JS.number :=
  match exec re attrs with
  | Some m =>
      match group 1 (groups m) with
      | Some digits => if JS.truthy digits then Some (parseInt digits) else None
      | None => None
      end
  | None => None
  end.

(** The fragment pushed for an attachment match. *)
Definition attachmentFragment (attachmentMatch : result) : ContentFragment :=
  let altText := default [] (group 2 (groups attachmentMatch)) in
  let localPath := default [] (group 3 (groups attachmentMatch)) in
  let attrs := group 5 (groups attachmentMatch) in
  match assetPathMap !! localPath with
  | Some newPath =>
      if JS.truthy newPath then
        if test IMAGE_REGEX localPath then
          match attrs with
          | Some at_ =>
              if JS.truthy at_ then
                imageFragment newPath altText (sizeAttr WIDTH_REGEX at_)
                              (sizeAttr HEIGHT_REGEX at_)
              else imageFragment newPath altText None None
          | None => imageFragment newPath altText None None
          end
        else
          linkFragment
            (if JS.truthy altText then altText
             else default [] (last (JS.split 47 localPath)))
            newPath
      else textFragment (attachmentNotFound ++ localPath ++ JS.lit "]")
  | None => textFragment (attachmentNotFound ++ localPath ++ JS.lit "]")
  end.

(** 5. Attachments. The pattern is searched in [remaining] (it carries no
    [^]); the cursor then moves by the length of the match. *)
Definition attachment (st : Scan) (remaining : list N) : option Scan :=
  match exec ATTACHMENT_REGEX remaining with
  | Some attachmentMatch =>
      Some (emit st (attachmentFragment attachmentMatch)
                 (length (matched attachmentMatch)))
  | None => None
  end.

(** [buffer += content[i]; i++] *)
Definition accumulate (st : Scan) (remaining : list N) : Scan :=
  {| i := S (i st); buffer := buffer st ++ take 1 remaining;
     fragments := fragments st |}.

(** One iteration of [while (i < content.length)]. *)
Definition body (st : Scan) : Scan :=
  let remaining := JS.substringFrom content (i st) in
  match blockEmbed st remaining with
  | Some st' => st'
  | None =>
  match blockReference st remaining with
  | Some st' => st'
  | None =>
  match pageLink st remaining with
  | Some st' => st'
  | None =>
  match simpleTag st remaining with
  | Some st' => st'
  | None =>
  match attachment st remaining with
  | Some st' => st'
  | None => accumulate st remaining
  end end end end end.

(** The loop, with a bound on the number of iterations; [None] when the
    bound is used up before the cursor reaches the end. *)
Fixpoint loop (fuel : nat) (st : Scan) : option Scan :=
  if length content <=? i st then Some st
  else match fuel with
       | 0 => None
       | S fuel' => loop fuel' (body st)
       end.

End Scanner.

(** [parseContentToFragments(content, graph, assetPathMap)]; every iteration
    moves the cursor, so [content.length] iterations are enough (see
    [parseContentToFragments_total]). *)
Definition parseContentToFragments (content : list N) (graph : LogseqGraph)
    (assetPathMap : gmap (list N) (list N)) : option (list ContentFragment) :=
  (λ st, fragments (flushBuffer st)) <$>
    loop content graph assetPathMap (length content) start.

End Importer.

(** ** The host: Orca's command surface and the file-system handles

    Every call to the host is answered by an oracle that sees the history of
    the run so far; the call and its answer are appended to the history. A
    host call may return a value or throw. [orca.notify] and the timers only
    leave a mark in the history. *)

Module Host.

(** What a host call hands back ([any]). *)
Inductive value : Type :=
| VUndefined
| VNull
| VNum (n : Z)
| VStr (s : list N)
| VObj (o : nat)                                  (* a block, a handle, a File *)
| VFiles (fs : list (list N * list N))            (* [{ name, data }] *)
| VUploadResult (uploaded : option (list (list N)))   (* the [path]s of [uploaded] *)
                (failed : option nat).                (* [failed.length] *)

Definition truthy (v : value) : bool :=
  match v with
  | VUndefined | VNull => false
  | VNum n => negb (n =? 0)%Z
  | VStr s => JS.truthy s
  | VObj _ | VFiles _ | VUploadResult _ _ => true
  end.

(** [`${v}`]. [VNum n] is the number with the integer value [n], that is
    the double nearest to it. *)
Definition toString (v : value) : list N :=
  match v with
  | VUndefined => JS.lit "undefined"
  | VNull => JS.lit "null"
  | VNum n =>
      (if (n <? 0)%Z then JS.lit "-" else [])
      ++ JS.numberToString (JS.toDouble (Z.abs_N n))
  | VStr s => s
  | VObj _ | VUploadResult _ _ => JS.lit "[object Object]"
  | VFiles _ => JS.lit "[object Object]"
  end.

(** What is thrown: an [Error] with its message, or something else. *)
Inductive exn : Type :=
| Error (message : list N)
| Thrown (v : value).

Inductive outcome (A : Type) : Type :=
| Ok (a : A)
| Throw (e : exn)
| OutOfFuel.
Arguments Ok {A} a.
Arguments Throw {A} e.
Arguments OutOfFuel {A}.

(** [null] and [undefined]: the values no property can be read of. *)
Definition nullish (v : value) : bool :=
  match v with
  | VUndefined | VNull => true
  | _ => false
  end.

(** [`${e.message}`] for the [e] of a [catch]: the message of an [Error],
    ["undefined"] for a thrown value that has no [message], and a
    [TypeError] when [null] or [undefined] was thrown. *)
Definition messageOf (e : exn) : outcome (list N) :=
  match e with
  | Error m => Ok m
  | Thrown v =>
      if nullish v then
        Throw (Error (JS.lit "Cannot read properties of " ++ toString v
                      ++ JS.lit " (reading 'message')"))
      else Ok (JS.lit "undefined")
  end.

(** [{ name, value, type? }] *)
Record PropertySpec := {
  prop_name : list N;
  prop_value : list N;
  prop_type : option nat }.

(** The reference block of an insertion: [null], [{ id }] or a block. *)
Inductive blockRef : Type :=
| RefNull
| RefId (id : value)
| RefBlock (block : value).

(** The last argument of [core.editor.insertBlock]. *)
Record BlockSpec := {
  spec_type : list N;
  spec_level : option nat;
  spec_properties : option (list PropertySpec) }.

(** [Repr] *)
Record Repr := {
  repr_type : list N;
  repr_content : list ContentFragment;
  repr_indent : nat;
  repr_properties : option (list PropertySpec) }.

Inductive call : Type :=
| InsertBlock (refBlock : blockRef) (position : option (list N))
              (content : list ContentFragment) (spec : BlockSpec)
| SetProperties (ids : list value) (props : list PropertySpec)
| BatchInsertReprs (refBlock : value) (position : list N) (reprs : list Repr)
| UpdateBlock (id : value) (content : list ContentFragment)
| GetBlock (id : value)                       (* invokeBackend("get-block", id) *)
| UploadAssets (files : list value)           (* invokeBackend("upload-assets", files) *)
| ReadDirectory (path : list N)               (* invokeBackend("read-directory", path) *)
| GetDirectoryHandle (dir : value) (name : list N)
| GetFileHandle (dir : value) (name : list N)
| GetFile (handle : value).

Inductive event : Type :=
| Called (c : call) (r : outcome value)
| Notified (level message : list N)
| GroupBegin
| GroupEnd
| Slept (ms : nat).

(** The state of a run: the history, and the [Map] object [uuidToDbIdMap]
    that the driver creates and every batch mutates (in insertion order). *)
Record World := {
  trace : list event;
  uuidToDbIdMap : list (list N * value) }.

Definition M (A : Type) : Type := World → outcome A * World.

#[global] Instance M_ret : MRet M := λ A a w, (Ok a, w).

#[global] Instance M_bind : MBind M := λ A B f m w,
  match m w with
  | (Ok a, w') => f a w'
  | (Throw e, w') => (Throw e, w')
  | (OutOfFuel, w') => (OutOfFuel, w')
  end.

Definition throw {A} (e : exn) : M A := λ w, (Throw e, w).

Definition outOfFuel {A} : M A := λ w, (OutOfFuel, w).

(** [try { m } catch (e) { handler(e) }] *)
Definition tryCatch {A} (m : M A) (handler : exn → M A) : M A := λ w,
  match m w with
  | (Throw e, w') => handler e w'
  | r => r
  end.

Definition log (e : event) : M unit := λ w,
  (Ok tt, {| trace := trace w ++ [e]; uuidToDbIdMap := uuidToDbIdMap w |}).

Definition notify (level message : list N) : M unit := log (Notified level message).

(** [await new Promise(resolve => setTimeout(resolve, ms))] *)
Definition sleep (ms : nat) : M unit := log (Slept ms).

Definition getMap : M (list (list N * value)) := λ w, (Ok (uuidToDbIdMap w), w).

Definition setMap (m : list (list N * value)) : M unit := λ w,
  (Ok tt, {| trace := trace w; uuidToDbIdMap := m |}).

(** [for (const x of xs) { f(x) }] *)
Fixpoint forEach {A} (xs : list A) (f : A → M unit) : M unit :=
  match xs with
  | [] => mret tt
  | x :: xs' => f x ;; forEach xs' f
  end.

Section Oracle.

Variable respond : list event → call → outcome value.

(** A call to the host. *)
Definition invoke (c : call) : M value := λ w,
  let r := respond (trace w) c in
  (r, {| trace := trace w ++ [Called c r]; uuidToDbIdMap := uuidToDbIdMap w |}).

(** [orca.commands.invokeGroup(async () => { body }, { undoable, topGroup })]:
    the host runs the callback as one undo group; what the callback throws
    comes out of [invokeGroup]. *)
Definition invokeGroup (body : M unit) : M unit :=
  log GroupBegin ;; body ;; log GroupEnd.

End Oracle.

End Host.

(** ** importer.ts: the two-pass importer *)

Module TwoPassImporter.

Import Re Host.

(** The patterns of pass 2. *)

(** [/\[\[([^\]]+)\]\]/g] *)
Definition LINK_REGEX : regex :=
  Cat (Str (JS.lit "[[")) (Cat (Grp 1 (Plus (noneOf (JS.lit "]")))) (Str (JS.lit "]]"))).

(** [/#([^\s#\[\]\(\)]+)/g] *)
Definition TAG_REGEX : regex :=
  Cat (Chr 35)
    (Grp 1 (Plus (λ c, negb (JS.isWhiteSpace c) && noneOf (JS.lit "#[]()") c))).

(** [/\(\(([^\)]+)\)\)/g] *)
Definition BLOCK_REF_REGEX : regex :=
  Cat (Str (JS.lit "((")) (Cat (Grp 1 (Plus (noneOf (JS.lit ")")))) (Str (JS.lit "))"))).

(** [/\{\{embed \(\(([^\)]+)\)\}\}/g] (one closing parenthesis) *)
Definition BLOCK_EMBED_REGEX : regex :=
  Cat (Str (JS.lit "{{embed (("))
    (Cat (Grp 1 (Plus (noneOf (JS.lit ")")))) (Str (JS.lit ")}}"))).

(** [/!\[(ALT)\]\(\.\.\/(assets\/[^\)]+)\)/g] with [[^\]]*] for [ALT] *)
Definition ASSET_REGEX : regex :=
  Cat (Str (JS.lit "!["))
    (Cat (Grp 1 (Star (noneOf (JS.lit "]"))))
    (Cat (Str (JS.lit "](../"))
    (Cat (Grp 2 (Cat (Str (JS.lit "assets/")) (Plus (noneOf (JS.lit ")")))))
         (Chr 41)))).

Definition grp (n : nat) (m : result) : list N := default [] (group n (groups m)).

(** The five replacements of pass 2, in the order of the source. *)
Definition rewriteContent (uuidToDbIdMap : list (list N * value)) (content : list N)
    : list N :=
  let content :=
    replaceAll ASSET_REGEX
      (λ m, JS.lit "![" ++ grp 1 m ++ JS.lit "](assets/" ++ grp 2 m ++ JS.lit ")")
      content in
  let content :=
    replaceAll LINK_REGEX (λ m, JS.lit "#[[((" ++ grp 1 m ++ JS.lit "))]]") content in
  let content :=
    replaceAll TAG_REGEX (λ m, JS.lit "#[[((" ++ grp 1 m ++ JS.lit "))]]") content in
  let content :=
    replaceAll BLOCK_REF_REGEX
      (λ m, match mapGet (grp 1 m) uuidToDbIdMap with
            | Some referencedDbId =>
                if truthy referencedDbId
                then JS.lit "((" ++ toString referencedDbId ++ JS.lit "))"
                else matched m
            | None => matched m
            end)
      content in
  replaceAll BLOCK_EMBED_REGEX
    (λ m, match mapGet (grp 1 m) uuidToDbIdMap with
          | Some referencedDbId =>
              if truthy referencedDbId
              then JS.lit "{{embed ((" ++ toString referencedDbId ++ JS.lit "))}}"
              else matched m
          | None => matched m
          end)
    content.

Definition textSpec : BlockSpec :=
  {| spec_type := JS.lit "text"; spec_level := None; spec_properties := None |}.

Definition headingSpec : BlockSpec :=
  {| spec_type := JS.lit "heading"; spec_level := Some 1; spec_properties := None |}.

Section WithHost.

Variable respond : list event → call → outcome value.

(** One iteration of the loop of [createBlocksRecursively], with the
    recursive call on the children of the block. *)
Fixpoint createBlock (parentDbId : value) (block : LogseqBlock) : M unit :=
  blockId ← invoke respond
    (InsertBlock (RefId parentDbId) (Some (JS.lit "lastChild"))
                 [textFragment (blk_content block)] textSpec);
  match blk_id block with
  | Some u =>
      if JS.truthy u then
        m ← getMap; setMap (mapSet u blockId m)
      else mret tt
  | None => mret tt
  end ;;
  (if 0 <? length (Obj.keys (blk_properties block)) then
     let propertiesToSet :=
       (λ kv, {| prop_name := kv.1; prop_value := kv.2; prop_type := None |})
         <$> Obj.entries (blk_properties block) in
     invoke respond (SetProperties [blockId] propertiesToSet) ;; mret tt
   else mret tt) ;;
  (fix children (bs : list LogseqBlock) : M unit :=
     match bs with
     | [] => mret tt
     | b :: bs' => createBlock blockId b ;; children bs'
     end) (blk_children block).

Definition createBlocksRecursively (logseqBlocks : list LogseqBlock)
    (parentDbId : value) : M unit :=
  forEach logseqBlocks (createBlock parentDbId).

(** [importPageBatch(pagesToImport, graph, uuidToDbIdMap)]; the map is the
    one of the state. *)
Definition importPageBatch (pagesToImport : list LogseqPage) (graph : LogseqGraph)
    : M unit :=
  (* PASS 1: create all blocks and properties for this batch *)
  invokeGroup
    (forEach pagesToImport (λ page,
       pageBlockId ← invoke respond
         (InsertBlock RefNull None [textFragment (page_name page)] headingSpec);
       createBlocksRecursively (page_blocks page) pageBlockId)) ;;
  (* PASS 2: link all references within this batch *)
  invokeGroup
    (entries ← getMap;
     forEach entries (λ entry,
       match graph_blocks graph !! entry.1 with
       | None => mret tt
       | Some logseqBlock =>
           uuidToDbIdMap ← getMap;
           let content := rewriteContent uuidToDbIdMap (blk_content logseqBlock) in
           if decide (content = blk_content logseqBlock) then mret tt
           else invoke respond (UpdateBlock entry.2 [textFragment content]) ;; mret tt
       end)).

End WithHost.

End TwoPassImporter.

(** ** The asset-aware importer (the variant around [parseContentToFragments]) *)

Module AssetImporter.

Import Re Host.

(** A [Set<string>], in insertion order. *)
Definition setAdd (x : list N) (s : list (list N)) : list (list N) :=
  if decide (x ∈ s) then s else s ++ [x].

(** [collectPaths], adding to [allAssetPaths]. *)
Fixpoint collectBlock (block : LogseqBlock) (allAssetPaths : list (list N))
    : list (list N) :=
  let found :=
    fold_left
      (λ acc m,
         let localPath := default [] (group 3 (groups m)) in
         if JS.startsWith (JS.lit "../assets/") localPath then setAdd localPath acc
         else acc)
      (matchAll Importer.ATTACHMENT_REGEX (blk_content block)) allAssetPaths in
  fold_left (λ acc child, collectBlock child acc) (blk_children block) found.

Definition collectPaths (blocks : list LogseqBlock) (allAssetPaths : list (list N))
    : list (list N) :=
  fold_left (λ acc block, collectBlock block acc) blocks allAssetPaths.

Definition collectAll (pagesToImport : list LogseqPage) : list (list N) :=
  fold_left (λ acc page, collectPaths (page_blocks page) acc) pagesToImport [].

(** The [Map<string, string>] of the asset paths as the code fills it: the
    entries under string keys, and the entry under the key [undefined] that
    [set(pathsToUpload[i], ...)] writes when [i] is not below
    [pathsToUpload.length]. [get(localPath)] reads the string keys. *)
Record PathMap := {
  pm_paths : gmap (list N) (list N);
  pm_undefined : option (list N) }.

#[global] Instance PathMap_empty : Empty PathMap :=
  {| pm_paths := ∅; pm_undefined := None |}.

#[global] Instance PathMap_lookup : Lookup (list N) (list N) PathMap :=
  λ k m, pm_paths m !! k.

(** [assetPathMap.set(key, path)] for a [key] read from an array. *)
Definition pathMapSet (key : option (list N)) (path : list N) (m : PathMap) : PathMap :=
  match key with
  | Some k => {| pm_paths := <[k := path]> (pm_paths m); pm_undefined := pm_undefined m |}
  | None => {| pm_paths := pm_paths m; pm_undefined := Some path |}
  end.

(** [for (let i = 0; i < result.uploaded.length; i++)
       assetPathMap.set(pathsToUpload[i], result.uploaded[i].path)] *)
Definition recordUploads (pathsToUpload uploaded : list (list N))
    (assetPathMap : PathMap) : PathMap :=
  fold_left
    (λ acc i,
       match uploaded !! i with
       | Some path => pathMapSet (pathsToUpload !! i) path acc
       | None => acc
       end)
    (seq 0 (length uploaded)) assetPathMap.

Section WithHost.

Variable respond : list event → call → outcome value.

(** The loop over [allAssetPaths]: the files found, with their paths. *)
Fixpoint gatherFiles (assetsFolder : value) (paths : list (list N))
    : M (list value * list (list N)) :=
  match paths with
  | [] => mret ([], [])
  | originalPath :: paths' =>
      let relativePath := JS.substringFrom originalPath 10 in
      found ← tryCatch
        (fileHandle ← invoke respond (GetFileHandle assetsFolder relativePath);
         file ← invoke respond (GetFile fileHandle);
         mret (Some file))
        (λ e, mret None);
      more ← gatherFiles assetsFolder paths';
      match found with
      | Some file => mret (file :: more.1, originalPath :: more.2)
      | None => mret more
      end
  end.

(** [preUploadAssetsAndGetPathMap(pagesToImport, logseqFolder)]. Every call
    that can throw inside the [try] comes before the first
    [assetPathMap.set], so the map the handler leaves for the [return] is the
    initial one. *)
Definition preUploadAssetsAndGetPathMap (pagesToImport : list LogseqPage)
    (logseqFolder : value) : M PathMap :=
  let assetPathMap : PathMap := ∅ in
  let allAssetPaths := collectAll pagesToImport in
  if Nat.eqb (length allAssetPaths) 0 then mret assetPathMap
  else
    tryCatch
      (assetsFolder ← invoke respond (GetDirectoryHandle logseqFolder (JS.lit "assets"));
       gathered ← gatherFiles assetsFolder allAssetPaths;
       let filesToUpload := gathered.1 in
       let pathsToUpload := gathered.2 in
       if 0 <? length filesToUpload then
         notify (JS.lit "info")
           (JS.utf8 "准备上传 " ++ toString (VNum (Z.of_nat (length filesToUpload)))
            ++ JS.utf8 " 个附件...") ;;
         result ← invoke respond (UploadAssets filesToUpload);
         match result with
         | VUploadResult uploaded failed =>
             let assetPathMap' :=
               match uploaded with
               | Some us => recordUploads pathsToUpload us assetPathMap
               | None => assetPathMap
               end in
             match failed with
             | Some n =>
                 if 0 <? n then
                   notify (JS.lit "warn")
                     (toString (VNum (Z.of_nat n)) ++ JS.utf8 " 个附件上传失败。") ;;
                   mret assetPathMap'
                 else mret assetPathMap'
             | None => mret assetPathMap'
             end
         | _ => mret assetPathMap
         end
       else mret assetPathMap)
      (λ e,
         notify (JS.lit "error") (JS.utf8 "无法打开 'assets' 文件夹，附件迁移失败。") ;;
         mret assetPathMap).

End WithHost.

Definition propertySpecs (o : Obj.t) : list PropertySpec :=
  (λ kv, {| prop_name := kv.1; prop_value := kv.2; prop_type := Some 1 |})
    <$> Obj.entries o.

(** [convertLogseqBlocksToReprs]; [None] only if a scan ran out of its
    iteration bound. *)
Fixpoint convertBlock (graph : LogseqGraph) (assetPathMap : gmap (list N) (list N))
    (currentIndent : nat) (block : LogseqBlock) : option (list Repr) :=
  contentFragments ←
    Importer.parseContentToFragments (blk_content block) graph assetPathMap;
  let repr :=
    {| repr_type := JS.lit "text";
       repr_content :=
         if 0 <? length contentFragments then contentFragments
         else [textFragment []];
       repr_indent := currentIndent;
       repr_properties :=
         if 0 <? length (Obj.keys (blk_properties block))
         then Some (propertySpecs (blk_properties block)) else None |} in
  below ←
    (fix children (bs : list LogseqBlock) : option (list Repr) :=
       match bs with
       | [] => Some []
       | b :: bs' =>
           rs ← convertBlock graph assetPathMap (S currentIndent) b;
           rs' ← children bs';
           Some (rs ++ rs')
       end) (blk_children block);
  Some (repr :: below).

Fixpoint convertLogseqBlocksToReprs (logseqBlocks : list LogseqBlock)
    (graph : LogseqGraph) (assetPathMap : gmap (list N) (list N))
    (currentIndent : nat) : option (list Repr) :=
  match logseqBlocks with
  | [] => Some []
  | block :: rest =>
      rs ← convertBlock graph assetPathMap currentIndent block;
      rs' ← convertLogseqBlocksToReprs rest graph assetPathMap currentIndent;
      Some (rs ++ rs')
  end.

Section WithHost2.

Variable respond : list event → call → outcome value.

(** The body of the [try] for one page. *)
Definition importPage (graph : LogseqGraph) (assetPathMap : gmap (list N) (list N))
    (page : LogseqPage) : M unit :=
  let pageProperties := propertySpecs (page_properties page) in
  pageBlockId ← invoke respond
    (InsertBlock RefNull None [textFragment (page_name page)]
                 TwoPassImporter.headingSpec);
  if negb (truthy pageBlockId) then
    throw (Error (JS.utf8 "创建页面失败: " ++ JS.quote ++ page_name page ++ JS.quote))
  else
    (if 0 <? length pageProperties then
       invoke respond (SetProperties [pageBlockId] pageProperties) ;; mret tt
     else mret tt) ;;
    pageBlock ← invoke respond (GetBlock pageBlockId);
    if negb (truthy pageBlock) then
      throw (Error (JS.utf8 "获取页面块失败: " ++ JS.quote ++ page_name page ++ JS.quote))
    else if 0 <? length (page_blocks page) then
      match convertLogseqBlocksToReprs (page_blocks page) graph assetPathMap 0 with
      | Some blockReprs =>
          if 0 <? length blockReprs then
            invoke respond
              (BatchInsertReprs pageBlock (JS.lit "lastChild") blockReprs) ;;
            mret tt
          else mret tt
      | None => outOfFuel
      end
    else mret tt.

(** The [catch] for one page: the notification, unless reading
    [e.message] throws. *)
Definition pageFailed (page : LogseqPage) (e : exn) : M unit :=
  match messageOf e with
  | Ok message =>
      notify (JS.lit "error")
        (JS.utf8 "导入页面 " ++ JS.quote ++ page_name page ++ JS.quote
         ++ JS.utf8 " 失败: " ++ message)
  | Throw e' => throw e'
  | OutOfFuel => outOfFuel
  end.

(** [importPageBatch(pagesToImport, graph, logseqFolder)] *)
Definition importPageBatch (pagesToImport : list LogseqPage) (graph : LogseqGraph)
    (logseqFolder : value) : M unit :=
  notify (JS.lit "info") (JS.utf8 "开始分析和上传附件...") ;;
  assetPathMap ← preUploadAssetsAndGetPathMap respond pagesToImport logseqFolder;
  notify (JS.lit "success") (JS.utf8 "附件处理完成。") ;;
  invokeGroup
    (forEach pagesToImport (λ page,
       sleep 10 ;;
       tryCatch (importPage graph (pm_paths assetPathMap) page) (pageFailed page))).

End WithHost2.

End AssetImporter.

(** ** index.ts: the driver *)

Module Driver.

Import Host.

Definition BATCH_SIZE : nat := 50.

(** [`${n}`] for a length or an index. *)
Definition showNat (n : nat) : list N := toString (VNum (Z.of_nat n)).

Section WithHost.

Variable respond : list event → call → outcome value.

(** [orca.state.plugins[pluginName]?.settings?.logseqPath] *)
Variable logseqPathSetting : option (list N).

(** [new TextDecoder().decode(data)] *)
Variable decode : list N → list N.

(** The [importPageBatch] the driver is linked with; it works on the
    [uuidToDbIdMap] of the state. *)
Variable importPageBatch : list LogseqPage → LogseqGraph → M unit.

(** [for (let i = 0; i < allPages.length; i += BATCH_SIZE) { ... }], from
    the given [i] on, with a bound on the number of iterations. *)
Fixpoint batchLoop (fuel : nat) (allPages : list LogseqPage) (graph : LogseqGraph)
    (i : nat) : M unit :=
  if i <? length allPages then
    match fuel with
    | 0 => outOfFuel
    | S fuel' =>
        let batch := take BATCH_SIZE (drop i allPages) in   (* slice(i, i + BATCH_SIZE) *)
        importPageBatch batch graph ;;
        notify (JS.lit "info")
          (JS.utf8 "导入进度: " ++ showNat (Nat.min (i + BATCH_SIZE) (length allPages))
           ++ JS.lit " / " ++ showNat (length allPages)) ;;
        batchLoop fuel' allPages graph (i + BATCH_SIZE)
    end
  else mret tt.

Definition startImportProcess : M unit :=
  tryCatch
    (match logseqPathSetting with
     | None =>
         notify (JS.lit "warn")
           (JS.utf8 "请先在插件设置中，正确输入您 Logseq 库的绝对路径。")
     | Some logseqPath =>
         if negb (JS.truthy logseqPath) || negb (JS.truthy (JS.trim logseqPath)) then
           notify (JS.lit "warn")
             (JS.utf8 "请先在插件设置中，正确输入您 Logseq 库的绝对路径。")
         else
           notify (JS.lit "info") (JS.utf8 "准备从路径读取文件: " ++ logseqPath) ;;
           files ← invoke respond (ReadDirectory logseqPath);
           let noFiles :=
             notify (JS.lit "warn")
               (JS.utf8 "无法读取文件夹，或文件夹为空。请检查路径和权限，或确认虎鲸笔记是否支持此操作。") in
           match files with
           | VFiles fs =>
               if Nat.eqb (length fs) 0 then noFiles
               else
                 let mdFiles :=
                   (λ file, {| file_path := file.1; file_content := decode file.2 |})
                     <$> filter (λ file, JS.endsWith (JS.lit ".md") file.1 = true) fs in
                 if Nat.eqb (length mdFiles) 0 then
                   notify (JS.lit "warn")
                     (JS.utf8 "在指定路径中没有找到 Markdown (.md) 文件。")
                 else
                   notify (JS.lit "info")
                     (JS.utf8 "找到了 " ++ showNat (length mdFiles)
                      ++ JS.utf8 " 个 Markdown 文件，开始解析...") ;;
                   let graph := parseLogseqGraph mdFiles in
                   let allPages := snd <$> graph_pages graph in
                   notify (JS.lit "info")
                     (JS.utf8 "解析完成: " ++ showNat (length allPages)
                      ++ JS.utf8 " 个页面。开始分批导入...") ;;
                   setMap [] ;;                        (* new Map<string, number>() *)
                   batchLoop (length allPages) allPages graph 0 ;;
                   notify (JS.lit "success") (JS.utf8 "所有批次导入完成！")
           | other =>
               if negb (truthy other) then noFiles
               else throw (Error (JS.lit "files.filter is not a function"))
           end
     end)
    (λ error,
       match error with
       | Error message =>
           notify (JS.lit "error")
             (JS.utf8 "导入失败: " ++ message ++ JS.lit ". "
              ++ JS.utf8 "请确认虎鲸笔记是否有读取本地文件的API和权限。")
       | Thrown _ =>
           notify (JS.lit "error")
             (JS.utf8 "发生未知错误。请检查控制台以获取详细信息。")
       end).

End WithHost.

End Driver.

(** ** The importer that scans with one global pattern *)

Module RegexImporter.

Import Re Host.

(** The alternatives of the pattern of [parseContentToFragments]:
    an asset [!\[...\](...)], a page link, a tag [#\S+], a block reference
    [\(\(([^)]+)\)\)] and a block embed. Groups 1 to 4 are the first four
    alternatives, group 5 is the uuid inside a block reference and group 6
    the uuid inside a block embed. *)
Definition CONTENT_REGEX : regex :=
  Alt (Grp 1 (Cat (Str (JS.lit "![")) (Cat (Star (noneOf (JS.lit "]")))
               (Cat (Str (JS.lit "](")) (Cat (Plus (noneOf (JS.lit ")"))) (Chr 41))))))
  (Alt (Grp 2 (Cat (Str (JS.lit "[[")) (Cat (Plus (noneOf (JS.lit "]")))
                (Str (JS.lit "]]")))))
  (Alt (Grp 3 (Cat (Chr 35) (Plus (λ c, negb (JS.isWhiteSpace c)))))
  (Alt (Grp 4 (Cat (Str (JS.lit "((")) (Cat (Grp 5 (Plus (noneOf (JS.lit ")"))))
                (Str (JS.lit "))")))))
       (Cat (Str (JS.lit "{{embed ((")) (Cat (Grp 6 (Plus (noneOf (JS.lit ")"))))
            (Str (JS.lit "))}}"))))))).

(** A group of the match that is defined and not empty. *)
Definition present (n : nat) (m : result) : option (list N) :=
  match group n (groups m) with
  | Some s => if JS.truthy s then Some s else None
  | None => None
  end.

(** The text shown for a referenced block: its content cut at 50 code units
    and quoted, or the key that was looked up. *)
Definition shown (graph : LogseqGraph) (key : list N) : list N :=
  match graph_blocks graph !! key with
  | Some foundBlock =>
      JS.quote ++ JS.substring (blk_content foundBlock) 0 50 ++ JS.lit "..." ++ JS.quote
  | None => key
  end.

(** What one match pushes. The destructuring
    [[fullMatch, asset, link, tag, refUuid, embedUuid]] binds [refUuid] to
    group 4 and [embedUuid] to group 5. *)
Definition fragmentOf (graph : LogseqGraph) (m : result) : list ContentFragment :=
  match present 1 m with
  | Some asset => [textFragment asset]
  | None =>
  match present 2 m with
  | Some link => [pageRefFragment (JS.substring link 2 (length link - 2))]
  | None =>
  match present 3 m with
  | Some tag =>
      let tagName :=
        replaceAll (Str (JS.lit "]]")) (λ _, [])
          (replaceAll (Str (JS.lit "[[")) (λ _, []) (JS.substringFrom tag 1)) in
      [pageRefFragment tagName]
  | None =>
  match present 4 m with
  | Some refUuid =>
      [textFragment (JS.utf8 "[块引用: " ++ shown graph refUuid ++ JS.lit "]")]
  | None =>
  match present 5 m with
  | Some embedUuid =>
      [textFragment (JS.utf8 "[块嵌入: " ++ shown graph embedUuid ++ JS.lit "]")]
  | None => []
  end end end end end.

(** The [while ((match = regex.exec(content)) !== null)] loop over the
    matches, [lastIndex] being where the previous match ended. *)
Fixpoint scanMatches (graph : LogseqGraph) (content : list N) (ms : list result)
    (lastIndex : nat) : list ContentFragment * nat :=
  match ms with
  | [] => ([], lastIndex)
  | m :: ms' =>
      let before :=
        if lastIndex <? index m
        then [textFragment (JS.substring content lastIndex (index m))] else [] in
      let rest := scanMatches graph content ms' (index m + length (matched m)) in
      (before ++ fragmentOf graph m ++ rest.1, rest.2)
  end.

Definition parseContentToFragments (content : list N) (graph : LogseqGraph)
    : list ContentFragment :=
  let scanned := scanMatches graph content (matchAll CONTENT_REGEX content) 0 in
  if scanned.2 <? length content
  then scanned.1 ++ [textFragment (JS.substringFrom content scanned.2)]
  else scanned.1.

(** [convertLogseqBlocksToReprs] *)
Fixpoint convertBlock (graph : LogseqGraph) (currentIndent : nat) (block : LogseqBlock)
    : list Repr :=
  {| repr_type := JS.lit "text";
     repr_content := parseContentToFragments (blk_content block) graph;
     repr_indent := currentIndent;
     repr_properties :=
       if 0 <? length (Obj.keys (blk_properties block))
       then Some (AssetImporter.propertySpecs (blk_properties block)) else None |}
  :: (fix children (bs : list LogseqBlock) : list Repr :=
        match bs with
        | [] => []
        | b :: bs' => convertBlock graph (S currentIndent) b ++ children bs'
        end) (blk_children block).

Definition convertLogseqBlocksToReprs (logseqBlocks : list LogseqBlock)
    (graph : LogseqGraph) (currentIndent : nat) : list Repr :=
  concat (convertBlock graph currentIndent <$> logseqBlocks).

Section WithHost.

Variable respond : list event → call → outcome value.

(** The body of the [try] for one page. *)
Definition importPage (graph : LogseqGraph) (page : LogseqPage) : M unit :=
  let pageProperties :=
    match mapGet (JS.lit "alias") (page_properties page) with
    | Some alias =>
        if JS.truthy alias then AssetImporter.propertySpecs (page_properties page)
        else []
    | None => []
    end in
  pageBlockId ← invoke respond
    (InsertBlock RefNull None [textFragment (page_name page)]
       {| spec_type := JS.lit "heading"; spec_level := Some 1;
          spec_properties := Some pageProperties |});
  if negb (truthy pageBlockId) then
    throw (Error (JS.lit "Failed to create page block for " ++ JS.quote
                  ++ page_name page ++ JS.quote))
  else
    pageBlock ← invoke respond (GetBlock pageBlockId);
    if negb (truthy pageBlock) then
      throw (Error (JS.lit "Could not retrieve created page block for " ++ JS.quote
                    ++ page_name page ++ JS.quote))
    else if 0 <? length (page_blocks page) then
      let blockReprs := convertLogseqBlocksToReprs (page_blocks page) graph 0 in
      if 0 <? length blockReprs then
        invoke respond (BatchInsertReprs pageBlock (JS.lit "lastChild") blockReprs) ;;
        mret tt
      else mret tt
    else mret tt.

(** [importPageBatch(pagesToImport, graph)] *)
Definition importPageBatch (pagesToImport : list LogseqPage) (graph : LogseqGraph)
    : M unit :=
  invokeGroup
    (forEach pagesToImport (λ page,
       sleep 50 ;;
       tryCatch (importPage graph page) (AssetImporter.pageFailed page))).

End WithHost.

End RegexImporter.

(** ** ImporterUI.tsx: the walk over the picked folder

    A directory handle is modelled by what its [values()] yields, in the
    order it yields it. A file whose [getFile()] or [text()] rejects has no
    text; [getFilesInDirectory] has no handler, so the rejection comes out
    of it and the files gathered so far are lost. *)

Module FolderPicker.

Inductive Entry : Type :=
| FileEntry (name : list N) (text : option (list N))
| DirectoryEntry (name : list N) (entries : list Entry).

(** [currentPath ? `${currentPath}/${entry.name}` : entry.name] *)
Definition newPath (currentPath name : list N) : list N :=
  if JS.truthy currentPath then currentPath ++ JS.lit "/" ++ name else name.

(** One iteration of [for await (const entry of currentHandle.values())],
    on the array [files] gathered so far. *)
Fixpoint visit (entry : Entry) (currentPath : list N) (files : list LogseqFile)
    : option (list LogseqFile) :=
  match entry with
  | FileEntry name text =>
      if JS.endsWith (JS.lit ".md") name then
        content ← text;
        Some (files ++ [{| file_path := newPath currentPath name;
                           file_content := content |}])
      else Some files
  | DirectoryEntry name entries =>
      (fix recurse (es : list Entry) (files : list LogseqFile)
           : option (list LogseqFile) :=
         match es with
         | [] => Some files
         | e :: es' =>
             files' ← visit e (newPath currentPath name) files;
             recurse es' files'
         end) entries files
  end.

Fixpoint recurse (currentHandle : list Entry) (currentPath : list N)
    (files : list LogseqFile) : option (list LogseqFile) :=
  match currentHandle with
  | [] => Some files
  | entry :: entries =>
      files' ← visit entry currentPath files;
      recurse entries currentPath files'
  end.

Definition getFilesInDirectory (directoryHandle : list Entry)
    : option (list LogseqFile) :=
  recurse directoryHandle [] [].

End FolderPicker.

(** * Properties *)

(** ** The block hierarchy built by the parser

    The hierarchy only depends on the levels of the block lines. [Hier.add]
    is what one block line does to the levels, the children lists, the
    top-level list and the stack; [Parser.step] is shown to act like it, and
    the invariant of the stack discipline is proved on [Hier.add]. *)

Module Hier.

(** The part of the parser state that decides the hierarchy: the level and
    the children of every block allocated so far, the top-level blocks and
    the stack of open blocks (top first). *)
Record T := { levels : list Q; kids : list (list nat); roots : list nat; stack : list nat }.

Definition empty : T := {| levels := []; kids := []; roots := []; stack := [] |}.

Fixpoint popWhile (lv : list Q) (level : Q) (st : list nat) : list nat :=
  match st with
  | [] => []
  | top :: st' =>
      match lv !! top with
      | Some l => if Qle_bool level l then popWhile lv level st' else st
      | None => st
      end
  end.

Definition add (x : T) (level : Q) : T :=
  let n := length (levels x) in
  let st := popWhile (levels x) level (stack x) in
  match st with
  | parent :: _ =>
      {| levels := levels x ++ [level];
         kids := alter (λ c, c ++ [n]) parent (kids x ++ [[]]);
         roots := roots x; stack := n :: st |}
  | [] =>
      {| levels := levels x ++ [level]; kids := kids x ++ [[]];
         roots := roots x ++ [n]; stack := n :: st |}
  end.

Definition Lower (lv : list Q) (j i : nat) : Prop :=
  ∃ lj li, lv !! j = Some lj ∧ lv !! i = Some li ∧ (lj < li)%Q.
Definition Nearest (lv : list Q) (j i : nat) : Prop :=
  j < i ∧ Lower lv j i ∧ ∀ j', j < j' < i → ¬ Lower lv j' i.
Definition NoLower (lv : list Q) (i : nat) : Prop :=
  ∀ j, j < i → ¬ Lower lv j i.
Definition IsParent (kd : list (list nat)) (j i : nat) : Prop :=
  ∃ c, kd !! j = Some c ∧ i ∈ c.

Record Inv (x : T) : Prop := {
  inv_len : length (kids x) = length (levels x);
  inv_stack_lt : Forall (λ s, s < length (levels x)) (stack x);
  inv_stack_sorted : ∀ a s1 s2, stack x = s1 ++ a :: s2 → Forall (λ b, b < a) s2;
  inv_dom : ∀ j, j < length (levels x) → j ∉ stack x →
      ∃ s ls lj, s ∈ stack x ∧ j < s ∧ levels x !! s = Some ls ∧
                 levels x !! j = Some lj ∧ (ls <= lj)%Q;
  inv_kids_lt : ∀ j c i, kids x !! j = Some c → i ∈ c → i < length (levels x);
  inv_roots_lt : ∀ i, i ∈ roots x → i < length (levels x);
  inv_parent : ∀ i, i < length (levels x) →
      (∀ j, IsParent (kids x) j i ↔ Nearest (levels x) j i) ∧
      (i ∈ roots x ↔ NoLower (levels x) i) }.

Lemma popWhile_spec lv level st :
  Forall (λ s, s < length lv) st →
  ∃ popped, st = popped ++ popWhile lv level st ∧
    Forall (λ s, ∃ l, lv !! s = Some l ∧ (level <= l)%Q) popped ∧
    match popWhile lv level st with
    | [] => True
    | p :: _ => ∃ l, lv !! p = Some l ∧ (l < level)%Q
    end.
Proof.
  induction st as [|top st IH]; intros Hlt.
  - exists []. simpl. auto.
  - apply Forall_cons in Hlt as [Htop Hlt]. simpl.
    destruct (lookup_lt_is_Some_2 lv top Htop) as [l Hl]. rewrite Hl.
    destruct (Qle_bool level l) eqn:E.
    + destruct (IH Hlt) as (popped & Heq & Hp & Hhd).
      exists (top :: popped). split; [simpl; congruence|]. split; [|done].
      constructor; [|done]. exists l. split; [done|]. by apply Qle_bool_iff.
    + exists []. split; [done|]. split; [constructor|].
      exists l. split; [done|]. apply Qnot_le_lt. intros H.
      apply Qle_bool_iff in H. congruence.
Qed.


Lemma Lower_app lv L j i :
  j < length lv → i < length lv → Lower (lv ++ [L]) j i ↔ Lower lv j i.
Proof.
  intros Hj Hi. unfold Lower. by rewrite !lookup_app_l.
Qed.

Lemma Nearest_app lv L j i :
  i < length lv → Nearest (lv ++ [L]) j i ↔ Nearest lv j i.
Proof.
  intros Hi. unfold Nearest. split.
  - intros (Hji & Hlow & Hbetween). split; [done|]. split.
    + apply (Lower_app lv L); [lia|done|done].
    + intros j' Hj' Hl. apply (Hbetween j' Hj'). apply Lower_app; [lia|done|done].
  - intros (Hji & Hlow & Hbetween). split; [done|]. split.
    + apply Lower_app; [lia|done|done].
    + intros j' Hj' Hl. apply (Hbetween j' Hj'). apply (Lower_app lv L); [lia|done|done].
Qed.

Lemma NoLower_app lv L i :
  i < length lv → NoLower (lv ++ [L]) i ↔ NoLower lv i.
Proof.
  intros Hi. unfold NoLower. split; intros H j Hj Hl; apply (H j Hj).
  - apply Lower_app; [lia|done|done].
  - apply (Lower_app lv L); [lia|done|done].
Qed.

Lemma Nearest_unique lv j1 j2 i :
  Nearest lv j1 i → Nearest lv j2 i → j1 = j2.
Proof.
  intros (H1 & L1 & B1) (H2 & L2 & B2).
  destruct (Nat.lt_trichotomy j1 j2) as [Hlt|[->|Hlt]]; [|done|].
  - exfalso. apply (B1 j2); [lia|done].
  - exfalso. apply (B2 j1); [lia|done].
Qed.

(** Every block below the new one that is not left on the stack sits at a
    level at least the new one. *)
Lemma covered x level popped :
  Inv x →
  stack x = popped ++ popWhile (levels x) level (stack x) →
  Forall (λ s, ∃ l, levels x !! s = Some l ∧ (level <= l)%Q) popped →
  ∀ j, j < length (levels x) →
    (∀ s, s ∈ popWhile (levels x) level (stack x) → s < j) →
    ∃ lj, levels x !! j = Some lj ∧ (level <= lj)%Q.
Proof.
  intros HI Hst Hpop j Hj Hbelow.
  rewrite Forall_forall in Hpop.
  destruct (decide (j ∈ stack x)) as [Hin|Hnin].
  - rewrite Hst in Hin. apply elem_of_app in Hin as [Hin|Hin].
    + by apply Hpop.
    + apply Hbelow in Hin. lia.
  - destruct (inv_dom x HI j Hj Hnin) as (s & ls & lj & Hs & Hjs & Hls & Hlj & Hle).
    exists lj. split; [done|].
    rewrite Hst in Hs. apply elem_of_app in Hs as [Hs|Hs].
    + destruct (Hpop s Hs) as (l & Hl & Hle'). simplify_eq. lra.
    + apply Hbelow in Hs. lia.
Qed.

Lemma add_Inv x level : Inv x → Inv (add x level).
Proof.
  intros HI.
  destruct (popWhile_spec (levels x) level (stack x) (inv_stack_lt x HI))
    as (popped & Hst & Hpop & Hhd).
  pose proof (covered x level popped HI Hst Hpop) as Hcov.
  set (n := length (levels x)) in *.
  assert (Hst_lt : Forall (λ s, s < n) (popWhile (levels x) level (stack x))).
  { pose proof (inv_stack_lt x HI) as H. rewrite Hst in H.
    by apply Forall_app in H as [_ H]. }
  assert (Hsorted' : ∀ a s1 s2,
    n :: popWhile (levels x) level (stack x) = s1 ++ a :: s2 → Forall (λ b, b < a) s2).
  { intros a s1 s2 Heq. destruct s1 as [|s s1]; simpl in Heq; simplify_eq; [done|].
    apply (inv_stack_sorted x HI a (popped ++ s1) s2).
    rewrite Hst at 1. rewrite H0. by rewrite <- app_assoc. }
  assert (Hdom' : ∀ j, j < length (levels x ++ [level]) →
    j ∉ n :: popWhile (levels x) level (stack x) →
    ∃ s ls lj, s ∈ n :: popWhile (levels x) level (stack x) ∧ j < s ∧
      (levels x ++ [level]) !! s = Some ls ∧
      (levels x ++ [level]) !! j = Some lj ∧ (ls <= lj)%Q).
  { intros j Hj Hnin. rewrite length_app in Hj. simpl in Hj.
    apply not_elem_of_cons in Hnin as [Hjn Hnin].
    assert (Hjlt : j < n) by (unfold n in *; lia).
    destruct (decide (j ∈ stack x)) as [Hin|Hnin'].
    - rewrite Hst in Hin. apply elem_of_app in Hin as [Hin|Hin]; [|done].
      rewrite Forall_forall in Hpop. destruct (Hpop j Hin) as (l & Hl & Hle).
      exists n, level, l. split; [left|]. split; [done|].
      split; [by apply list_lookup_middle|]. split; [|done].
      by rewrite lookup_app_l.
    - destruct (inv_dom x HI j Hjlt Hnin') as (s & ls & lj & Hs & Hjs & Hls & Hlj & Hle).
      rewrite Hst in Hs. apply elem_of_app in Hs as [Hs|Hs].
      + rewrite Forall_forall in Hpop. destruct (Hpop s Hs) as (l & Hl & Hle').
        simplify_eq. exists n, level, lj. split; [left|]. split; [done|].
        split; [by apply list_lookup_middle|]. split; [|lra].
        by rewrite lookup_app_l.
      + exists s, ls, lj. split; [by right|]. split; [done|].
        apply lookup_lt_Some in Hls as Hs'.
        rewrite !lookup_app_l by done. done. }
  assert (Hfresh : ∀ j, ¬ IsParent (kids x) j n).
  { intros j (c & Hc & Hin). pose proof (inv_kids_lt x HI j c n Hc Hin). unfold n in *. lia. }
  assert (Hold : ∀ i, i < n →
    (∀ j, IsParent (kids x) j i ↔ Nearest (levels x ++ [level]) j i) ∧
    (i ∈ roots x ↔ NoLower (levels x ++ [level]) i)).
  { intros i Hi. destruct (inv_parent x HI i Hi) as [Hp Hr]. split.
    - intros j. rewrite Nearest_app by done. apply Hp.
    - rewrite NoLower_app by done. apply Hr. }
  unfold add. fold n.
  destruct (popWhile (levels x) level (stack x)) as [|p st'] eqn:Epop.
  - (* the stack is emptied: the new block is a root *)
    assert (Hno : NoLower (levels x ++ [level]) n).
    { intros j Hj (lj & li & Hlj & Hli & Hlt).
      rewrite list_lookup_middle in Hli by done. simplify_eq.
      rewrite lookup_app_l in Hlj by done.
      destruct (Hcov j Hj) as (lj' & Hlj' & Hle); [intros s Hs; by apply elem_of_nil in Hs|].
      simplify_eq. lra. }
    constructor; simpl.
    + rewrite !length_app. simpl. by rewrite (inv_len x HI).
    + rewrite length_app. simpl. constructor; [unfold n; lia|constructor].
    + done.
    + done.
    + intros j c i Hc Hin. rewrite length_app. simpl.
      destruct (decide (j < length (kids x))).
      * rewrite lookup_app_l in Hc by done.
        pose proof (inv_kids_lt x HI j c i Hc Hin). lia.
      * apply lookup_lt_Some in Hc as Hlt. rewrite length_app in Hlt. simpl in Hlt.
        assert (j = length (kids x)) as -> by lia.
        rewrite list_lookup_middle in Hc by done. simplify_eq.
        by apply elem_of_nil in Hin.
    + intros i Hin. rewrite length_app. simpl.
      apply elem_of_app in Hin as [Hin|Hin].
      * pose proof (inv_roots_lt x HI i Hin). lia.
      * apply list_elem_of_singleton in Hin. subst. unfold n. lia.
    + intros i Hi. rewrite length_app in Hi. simpl in Hi.
      assert (IsP : ∀ j i', IsParent (kids x ++ [[]]) j i' ↔ IsParent (kids x) j i').
      { intros j i'. unfold IsParent. split; intros (c & Hc & Hin).
        - destruct (decide (j < length (kids x))).
          + rewrite lookup_app_l in Hc by done. eauto.
          + apply lookup_lt_Some in Hc as Hlt. rewrite length_app in Hlt. simpl in Hlt.
            assert (j = length (kids x)) as -> by lia.
            rewrite list_lookup_middle in Hc by done. simplify_eq.
            by apply elem_of_nil in Hin.
        - exists c. split; [|done]. apply lookup_app_l_Some. done. }
      destruct (decide (i = n)) as [->|Hne].
      * split.
        -- intros j. rewrite IsP. split; [intros H; by apply Hfresh in H|].
           intros (Hjn & Hlow & _). by apply Hno in Hlow.
        -- split; [done|]. intros _. apply elem_of_app. right. by apply list_elem_of_singleton.
      * assert (Hi' : i < n) by (unfold n in *; lia).
        destruct (Hold i Hi') as [Hp Hr]. split.
        -- intros j. rewrite IsP. apply Hp.
        -- rewrite <- Hr. rewrite elem_of_app, list_elem_of_singleton. tauto.
  - (* the stack top [p] becomes the parent *)
    destruct Hhd as (lp & Hlp & Hlplt).
    apply Forall_cons in Hst_lt as [Hp_lt Hst_lt].
    assert (Hnear : Nearest (levels x ++ [level]) p n).
    { split; [done|]. split.
      - exists lp, level. split; [by rewrite lookup_app_l|].
        split; [by apply list_lookup_middle|done].
      - intros j' [Hpj Hjn] (lj & li & Hlj & Hli & Hlt).
        rewrite list_lookup_middle in Hli by done. simplify_eq.
        rewrite lookup_app_l in Hlj by done.
        destruct (Hcov j' Hjn) as (lj' & Hlj' & Hle).
        + intros s Hs. apply elem_of_cons in Hs as [->|Hs]; [done|].
          pose proof (inv_stack_sorted x HI p popped st' Hst) as Hsm.
          rewrite Forall_forall in Hsm. apply Hsm in Hs. lia.
        + simplify_eq. lra. }
    assert (Hklen : p < length (kids x ++ [[]])).
    { rewrite length_app. simpl. rewrite (inv_len x HI). fold n. lia. }
    constructor; simpl.
    + rewrite length_alter, !length_app. simpl. by rewrite (inv_len x HI).
    + rewrite length_app. simpl. constructor; [unfold n; lia|].
      constructor; [unfold n in *; lia|].
      eapply Forall_impl; [exact Hst_lt|]. simpl. intros. unfold n in *. lia.
    + done.
    + done.
    + intros j c i Hc Hin. rewrite length_app. simpl.
      destruct (decide (j = p)) as [->|Hne].
      * rewrite list_lookup_alter_eq in Hc.
        destruct ((kids x ++ [[]]) !! p) as [c0|] eqn:Ec0; simpl in Hc; simplify_eq.
        rewrite lookup_app_l in Ec0 by (rewrite (inv_len x HI); done).
        apply elem_of_app in Hin as [Hin|Hin].
        -- pose proof (inv_kids_lt x HI p c0 i Ec0 Hin). lia.
        -- apply list_elem_of_singleton in Hin. subst. unfold n. lia.
      * rewrite list_lookup_alter_ne in Hc by done.
        destruct (decide (j < length (kids x))).
        -- rewrite lookup_app_l in Hc by done.
           pose proof (inv_kids_lt x HI j c i Hc Hin). lia.
        -- apply lookup_lt_Some in Hc as Hlt. rewrite length_app in Hlt. simpl in Hlt.
           assert (j = length (kids x)) as -> by lia.
           rewrite list_lookup_middle in Hc by done. simplify_eq.
           by apply elem_of_nil in Hin.
    + intros i Hin. rewrite length_app. simpl.
      pose proof (inv_roots_lt x HI i Hin). lia.
    + intros i Hi. rewrite length_app in Hi. simpl in Hi.
      assert (IsP : ∀ j i',
        IsParent (alter (λ c, c ++ [n]) p (kids x ++ [[]])) j i' ↔
        IsParent (kids x) j i' ∨ (j = p ∧ i' = n)).
      { intros j i'. unfold IsParent. split.
        - intros (c & Hc & Hin).
          destruct (decide (j = p)) as [->|Hne].
          + rewrite list_lookup_alter_eq in Hc.
            destruct ((kids x ++ [[]]) !! p) as [c0|] eqn:Ec0; simpl in Hc; simplify_eq.
            rewrite lookup_app_l in Ec0 by (rewrite (inv_len x HI); done).
            apply elem_of_app in Hin as [Hin|Hin]; [left; eauto|].
            apply list_elem_of_singleton in Hin. by right.
          + rewrite list_lookup_alter_ne in Hc by done. left.
            destruct (decide (j < length (kids x))).
            * rewrite lookup_app_l in Hc by done. eauto.
            * apply lookup_lt_Some in Hc as Hlt. rewrite length_app in Hlt. simpl in Hlt.
              assert (j = length (kids x)) as -> by lia.
              rewrite list_lookup_middle in Hc by done. simplify_eq.
              by apply elem_of_nil in Hin.
        - intros [(c & Hc & Hin)|[-> ->]].
          + destruct (decide (j = p)) as [->|Hne].
            * exists (c ++ [n]). rewrite list_lookup_alter_eq.
              rewrite (lookup_app_l_Some _ _ _ _ Hc). simpl. split; [done|].
              apply elem_of_app. by left.
            * exists c. rewrite list_lookup_alter_ne by done.
              split; [by apply lookup_app_l_Some|done].
          + destruct (lookup_lt_is_Some_2 (kids x ++ [[]]) p Hklen) as [c0 Hc0].
            exists (c0 ++ [n]). rewrite list_lookup_alter_eq, Hc0. simpl.
            split; [done|]. apply elem_of_app. right. by apply list_elem_of_singleton. }
      destruct (decide (i = n)) as [->|Hne].
      * split.
        -- intros j. rewrite IsP. split.
           ++ intros [H|[-> _]]; [by apply Hfresh in H|done].
           ++ intros Hj. right. split; [|done]. by apply (Nearest_unique _ _ _ _ Hj Hnear).
        -- split.
           ++ intros Hin. pose proof (inv_roots_lt x HI n Hin). unfold n in *. lia.
           ++ intros Hno. exfalso. destruct Hnear as (Hpn & Hlow & _). by apply (Hno p).
      * assert (Hi' : i < n) by (unfold n in *; lia).
        destruct (Hold i Hi') as [Hp Hr]. split; [|done].
        intros j. rewrite IsP, <- Hp. tauto.
Qed.
End Hier.

(** The lines that open a block, and what the block gets from its line. *)
Definition isBlockLine (line : list N) : bool :=
  JS.startsWith (JS.lit "- ") (JS.trim line).

Definition blockLevel (line : list N) : option Q :=
  if isBlockLine line then Some (Z.of_nat (Parser.indentationOf line) # 2)%Q
  else None.

Definition blockContent (line : list N) : option (list N) :=
  if isBlockLine line then Some (JS.substringFrom (JS.trim line) 2) else None.

Definition hierOf (st : Parser.State) : Hier.T :=
  {| Hier.levels := o_level <$> Parser.heap st;
     Hier.kids := o_children <$> Parser.heap st;
     Hier.roots := Parser.blocks st;
     Hier.stack := Parser.blockStack st |}.

Lemma fmap_alter_comm {A B} (f : A → B) (g : A → A) (h : B → B) (l : list A) i :
  (∀ x, f (g x) = h (f x)) → f <$> alter g i l = alter h i (f <$> l).
Proof. intros H. apply list_fmap_alter, Forall_forall. auto. Qed.

Lemma fmap_alter_same {A B} (f : A → B) (g : A → A) (l : list A) i :
  (∀ x, f (g x) = f x) → f <$> alter g i l = f <$> l.
Proof.
  intros H. rewrite (fmap_alter_comm f g id) by done. by apply list_alter_id.
Qed.

Lemma startsWith_truthy p c s : JS.startsWith (p :: c) s = true → JS.truthy s = true.
Proof. destruct s; [done|]. done. Qed.

Lemma isBlockLine_truthy line : isBlockLine line = true → JS.truthy (JS.trim line) = true.
Proof. apply startsWith_truthy. Qed.

Lemma popWhile_hier h level stack :
  Parser.popWhile h level stack = Hier.popWhile (o_level <$> h) level stack.
Proof.
  induction stack as [|top stack IH]; [done|]. simpl.
  unfold Parser.levelOf. rewrite list_lookup_fmap.
  destruct (h !! top); simpl; [|done]. by rewrite IH.
Qed.

(** What a block line does to the state. *)
Definition openBlock (st : Parser.State) (line : list N) : Parser.State :=
  let level := (Z.of_nat (Parser.indentationOf line) # 2)%Q in
  let newBlock :=
    {| o_id := None; o_content := JS.substringFrom (JS.trim line) 2;
       o_properties := []; o_children := []; o_level := level |} in
  let ref := length (Parser.heap st) in
  let stack := Parser.popWhile (Parser.heap st) level (Parser.blockStack st) in
  {| Parser.properties := Parser.properties st;
     Parser.blocks :=
       match stack with [] => Parser.blocks st ++ [ref] | _ :: _ => Parser.blocks st end;
     Parser.heap :=
       match stack with
       | [] => Parser.heap st ++ [newBlock]
       | parent :: _ => alter (Parser.pushChild ref) parent (Parser.heap st ++ [newBlock])
       end;
     Parser.currentBlock := Some ref;
     Parser.blockStack := ref :: stack;
     Parser.isFirstBlock := false |}.

Lemma step_block st line :
  isBlockLine line = true → Parser.step st line = openBlock st line.
Proof.
  intros Hb. unfold Parser.step, openBlock.
  rewrite (isBlockLine_truthy _ Hb).
  unfold isBlockLine in Hb. rewrite Hb. cbn [negb andb]. rewrite andb_false_r.
  by destruct (Parser.popWhile _ _ _).
Qed.

(** A line that opens no block leaves levels, children, top-level list and
    stack alone, and does not allocate. *)
Lemma step_other st line :
  isBlockLine line = false →
  hierOf (Parser.step st line) = hierOf st ∧
  o_content <$> Parser.heap (Parser.step st line) = o_content <$> Parser.heap st ∧
  Parser.isFirstBlock (Parser.step st line) = Parser.isFirstBlock st ∧
  Parser.currentBlock (Parser.step st line) = Parser.currentBlock st.
Proof.
  intros Hb. unfold Parser.step. unfold isBlockLine in Hb. rewrite Hb.
  destruct (JS.truthy (JS.trim line)); simpl; [|done].
  rewrite andb_true_r.
  destruct (Parser.isFirstBlock st) eqn:Hfirst; simpl.
  { destruct (Re.exec Parser.PROPERTY_REGEX _); done. }
  destruct (Parser.currentBlock st) as [cb|] eqn:Hcb; [|done].
  destruct (Re.exec Parser.ID_REGEX _).
  { unfold hierOf; simpl. by rewrite !fmap_alter_same. }
  destruct (Re.exec Parser.PROPERTY_REGEX _); [|done].
  unfold hierOf; simpl. by rewrite !fmap_alter_same.
Qed.

Lemma hierOf_openBlock st line level :
  blockLevel line = Some level →
  hierOf (openBlock st line) = Hier.add (hierOf st) level.
Proof.
  unfold blockLevel. destruct (isBlockLine line); [|done]. intros [= <-].
  unfold openBlock, Hier.add, hierOf. simpl.
  rewrite popWhile_hier, length_fmap.
  destruct (Hier.popWhile _ _ _) as [|p stack]; simpl.
  - by rewrite !fmap_app.
  - f_equal.
    + by rewrite fmap_alter_same, fmap_app.
    + rewrite (fmap_alter_comm _ _ (λ c, c ++ [length (Parser.heap st)])) by done.
      by rewrite fmap_app.
Qed.

Lemma hierOf_step st line :
  hierOf (Parser.step st line) =
  match blockLevel line with
  | Some level => Hier.add (hierOf st) level
  | None => hierOf st
  end.
Proof.
  unfold blockLevel. destruct (isBlockLine line) eqn:Hb.
  - rewrite step_block by done. apply hierOf_openBlock.
    unfold blockLevel. by rewrite Hb.
  - by apply step_other.
Qed.

Lemma hierOf_run lines st :
  hierOf (fold_left Parser.step lines st) =
  fold_left Hier.add (omap blockLevel lines) (hierOf st).
Proof.
  revert st. induction lines as [|line lines IH]; intros st; [done|].
  simpl. rewrite IH, hierOf_step.
  by destruct (blockLevel line).
Qed.

Lemma Inv_empty : Hier.Inv Hier.empty.
Proof.
  constructor; simpl; try done.
  - intros a s1 s2 H. by destruct s1.
  - intros j Hj. lia.
  - intros i Hi. by apply elem_of_nil in Hi.
  - intros i Hi. lia.
Qed.

Lemma Inv_fold ls x : Hier.Inv x → Hier.Inv (fold_left Hier.add ls x).
Proof.
  revert x. induction ls as [|l ls IH]; intros x HI; [done|].
  simpl. apply IH. by apply Hier.add_Inv.
Qed.

Lemma levels_fold ls x :
  Hier.levels (fold_left Hier.add ls x) = Hier.levels x ++ ls.
Proof.
  revert x. induction ls as [|l ls IH]; intros x; simpl.
  - by rewrite app_nil_r.
  - rewrite IH. unfold Hier.add.
    destruct (Hier.popWhile _ _ _); simpl; by rewrite <- app_assoc.
Qed.

Lemma contents_run lines st :
  o_content <$> Parser.heap (fold_left Parser.step lines st) =
  (o_content <$> Parser.heap st) ++ omap blockContent lines.
Proof.
  revert st. induction lines as [|line lines IH]; intros st; simpl.
  - by rewrite app_nil_r.
  - rewrite IH. unfold blockContent. destruct (isBlockLine line) eqn:Hb.
    + rewrite step_block by done. unfold openBlock. simpl.
      destruct (Parser.popWhile _ _ _); simpl.
      * by rewrite fmap_app, <- app_assoc.
      * by rewrite fmap_alter_same, fmap_app, <- app_assoc.
    + by destruct (step_other st line Hb) as (_ & -> & _).
Qed.

(** [j] is the parent of [i]: the object [i] is in [j.children]. *)
Definition ChildOf (p : ParsedFile) (j i : nat) : Prop :=
  ∃ o, pf_heap p !! j = Some o ∧ i ∈ o_children o.

Definition levelsOf (p : ParsedFile) : list Q := o_level <$> pf_heap p.

Lemma Lower_equal_level lv i j l l' :
  lv !! i = Some l → lv !! S i = Some l' → (l == l')%Q →
  Hier.Lower lv j (S i) ↔ Hier.Lower lv j i.
Proof.
  intros Hi HSi Heq. unfold Hier.Lower. split.
  - intros (lj & li & Hlj & Hli & Hlt). simplify_eq.
    exists lj, l. split; [done|]. split; [done|]. lra.
  - intros (lj & li & Hlj & Hli & Hlt). simplify_eq.
    exists lj, l'. split; [done|]. split; [done|]. lra.
Qed.

Lemma not_Lower_equal_level lv i l l' :
  lv !! i = Some l → lv !! S i = Some l' → (l == l')%Q → ¬ Hier.Lower lv i (S i).
Proof.
  intros Hi HSi Heq (lj & li & Hlj & Hli & Hlt). simplify_eq. lra.
Qed.

Lemma Nearest_equal_level lv i j l l' :
  lv !! i = Some l → lv !! S i = Some l' → (l == l')%Q →
  Hier.Nearest lv j (S i) ↔ Hier.Nearest lv j i.
Proof.
  intros Hi HSi Heq.
  pose proof (Lower_equal_level lv i) as HL.
  pose proof (not_Lower_equal_level lv i l l' Hi HSi Heq) as HnL.
  unfold Hier.Nearest. split.
  - intros (Hlt & Hlow & Hbetween).
    assert (j ≠ i) by (intros ->; done).
    split; [lia|]. split; [by apply (HL _ _ _ Hi HSi Heq)|].
    intros j' Hj' Hl. apply (Hbetween j'); [lia|]. by apply (HL _ _ _ Hi HSi Heq).
  - intros (Hlt & Hlow & Hbetween).
    split; [lia|]. split; [by apply (HL _ _ _ Hi HSi Heq)|].
    intros j' Hj' Hl. destruct (decide (j' = i)) as [->|Hne]; [done|].
    apply (Hbetween j'); [lia|]. by apply (HL _ _ _ Hi HSi Heq).
Qed.

(** C1. For every input file the blocks of the returned page are the block
    lines of the file in document order, each with the level of its line, and
    the parent of the block at position [i] is exactly the nearest preceding
    block whose level is strictly less than its own; it is a top-level block
    exactly when no preceding block has a strictly smaller level. In
    particular a parent is always strictly lower than its child, and a block
    line at the level of the block just before it becomes that block's
    sibling (same parent, or both top-level), never its child. *)
Theorem parseLogseqFile_hierarchy (file : LogseqFile) :
  let p := parseLogseqFile file in
  let lines := JS.split 10 (file_content file) in
  o_content <$> pf_heap p = omap blockContent lines ∧
  levelsOf p = omap blockLevel lines ∧
  (∀ i, i < length (pf_heap p) →
     (∀ j, ChildOf p j i ↔ Hier.Nearest (levelsOf p) j i) ∧
     (i ∈ pf_blocks p ↔ Hier.NoLower (levelsOf p) i)) ∧
  (∀ j i, ChildOf p j i → j < i ∧ Hier.Lower (levelsOf p) j i) ∧
  (∀ i l l', levelsOf p !! i = Some l → levelsOf p !! S i = Some l' → (l == l')%Q →
     ¬ ChildOf p i (S i) ∧
     (∀ j, ChildOf p j (S i) ↔ ChildOf p j i) ∧
     (S i ∈ pf_blocks p ↔ i ∈ pf_blocks p)).
Proof.
  intros p lines.
  pose proof (hierOf_run lines Parser.init) as Hrun.
  assert (HI : Hier.Inv (hierOf (Parser.run (file_content file)))).
  { unfold Parser.run. fold lines. rewrite Hrun. apply Inv_fold, Inv_empty. }
  assert (Hlv : levelsOf p = omap blockLevel lines).
  { change (levelsOf p) with (Hier.levels (hierOf (Parser.run (file_content file)))).
    unfold Parser.run. fold lines. rewrite Hrun. by rewrite levels_fold. }
  assert (Hpar : ∀ i, i < length (pf_heap p) →
     (∀ j, ChildOf p j i ↔ Hier.Nearest (levelsOf p) j i) ∧
     (i ∈ pf_blocks p ↔ Hier.NoLower (levelsOf p) i)).
  { intros i Hi.
    destruct (Hier.inv_parent _ HI i) as [Hp Hr].
    { simpl. by rewrite length_fmap. }
    change (Hier.levels (hierOf (Parser.run (file_content file))))
      with (levelsOf p) in Hp, Hr.
    split; [|exact Hr].
    intros j. rewrite <- Hp. unfold ChildOf, Hier.IsParent.
    change (Hier.kids (hierOf (Parser.run (file_content file))))
      with (o_children <$> pf_heap p).
    split.
    - intros (o & Ho & Hin). exists (o_children o).
      by rewrite list_lookup_fmap, Ho.
    - intros (c & Hc & Hin). rewrite list_lookup_fmap in Hc.
      destruct (pf_heap p !! j) as [o|] eqn:Ho; simplify_eq/=. eauto. }
  assert (Hchild : ∀ j i, ChildOf p j i → i < length (pf_heap p)).
  { intros j i (o & Ho & Hin).
    pose proof (Hier.inv_kids_lt _ HI j (o_children o) i) as H.
    change (Hier.kids (hierOf (Parser.run (file_content file))))
      with (o_children <$> pf_heap p) in H.
    change (Hier.levels (hierOf (Parser.run (file_content file))))
      with (o_level <$> pf_heap p) in H.
    rewrite length_fmap in H. apply H; [|done].
    by rewrite list_lookup_fmap, Ho. }
  split; [|split; [done|split; [done|split]]].
  - unfold p, parseLogseqFile, Parser.run. simpl. fold lines.
    by rewrite contents_run.
  - intros j i Hc. pose proof (Hchild j i Hc) as Hi.
    apply (Hpar i Hi) in Hc as (? & ? & _). done.
  - intros i l l' Hl Hl' Heq.
    assert (HSi : S i < length (pf_heap p)).
    { apply lookup_lt_Some in Hl'. unfold levelsOf in Hl'. by rewrite length_fmap in Hl'. }
    assert (Hi : i < length (pf_heap p)) by lia.
    destruct (Hpar i Hi) as [Hp Hr]. destruct (Hpar (S i) HSi) as [HpS HrS].
    split; [|split].
    + rewrite HpS. intros (_ & Hlow & _).
      exact (not_Lower_equal_level _ _ _ _ Hl Hl' Heq Hlow).
    + intros j. rewrite HpS, Hp. exact (Nearest_equal_level _ _ _ _ _ Hl Hl' Heq).
    + rewrite HrS, Hr. unfold Hier.NoLower. split.
      * intros H j Hj Hlow. apply (H j); [lia|].
        by apply (Lower_equal_level _ _ _ _ _ Hl Hl' Heq).
      * intros H j Hj Hlow. destruct (decide (j = i)) as [->|Hne].
        -- exact (not_Lower_equal_level _ _ _ _ Hl Hl' Heq Hlow).
        -- apply (H j); [lia|].
           by apply (Lower_equal_level _ _ _ _ _ Hl Hl' Heq).
Qed.

(** ** Which [id::] line gives a block its id *)

(** The value an [id::] continuation line carries. *)
Definition idOfLine (line : list N) : option (list N) :=
  Parser.grp 1 <$> Re.exec Parser.ID_REGEX (JS.trim line).

(** The lines that follow a block line, up to the next block line. *)
Fixpoint continuation (lines : list (list N)) : list (list N) :=
  match lines with
  | [] => []
  | l :: ls => if isBlockLine l then [] else l :: continuation ls
  end.

(** The continuation lines of every block, in document order. *)
Fixpoint segments (lines : list (list N)) : list (list (list N)) :=
  match lines with
  | [] => []
  | l :: ls => if isBlockLine l then continuation ls :: segments ls else segments ls
  end.

Definition idValues (seg : list (list N)) : list (list N) := omap idOfLine seg.

Definition lastOr {A} (d : option A) (vs : list A) : option A :=
  match last vs with Some v => Some v | None => d end.

Lemma lastOr_cons {A} (d : option A) v vs : lastOr d (v :: vs) = lastOr (Some v) vs.
Proof.
  unfold lastOr. destruct vs as [|a vs]; [done|].
  change (last (v :: a :: vs)) with (last (a :: vs)).
  destruct (last (a :: vs)) eqn:E; [done|]. by apply last_None in E.
Qed.

Lemma lastOr_None {A} (vs : list A) : lastOr None vs = last vs.
Proof. unfold lastOr. by destruct (last vs). Qed.

Lemma idOfLine_blank line : JS.truthy (JS.trim line) = false → idOfLine line = None.
Proof. unfold idOfLine. destruct (JS.trim line); [done|discriminate]. Qed.

Lemma fmap_alter_setId v (n : nat) (h : list BlockObj) :
  o_id <$> alter (Parser.setId v) n h = <[n := Some v]> (o_id <$> h).
Proof.
  revert n. induction h as [|o h IH]; intros [|n]; simpl; try done.
  f_equal. apply IH.
Qed.

(** A continuation line of the current block [n]: an [id::] line overwrites
    the id of [n], any other line leaves all ids alone. *)
Lemma step_continuation st line n :
  isBlockLine line = false →
  Parser.isFirstBlock st = false →
  Parser.currentBlock st = Some n →
  Parser.isFirstBlock (Parser.step st line) = false ∧
  Parser.currentBlock (Parser.step st line) = Some n ∧
  length (Parser.heap (Parser.step st line)) = length (Parser.heap st) ∧
  o_id <$> Parser.heap (Parser.step st line) =
    match idOfLine line with
    | Some v => <[n := Some v]> (o_id <$> Parser.heap st)
    | None => o_id <$> Parser.heap st
    end.
Proof.
  intros Hb Hfirst Hcb.
  destruct (step_other st line Hb) as (_ & _ & Hf & Hc).
  rewrite Hf, Hc. split; [done|]. split; [done|].
  destruct (JS.truthy (JS.trim line)) eqn:Htr.
  2:{ rewrite idOfLine_blank by done. unfold Parser.step. by rewrite Htr. }
  unfold Parser.step, idOfLine. rewrite Htr, Hfirst, Hcb.
  unfold isBlockLine in Hb. rewrite Hb. cbn [negb andb].
  destruct (Re.exec Parser.ID_REGEX _) as [m|]; simpl.
  - by rewrite length_alter, fmap_alter_setId.
  - destruct (Re.exec Parser.PROPERTY_REGEX _); [|done]. simpl.
    by rewrite length_alter, fmap_alter_same.
Qed.

Lemma openBlock_ids st line :
  Parser.isFirstBlock (openBlock st line) = false ∧
  Parser.currentBlock (openBlock st line) = Some (length (Parser.heap st)) ∧
  length (Parser.heap (openBlock st line)) = S (length (Parser.heap st)) ∧
  o_id <$> Parser.heap (openBlock st line) = (o_id <$> Parser.heap st) ++ [None].
Proof.
  unfold openBlock. simpl. split; [done|]. split; [done|].
  destruct (Parser.popWhile _ _ _); simpl.
  - rewrite length_app, fmap_app. simpl. split; [lia|done].
  - rewrite length_alter, length_app, fmap_alter_same, fmap_app by done.
    simpl. split; [lia|done].
Qed.

Lemma ids_after_block lines : ∀ st n,
  Parser.isFirstBlock st = false →
  Parser.currentBlock st = Some n →
  length (Parser.heap st) = S n →
  o_id <$> Parser.heap (fold_left Parser.step lines st) =
    take n (o_id <$> Parser.heap st)
    ++ lastOr (default None ((o_id <$> Parser.heap st) !! n))
              (idValues (continuation lines))
       :: ((λ seg, last (idValues seg)) <$> segments lines).
Proof.
  induction lines as [|line lines IH]; intros st n Hfirst Hcb Hlen.
  - simpl. unfold lastOr. simpl.
    assert (Hn : n < length (o_id <$> Parser.heap st)) by (rewrite length_fmap; lia).
    destruct (lookup_lt_is_Some_2 _ _ Hn) as [x Hx]. rewrite Hx. simpl.
    rewrite <- (take_drop_middle _ _ _ Hx) at 1.
    f_equal. f_equal. apply drop_ge. rewrite length_fmap. lia.
  - simpl. destruct (isBlockLine line) eqn:Hb.
    + rewrite step_block by done.
      destruct (openBlock_ids st line) as (Hf' & Hc' & Hl' & Hids).
      rewrite (IH _ _ Hf' Hc' Hl'). rewrite Hids.
      assert (Hlen' : length (o_id <$> Parser.heap st) = S n) by (by rewrite length_fmap).
      rewrite Hlen.
      rewrite take_app_length' by done.
      rewrite list_lookup_middle by done. simpl. rewrite lastOr_None.
      assert (Hn : n < length (o_id <$> Parser.heap st)) by lia.
      destruct (lookup_lt_is_Some_2 _ _ Hn) as [x Hx]. rewrite Hx. simpl.
      rewrite <- (take_drop_middle _ _ _ Hx) at 1.
      rewrite drop_ge by lia. unfold lastOr. simpl.
      rewrite <- app_assoc. done.
    + destruct (step_continuation st line n Hb Hfirst Hcb) as (Hf' & Hc' & Hl' & Hids).
      rewrite (IH _ _ Hf' Hc') by congruence. rewrite Hids.
      unfold idValues at 2. simpl. fold (idValues (continuation lines)).
      assert (Hn : n < length (o_id <$> Parser.heap st)) by (rewrite length_fmap; lia).
      destruct (idOfLine line) as [v|]; [|done].
      rewrite lastOr_cons, take_insert_ge by lia.
      by rewrite list_lookup_insert_eq by done.
Qed.

Lemma ids_before_block lines : ∀ st,
  Parser.isFirstBlock st = true →
  Parser.heap st = [] →
  o_id <$> Parser.heap (fold_left Parser.step lines st) =
    (λ seg, last (idValues seg)) <$> segments lines.
Proof.
  induction lines as [|line lines IH]; intros st Hfirst Hheap.
  - simpl. by rewrite Hheap.
  - simpl. destruct (isBlockLine line) eqn:Hb.
    + rewrite step_block by done.
      destruct (openBlock_ids st line) as (Hf' & Hc' & Hl' & Hids).
      rewrite Hheap in Hc', Hl', Hids. cbn [length fmap list_fmap app] in Hc', Hl', Hids.
      rewrite (ids_after_block lines _ 0 Hf' Hc' Hl'). rewrite Hids. simpl.
      by rewrite lastOr_None.
    + destruct (step_other st line Hb) as (Hh & _ & Hf & _).
      apply IH; [congruence|].
      apply (f_equal Hier.levels) in Hh. simpl in Hh.
      rewrite Hheap in Hh. by apply fmap_nil_inv in Hh.
Qed.

(** C3 as the specification words it: of several [id::] lines under one
    block, the first one gives the block its id. *)
Definition first_id_wins (file : LogseqFile) : Prop :=
  let lines := JS.split 10 (file_content file) in
  ∀ i seg o,
    segments lines !! i = Some seg →
    pf_heap (parseLogseqFile file) !! i = Some o →
    1 < length (idValues seg) →
    o_id o = head (idValues seg).

Definition two_ids : LogseqFile :=
  {| file_path := JS.lit "pages/Foo.md";
     file_content := JS.lit "- First block
  id:: abc-123
  id:: def-456" |}.

(** C3, counterexample: a block followed by the lines [id:: abc-123] and
    [id:: def-456] ends up with the id [def-456], the second one. *)
Lemma first_id_wins_fails : ¬ first_id_wins two_ids.
Proof.
  intros H.
  specialize (H 0 [JS.lit "  id:: abc-123"; JS.lit "  id:: def-456"]
                {| o_id := Some (JS.lit "def-456"); o_content := JS.lit "First block";
                   o_properties := []; o_children := []; o_level := 0 # 2 |}).
  vm_compute in H. specialize (H eq_refl eq_refl).
  discriminate (H (le_n 2)).
Qed.

(** C3, amended: the id of every block is the value of the last [id::] line
    among its continuation lines (each such line overwrites the id), and a
    block without such a line has no id. *)
Theorem last_id_wins (file : LogseqFile) :
  o_id <$> pf_heap (parseLogseqFile file) =
  (λ seg, last (idValues seg)) <$> segments (JS.split 10 (file_content file)).
Proof.
  unfold parseLogseqFile, Parser.run. simpl.
  by apply ids_before_block.
Qed.

(** ** The regular-expression matcher: a match consumes at least [min_len] *)

Local Ltac consume_nothing :=
  exists 0; rewrite Nat.add_0_r; split; [simpl; lia|done].

Lemma star_greedy_inv p pos rest cs k x :
  Re.star_greedy p pos rest cs k = Some x →
  ∃ n, n ≤ length rest ∧ k (pos + n) (drop n rest) cs = Some x.
Proof.
  revert pos. induction rest as [|c rest IH]; intros pos; simpl.
  - intros H. consume_nothing.
  - destruct (p c).
    + destruct (Re.star_greedy p (S pos) rest cs k) eqn:E.
      * intros [= <-]. destruct (IH _ E) as (n & Hn & Hk).
        exists (S n). split; [lia|]. by rewrite Nat.add_succ_r.
      * intros H. consume_nothing.
    + intros H. consume_nothing.
Qed.

Lemma star_lazy_inv p pos rest cs k x :
  Re.star_lazy p pos rest cs k = Some x →
  ∃ n, n ≤ length rest ∧ k (pos + n) (drop n rest) cs = Some x.
Proof.
  revert pos. induction rest as [|c rest IH]; intros pos; simpl.
  - destruct (k pos [] cs) eqn:E; [|done].
    intros [= <-]. consume_nothing.
  - destruct (k pos (c :: rest) cs) eqn:E.
    + intros [= <-]. consume_nothing.
    + destruct (p c); [|done]. intros H.
      destruct (IH _ H) as (n & Hn & Hk).
      exists (S n). split; [lia|]. by rewrite Nat.add_succ_r.
Qed.

(** A successful run hands over to its continuation after consuming [n]
    code units of the input, [n] at least the minimal length. *)
Lemma run_inv r : ∀ pos rest cs k x,
  Re.run r pos rest cs k = Some x →
  ∃ n cs', n ≤ length rest ∧ Re.min_len r ≤ n ∧
           k (pos + n) (drop n rest) cs' = Some x.
Proof.
  induction r as [|c|p|r1 IH1 r2 IH2|r1 IH1 r2 IH2|r1 IH1|p|p|g r1 IH1| |];
    intros pos rest cs k x; simpl.
  - intros H. exists 0, cs. rewrite Nat.add_0_r. split; [lia|]. done.
  - destruct rest as [|c' rest]; [done|]. destruct (c =? c')%N; [|done].
    intros H. exists 1, cs. simpl. rewrite Nat.add_1_r. split; [lia|]. done.
  - destruct rest as [|c' rest]; [done|]. destruct (p c'); [|done].
    intros H. exists 1, cs. simpl. rewrite Nat.add_1_r. split; [lia|]. done.
  - intros H. destruct (IH1 _ _ _ _ _ H) as (n1 & cs1 & Hn1 & Hm1 & H1).
    destruct (IH2 _ _ _ _ _ H1) as (n2 & cs2 & Hn2 & Hm2 & H2).
    rewrite length_drop in Hn2.
    exists (n1 + n2), cs2. split; [lia|]. split; [lia|].
    rewrite drop_drop in H2. by rewrite Nat.add_assoc.
  - destruct (Re.run r1 pos rest cs k) eqn:E.
    + intros [= <-]. destruct (IH1 _ _ _ _ _ E) as (n & cs' & ? & ? & ?).
      exists n, cs'. split; [done|]. split; [lia|done].
    + intros H. destruct (IH2 _ _ _ _ _ H) as (n & cs' & ? & ? & ?).
      exists n, cs'. split; [done|]. split; [lia|done].
  - destruct (Re.run r1 pos rest cs k) eqn:E.
    + intros [= <-]. destruct (IH1 _ _ _ _ _ E) as (n & cs' & ? & ? & ?).
      exists n, cs'. split; [done|]. split; [lia|done].
    + intros H. exists 0, cs. rewrite Nat.add_0_r. split; [lia|]. done.
  - intros H. destruct (star_greedy_inv _ _ _ _ _ _ H) as (n & ? & ?).
    exists n, cs. split; [done|]. split; [lia|done].
  - intros H. destruct (star_lazy_inv _ _ _ _ _ _ H) as (n & ? & ?).
    exists n, cs. split; [done|]. split; [lia|done].
  - intros H. destruct (IH1 _ _ _ _ _ H) as (n & cs' & ? & ? & ?). eauto.
  - destruct (Nat.eqb pos 0); [|done].
    intros H. exists 0, cs. rewrite Nat.add_0_r. split; [lia|]. done.
  - destruct rest; [|done].
    intros H. exists 0, cs. rewrite Nat.add_0_r. split; [lia|]. done.
Qed.

Lemma search_min_len r : ∀ pos rest m,
  Re.search r pos rest = Some m → Re.min_len r ≤ length (Re.matched m).
Proof.
  intros pos rest. revert pos. induction rest as [|c rest IH]; intros pos m; simpl.
  - destruct (Re.run r pos [] [] Re.accept) as [[e cs]|] eqn:E; [|done].
    intros [= <-]. simpl.
    destruct (run_inv _ _ _ _ _ _ E) as (n & cs' & Hn & Hm & Hk).
    simpl in Hn. lia.
  - destruct (Re.run r pos (c :: rest) [] Re.accept) as [[e cs]|] eqn:E.
    + intros [= <-]. simpl.
      destruct (run_inv _ _ _ _ _ _ E) as (n & cs' & Hn & Hm & Hk).
      unfold Re.accept in Hk. simplify_eq.
      rewrite length_take. simpl in *. lia.
    + apply IH.
Qed.

Lemma exec_min_len r s m :
  Re.exec r s = Some m → Re.min_len r ≤ length (Re.matched m).
Proof. apply search_min_len. Qed.

(** ** The inline-syntax scanner *)

(** Where the block-embed and block-reference recognizers fire, and the uuid
    they read there. *)
Definition embedAt (remaining : list N) : option (list N) :=
  if JS.startsWith (JS.lit "{{embed ((") remaining then
    (λ endIdx, JS.substring remaining 10 endIdx) <$> JS.indexOf (JS.lit "))}}") remaining
  else None.

Definition refAt (remaining : list N) : option (list N) :=
  if JS.startsWith (JS.lit "((") remaining then
    (λ endIdx, JS.substring remaining 2 endIdx) <$> JS.indexOf (JS.lit "))") remaining
  else None.

Definition linkAt (remaining : list N) : option nat :=
  if JS.startsWith (JS.lit "[[") remaining || JS.startsWith (JS.lit "#[[") remaining
  then JS.indexOf (JS.lit "]]") remaining
  else None.

(** Some recognizer fires on [remaining]. *)
Definition recognized (remaining : list N) : bool :=
  bool_decide (is_Some (embedAt remaining))
  || bool_decide (is_Some (refAt remaining))
  || bool_decide (is_Some (linkAt remaining))
  || bool_decide (is_Some (Re.exec Importer.SIMPLE_TAG_REGEX remaining))
  || bool_decide (is_Some (Re.exec Importer.ATTACHMENT_REGEX remaining)).

(** No recognizer fires at any cursor position of [content]. *)
Definition noSyntax (content : list N) : bool :=
  forallb (λ k, negb (recognized (drop k content))) (seq 0 (length content)).

Lemma startsWith_head p ps c s : JS.startsWith (p :: ps) (c :: s) = true → p = c.
Proof. simpl. intros H. apply andb_true_iff in H as [H _]. by apply N.eqb_eq. Qed.

(** An embed and a reference cannot start at the same place. *)
Lemma embedAt_refAt remaining u id :
  embedAt remaining = Some u → refAt remaining = Some id → False.
Proof.
  unfold embedAt, refAt.
  destruct (JS.startsWith (JS.lit "{{embed ((") remaining) eqn:E1; [|done].
  destruct (JS.startsWith (JS.lit "((") remaining) eqn:E2; [|done].
  destruct remaining as [|c rem]; [done|].
  change (JS.lit "{{embed ((") with (123%N :: JS.lit "{embed ((") in E1.
  change (JS.lit "((") with (40%N :: JS.lit "(") in E2.
  apply startsWith_head in E1, E2. congruence.
Qed.

Section ScannerFacts.

Variable content : list N.
Variable graph : LogseqGraph.
Variable assetPathMap : gmap (list N) (list N).

Local Abbreviation body := (Importer.body content graph assetPathMap).
Local Abbreviation loop := (Importer.loop content graph assetPathMap).
Local Abbreviation resolve := (Importer.resolve graph).

(** The state after [n] iterations of the loop body. *)
Definition visited (n : nat) : Importer.Scan := Nat.iter n body Importer.start.

Lemma flushBuffer_i st : Importer.i (Importer.flushBuffer st) = Importer.i st.
Proof. unfold Importer.flushBuffer. by destruct (JS.truthy _). Qed.

Lemma emit_i st fr n : Importer.i (Importer.emit st fr n) = Importer.i st + n.
Proof. unfold Importer.emit. simpl. by rewrite flushBuffer_i. Qed.

Lemma flushBuffer_fragments st :
  Importer.fragments st `prefix_of` Importer.fragments (Importer.flushBuffer st).
Proof.
  unfold Importer.flushBuffer. destruct (JS.truthy _); simpl; [|done].
  by apply prefix_app_r.
Qed.

Lemma emit_fragments st fr n :
  Importer.fragments st `prefix_of` Importer.fragments (Importer.emit st fr n) ∧
  fr ∈ Importer.fragments (Importer.emit st fr n).
Proof.
  unfold Importer.emit. simpl. split.
  - apply prefix_app_r, flushBuffer_fragments.
  - apply elem_of_app. right. by apply list_elem_of_singleton.
Qed.

(** What each recognizer does when it fires. *)
Lemma blockEmbed_spec st remaining :
  Importer.blockEmbed graph st remaining =
  match embedAt remaining with
  | Some uuid =>
      (λ endIdx, Importer.emit st (blockRefFragment (resolve uuid) uuid) (endIdx + 4))
        <$> JS.indexOf (JS.lit "))}}") remaining
  | None => None
  end.
Proof.
  unfold Importer.blockEmbed, embedAt.
  destruct (JS.startsWith _ _); [|done].
  by destruct (JS.indexOf _ _).
Qed.

Lemma blockReference_spec st remaining :
  Importer.blockReference graph st remaining =
  match refAt remaining with
  | Some uuid =>
      (λ endIdx, Importer.emit st (blockRefFragment (resolve uuid) uuid) (endIdx + 2))
        <$> JS.indexOf (JS.lit "))") remaining
  | None => None
  end.
Proof.
  unfold Importer.blockReference, refAt.
  destruct (JS.startsWith _ _); [|done].
  by destruct (JS.indexOf _ _).
Qed.

Lemma pageLink_spec st remaining :
  Importer.pageLink st remaining =
  (λ endIdx,
     Importer.emit st
       (pageRefFragment
          (JS.substring remaining
             (if JS.startsWith (JS.lit "#") remaining then 3 else 2) endIdx))
       (endIdx + 2))
    <$> linkAt remaining.
Proof.
  unfold Importer.pageLink, linkAt.
  destruct (_ || _); [|done]. by destruct (JS.indexOf _ _).
Qed.

(** A fragment that carries a uuid in [q] is a reference fragment whose
    value is what the uuid resolves to. *)
Definition Resolved (fr : ContentFragment) : Prop :=
  ∀ uuid, cf_q fr = Some uuid → cf_t fr = JS.lit "r" ∧ cf_v fr = resolve uuid.

Lemma attachmentFragment_q m : cf_q (Importer.attachmentFragment assetPathMap m) = None.
Proof.
  unfold Importer.attachmentFragment.
  destruct (assetPathMap !! _) as [newPath|]; [|done].
  destruct (JS.truthy newPath); [|done].
  destruct (Re.test _ _); [|done].
  destruct (Re.group 5 _) as [a|]; [|done]. by destruct (JS.truthy a).
Qed.

(** Every recognizer that fires flushes the buffer, pushes one fragment and
    moves the cursor forward. *)
Lemma blockEmbed_emit st remaining st' :
  Importer.blockEmbed graph st remaining = Some st' →
  ∃ fr n, st' = Importer.emit st fr n ∧ 0 < n ∧ Resolved fr.
Proof.
  unfold Importer.blockEmbed. destruct (JS.startsWith _ _); [|done].
  destruct (JS.indexOf _ _); [|done]. intros [= <-].
  eexists _, _. split; [done|]. split; [lia|]. by intros uuid [= <-].
Qed.

Lemma blockReference_emit st remaining st' :
  Importer.blockReference graph st remaining = Some st' →
  ∃ fr n, st' = Importer.emit st fr n ∧ 0 < n ∧ Resolved fr.
Proof.
  unfold Importer.blockReference. destruct (JS.startsWith _ _); [|done].
  destruct (JS.indexOf _ _); [|done]. intros [= <-].
  eexists _, _. split; [done|]. split; [lia|]. by intros uuid [= <-].
Qed.

Lemma pageLink_emit st remaining st' :
  Importer.pageLink st remaining = Some st' →
  ∃ fr n, st' = Importer.emit st fr n ∧ 0 < n ∧ Resolved fr.
Proof.
  unfold Importer.pageLink. destruct (_ || _); [|done].
  destruct (JS.indexOf _ _); [|done]. intros [= <-].
  eexists _, _. split; [done|]. split; [lia|]. by intros uuid.
Qed.

Lemma simpleTag_emit st remaining st' :
  Importer.simpleTag st remaining = Some st' →
  ∃ fr n, st' = Importer.emit st fr n ∧ 0 < n ∧ Resolved fr.
Proof.
  unfold Importer.simpleTag.
  destruct (Re.exec Importer.SIMPLE_TAG_REGEX remaining) as [m|] eqn:E; [|done].
  intros [= <-]. eexists _, _. split; [done|].
  pose proof (exec_min_len _ _ _ E) as H.
  change (Re.min_len Importer.SIMPLE_TAG_REGEX) with 2 in H.
  split; [lia|]. by intros uuid.
Qed.

Lemma attachment_emit st remaining st' :
  Importer.attachment assetPathMap st remaining = Some st' →
  ∃ fr n, st' = Importer.emit st fr n ∧ 0 < n ∧ Resolved fr.
Proof.
  unfold Importer.attachment.
  destruct (Re.exec Importer.ATTACHMENT_REGEX remaining) as [m|] eqn:E; [|done].
  intros [= <-]. eexists _, _. split; [done|].
  pose proof (exec_min_len _ _ _ E) as H.
  change (Re.min_len Importer.ATTACHMENT_REGEX) with 4 in H.
  split; [lia|]. intros uuid Hq. by rewrite attachmentFragment_q in Hq.
Qed.

(** An iteration either lets one recognizer fire or accumulates one code
    unit of plain text. *)
Lemma body_cases st :
  (∃ fr n, body st = Importer.emit st fr n ∧ 0 < n ∧ Resolved fr) ∨
  body st = Importer.accumulate st (JS.substringFrom content (Importer.i st)).
Proof.
  unfold Importer.body.
  destruct (Importer.blockEmbed _ _ _) eqn:E1; [left; by eapply blockEmbed_emit|].
  destruct (Importer.blockReference _ _ _) eqn:E2; [left; by eapply blockReference_emit|].
  destruct (Importer.pageLink _ _) eqn:E3; [left; by eapply pageLink_emit|].
  destruct (Importer.simpleTag _ _) eqn:E4; [left; by eapply simpleTag_emit|].
  destruct (Importer.attachment _ _ _) eqn:E5; [left; by eapply attachment_emit|].
  by right.
Qed.

(** The cursor strictly advances on every iteration. *)
Lemma body_advance st : Importer.i st < Importer.i (body st).
Proof.
  destruct (body_cases st) as [(fr & n & -> & Hn & _)| ->].
  - rewrite emit_i. lia.
  - simpl. lia.
Qed.

(** Fragments are only ever appended. *)
Lemma body_fragments st :
  Importer.fragments st `prefix_of` Importer.fragments (body st).
Proof.
  destruct (body_cases st) as [(fr & n & -> & Hn & _)| ->].
  - apply emit_fragments.
  - done.
Qed.

Lemma loop_total fuel : ∀ st,
  length content - Importer.i st ≤ fuel → is_Some (loop fuel st).
Proof.
  induction fuel as [|fuel IH]; intros st Hfuel; simpl.
  - destruct (length content <=? Importer.i st) eqn:E; [done|].
    apply Nat.leb_gt in E. lia.
  - destruct (length content <=? Importer.i st) eqn:E; [done|].
    apply IH. pose proof (body_advance st). lia.
Qed.

Lemma parseContentToFragments_total :
  is_Some (Importer.parseContentToFragments content graph assetPathMap).
Proof.
  unfold Importer.parseContentToFragments.
  destruct (loop_total (length content) Importer.start) as [st Hst]; [simpl; lia|].
  rewrite Hst. done.
Qed.

Lemma loop_fragments fuel : ∀ st st',
  loop fuel st = Some st' →
  Importer.fragments st `prefix_of` Importer.fragments st'.
Proof.
  induction fuel as [|fuel IH]; intros st st'; simpl.
  - destruct (_ <=? _); [|done]. by intros [= <-].
  - destruct (_ <=? _); [by intros [= <-]|].
    intros H. etrans; [apply body_fragments|]. by apply IH.
Qed.

Lemma iter_advance n st : Importer.i st ≤ Importer.i (Nat.iter n body st).
Proof.
  induction n as [|n IH]; simpl; [done|].
  pose proof (body_advance (Nat.iter n body st)). lia.
Qed.

(** A state the loop body is applied to on the way: the loop goes on from
    there to the same final state. *)
Lemma loop_visits n : ∀ fuel st st',
  loop fuel st = Some st' →
  Importer.i (Nat.iter n body st) < length content →
  ∃ fuel', loop fuel' (body (Nat.iter n body st)) = Some st'.
Proof.
  induction n as [|n IH]; intros fuel st st' Hloop Hi.
  - simpl in *. destruct fuel as [|fuel]; simpl in Hloop.
    + destruct (_ <=? _) eqn:E; [|done]. apply Nat.leb_le in E. lia.
    + destruct (_ <=? _) eqn:E; [apply Nat.leb_le in E; lia|]. eauto.
  - rewrite Nat.iter_succ_r in Hi |- *.
    pose proof (iter_advance n (body st)) as Hadv.
    pose proof (body_advance st) as Hb.
    destruct fuel as [|fuel]; simpl in Hloop.
    + destruct (_ <=? _) eqn:E; [|done]. apply Nat.leb_le in E. lia.
    + destruct (_ <=? _) eqn:E; [apply Nat.leb_le in E; lia|].
      by apply (IH fuel).
Qed.

(** A fragment pushed at a visited state is in the returned list. *)
Lemma visited_fragment n frs fr :
  Importer.parseContentToFragments content graph assetPathMap = Some frs →
  Importer.i (visited n) < length content →
  fr ∈ Importer.fragments (body (visited n)) →
  fr ∈ frs.
Proof.
  unfold Importer.parseContentToFragments, visited.
  destruct (loop (length content) Importer.start) as [st'|] eqn:Hloop; [|done].
  intros [= <-] Hi Hfr.
  destruct (loop_visits n _ _ _ Hloop Hi) as (fuel' & Hloop').
  apply loop_fragments in Hloop'.
  eapply elem_of_prefix; [|apply flushBuffer_fragments].
  by eapply elem_of_prefix.
Qed.

Lemma emit_elem st fr n : fr ∈ Importer.fragments (Importer.emit st fr n).
Proof. apply emit_fragments. Qed.

(** The iteration at a block embed or block reference. *)
Lemma body_reference st uuid :
  embedAt (drop (Importer.i st) content) = Some uuid ∨
    refAt (drop (Importer.i st) content) = Some uuid →
  ∃ n, 0 < n ∧ body st = Importer.emit st (blockRefFragment (resolve uuid) uuid) n.
Proof.
  intros Hat. unfold Importer.body, JS.substringFrom.
  rewrite blockEmbed_spec, blockReference_spec.
  destruct (embedAt _) as [u|] eqn:Ee.
  - assert (u = uuid) as ->.
    { destruct Hat as [[= ->]|Hr]; [done|].
      by destruct (embedAt_refAt _ _ _ Ee Hr). }
    unfold embedAt in Ee. destruct (JS.startsWith _ _); [|done].
    destruct (JS.indexOf _ _) as [e|]; [|done].
    exists (e + 4). split; [lia|done].
  - destruct Hat as [?|Hr]; [done|]. rewrite Hr.
    unfold refAt in Hr. destruct (JS.startsWith _ _); [|done].
    destruct (JS.indexOf _ _) as [e|]; [|done].
    exists (e + 2). split; [lia|done].
Qed.

(** The fragment of a block embed or block reference the cursor comes to
    stand on is in the returned list. *)
Lemma visited_reference n frs uuid :
  Importer.parseContentToFragments content graph assetPathMap = Some frs →
  Importer.i (visited n) < length content →
  embedAt (drop (Importer.i (visited n)) content) = Some uuid ∨
    refAt (drop (Importer.i (visited n)) content) = Some uuid →
  blockRefFragment (resolve uuid) uuid ∈ frs.
Proof.
  intros Hfrs Hi Hat. apply (visited_fragment n frs _ Hfrs Hi).
  destruct (body_reference _ _ Hat) as (m & _ & ->). apply emit_elem.
Qed.





(** When no recognizer fires the code unit under the cursor goes to the
    buffer. *)
Lemma body_unrecognized st :
  recognized (JS.substringFrom content (Importer.i st)) = false →
  body st = Importer.accumulate st (JS.substringFrom content (Importer.i st)).
Proof.
  unfold recognized. rewrite !orb_false_iff, !bool_decide_eq_false.
  intros ((((He & Hr) & Hl) & Ht) & Ha).
  unfold Importer.body.
  rewrite blockEmbed_spec, blockReference_spec, pageLink_spec.
  unfold Importer.simpleTag, Importer.attachment.
  destruct (embedAt _); [by destruct He|].
  destruct (refAt _); [by destruct Hr|].
  destruct (linkAt _); [by destruct Hl|].
  destruct (Re.exec Importer.SIMPLE_TAG_REGEX _); [by destruct Ht|].
  destruct (Re.exec Importer.ATTACHMENT_REGEX _); [by destruct Ha|].
  done.
Qed.

Lemma take_snoc_drop k : k < length content →
  take k content ++ take 1 (drop k content) = take (S k) content.
Proof.
  intros Hk. destruct (lookup_lt_is_Some_2 content k Hk) as [c Hc].
  rewrite (take_S_r _ _ _ Hc). f_equal.
  rewrite (drop_S _ _ _ Hc). done.
Qed.

Lemma loop_plain fuel : ∀ k,
  noSyntax content = true →
  k ≤ length content → length content - k ≤ fuel →
  loop fuel {| Importer.i := k; Importer.buffer := take k content;
               Importer.fragments := [] |} =
  Some {| Importer.i := length content; Importer.buffer := content;
          Importer.fragments := [] |}.
Proof.
  induction fuel as [|fuel IH]; intros k Hplain Hk Hfuel; simpl.
  - assert (k = length content) as -> by lia.
    rewrite Nat.leb_refl. by rewrite take_ge.
  - destruct (length content <=? k) eqn:E.
    + apply Nat.leb_le in E. assert (k = length content) as -> by lia.
      by rewrite take_ge.
    + apply Nat.leb_gt in E.
      rewrite body_unrecognized.
      * unfold Importer.accumulate, JS.substringFrom. simpl.
        rewrite take_snoc_drop by done. apply IH; [done|lia|lia].
      * unfold noSyntax in Hplain. rewrite forallb_forall in Hplain.
        apply negb_true_iff, (Hplain k), in_seq. simpl. lia.
Qed.

End ScannerFacts.

Definition emptyGraph : LogseqGraph := {| graph_pages := []; graph_blocks := ∅ |}.


(** *** Plain text *)

(** C6 as the specification words it: text without recognised syntax comes
    back as exactly one plain-text fragment equal to the input. *)
Definition plain_roundtrip (content : list N) (graph : LogseqGraph)
    (assetPathMap : gmap (list N) (list N)) : Prop :=
  noSyntax content = true →
  Importer.parseContentToFragments content graph assetPathMap =
    Some [textFragment content].

(** C6, counterexample: for the empty string the buffer is never flushed
    ([flushBuffer] pushes nothing for an empty buffer) and the list returned
    is empty. *)
Lemma plain_roundtrip_fails_on_empty : ¬ plain_roundtrip [] emptyGraph ∅.
Proof. intros H. by specialize (H eq_refl). Qed.

(** C6, amended: text without recognised syntax comes back as exactly one
    plain-text fragment equal to the input when it is not empty, and as the
    empty list when it is empty. *)
Theorem plain_text_single_fragment (content : list N) (graph : LogseqGraph)
    (assetPathMap : gmap (list N) (list N)) :
  noSyntax content = true →
  Importer.parseContentToFragments content graph assetPathMap =
    Some (match content with [] => [] | _ :: _ => [textFragment content] end).
Proof.
  intros Hplain. unfold Importer.parseContentToFragments.
  pose proof (loop_plain content graph assetPathMap (length content) 0 Hplain) as H.
  rewrite take_0 in H. unfold Importer.start. rewrite H by lia.
  simpl. unfold Importer.flushBuffer. simpl. by destruct content.
Qed.

Lemma plain_text_single_fragment_witness :
  noSyntax (JS.lit "a (b) [c] {d}") = true ∧
  Importer.parseContentToFragments (JS.lit "a (b) [c] {d}") emptyGraph ∅ =
    Some [textFragment (JS.lit "a (b) [c] {d}")].
Proof.
  split; [by vm_compute|].
  apply (plain_text_single_fragment (JS.lit "a (b) [c] {d}") emptyGraph ∅).
  by vm_compute.
Defined.

(** *** The attachment recognizer *)

(** C2, the code at the input ["abc [x](y)"]: with the cursor at 0 the
    attachment pattern is found four code units further on; the fragment for
    it is pushed at once and the cursor moves by the length of the match, to
    6, in the middle of the attachment. The text ["abc "] reaches no
    fragment, and ["](y)"] is returned a second time as plain text. *)
Theorem attachment_matched_away_from_cursor (graph : LogseqGraph) :
  let content := JS.lit "abc [x](y)" in
  Re.exec Importer.ATTACHMENT_REGEX content =
    Some {| Re.index := 4; Re.matched := JS.lit "[x](y)";
            Re.groups := [(1, JS.lit "[x](y)"); (3, JS.lit "y"); (2, JS.lit "x")] |} ∧
  Importer.i (Importer.body content graph ∅ Importer.start) = 6 ∧
  Importer.parseContentToFragments content graph ∅ =
    Some [textFragment (Importer.attachmentNotFound ++ JS.lit "y]");
          textFragment (JS.lit "](y)")].
Proof. by vm_compute. Qed.

(** *** Unresolved references *)



(** *** A referenced block with empty content *)









(** *** Termination *)

(** C7, the code at the input ["((b [x](y)"]. At the unclosed ["(("] the
    block-reference recognizer declines (no ["))"] follows), but the
    attachment pattern, which carries no [^], is then searched in the rest of
    the text and found four code units further on: its fragment is pushed at
    once and the cursor moves by the length of the match, to 6. The unclosed
    ["((b "] is never accumulated and reaches no fragment, and ["](y)"] is
    returned as plain text. *)
Theorem unclosed_delimiter_not_accumulated (graph : LogseqGraph) :
  let content := JS.lit "((b [x](y)" in
  Importer.blockReference graph Importer.start content = None ∧
  Importer.body content graph ∅ Importer.start =
    {| Importer.i := 6; Importer.buffer := [];
       Importer.fragments :=
         [textFragment (Importer.attachmentNotFound ++ JS.lit "y]")] |} ∧
  Importer.parseContentToFragments content graph ∅ =
    Some [textFragment (Importer.attachmentNotFound ++ JS.lit "y]");
          textFragment (JS.lit "](y)")].
Proof. by vm_compute. Qed.

(** What holds of the scan for every text, graph and asset map:
    [parseContentToFragments] returns a list, since the cursor strictly
    advances on every iteration of the loop and [content.length] iterations
    suffice. A block embed or block reference whose block is in the index
    with non-empty content pushes one fragment whose value is that content as
    it stands, and moves the cursor past the closing delimiter of the text
    being scanned: the content of the referenced block is never scanned,
    whatever it refers to. An opening delimiter without its closing
    counterpart makes its recognizer decline, and when no recognizer fires the
    code unit under the cursor is appended to the plain-text buffer and the
    cursor moves by one. *)
Theorem scan_terminates (content : list N) (graph : LogseqGraph)
    (assetPathMap : gmap (list N) (list N)) :
  (∃ frs, Importer.parseContentToFragments content graph assetPathMap = Some frs) ∧
  (∀ st, Importer.i st < Importer.i (Importer.body content graph assetPathMap st)) ∧
  (∀ st uuid block,
     embedAt (drop (Importer.i st) content) = Some uuid ∨
       refAt (drop (Importer.i st) content) = Some uuid →
     graph_blocks graph !! uuid = Some block →
     blk_content block ≠ [] →
     ∃ n, 0 < n ∧
       Importer.body content graph assetPathMap st =
         Importer.emit st (blockRefFragment (blk_content block) uuid) n) ∧
  (∀ st remaining,
     (JS.indexOf (JS.lit "))}}") remaining = None →
        Importer.blockEmbed graph st remaining = None) ∧
     (JS.indexOf (JS.lit "))") remaining = None →
        Importer.blockReference graph st remaining = None) ∧
     (JS.indexOf (JS.lit "]]") remaining = None →
        Importer.pageLink st remaining = None)) ∧
  (∀ st,
     recognized (drop (Importer.i st) content) = false →
     Importer.body content graph assetPathMap st =
       {| Importer.i := S (Importer.i st);
          Importer.buffer := Importer.buffer st ++ take 1 (drop (Importer.i st) content);
          Importer.fragments := Importer.fragments st |}).
Proof.
  split; [apply parseContentToFragments_total|].
  split; [apply body_advance|].
  split; [|split].
  - intros st uuid block Hat Hblock Hne.
    destruct (body_reference content graph assetPathMap st uuid Hat) as (n & Hn & ->).
    exists n. split; [done|]. unfold Importer.resolve. rewrite Hblock.
    by destruct (blk_content block).
  - intros st remaining. split; [|split]; intros Hidx.
    + unfold Importer.blockEmbed. rewrite Hidx. by destruct (JS.startsWith _ _).
    + unfold Importer.blockReference. rewrite Hidx. by destruct (JS.startsWith _ _).
    + unfold Importer.pageLink. rewrite Hidx. by destruct (_ || _).
  - intros st Hrec. by rewrite body_unrecognized.
Qed.

(** A block whose content refers to itself. *)
Definition selfReferring : LogseqGraph :=
  {| graph_pages := [];
     graph_blocks :=
       {[ JS.lit "a" :=
            {| blk_id := Some (JS.lit "a"); blk_content := JS.lit "again ((a))";
               blk_properties := []; blk_children := []; blk_level := 0 |} ]} |}.

Lemma scan_terminates_witness :
  (∃ n, 0 < n ∧
     Importer.body (JS.lit "((a)) ((b") selfReferring ∅ Importer.start =
       Importer.emit Importer.start
         (blockRefFragment (JS.lit "again ((a))") (JS.lit "a")) n) ∧
  Importer.blockReference selfReferring
    {| Importer.i := 6; Importer.buffer := JS.lit " "; Importer.fragments := [] |}
    (JS.lit "((b") = None ∧
  Importer.body (JS.lit "((a)) ((b") selfReferring ∅
    {| Importer.i := 6; Importer.buffer := JS.lit " "; Importer.fragments := [] |} =
    {| Importer.i := 7; Importer.buffer := JS.lit " ("; Importer.fragments := [] |}.
Proof.
  destruct (scan_terminates (JS.lit "((a)) ((b") selfReferring ∅)
    as (_ & _ & Hone & Hopen & Hplain).
  split; [|split].
  - apply (Hone Importer.start (JS.lit "a")
             {| blk_id := Some (JS.lit "a"); blk_content := JS.lit "again ((a))";
                blk_properties := []; blk_children := []; blk_level := 0 |}).
    + right. vm_compute. reflexivity.
    + vm_compute. reflexivity.
    + discriminate.
  - apply (Hopen {| Importer.i := 6; Importer.buffer := JS.lit " ";
                    Importer.fragments := [] |} (JS.lit "((b")).
    vm_compute. reflexivity.
  - apply (Hplain {| Importer.i := 6; Importer.buffer := JS.lit " ";
                     Importer.fragments := [] |}).
    vm_compute. reflexivity.
Defined.

(** The whole scan of that text against the self-referring graph. *)
Example scan_self_reference :
  Importer.parseContentToFragments (JS.lit "((a)) ((b") selfReferring ∅ =
    Some [blockRefFragment (JS.lit "again ((a))") (JS.lit "a");
          textFragment (JS.lit " ((b")].
Proof. by vm_compute. Qed.

(** ** The monad of host effects *)

Arguments JS.lit : simpl never.
Arguments JS.utf8 : simpl never.
Arguments Driver.showNat : simpl never.

Lemma bind_ext {A B} (m : Host.M A) (f g : A → Host.M B) w :
  (∀ a w', f a w' = g a w') → (m ≫= f) w = (m ≫= g) w.
Proof.
  intros H. unfold mbind, Host.M_bind. destruct (m w) as [[a| |] w']; auto.
Qed.

Lemma bind_assoc {A B C} (m : Host.M A) (f : A → Host.M B) (g : B → Host.M C) w :
  ((m ≫= f) ≫= g) w = (m ≫= (λ a, f a ≫= g)) w.
Proof.
  unfold mbind, Host.M_bind. by destruct (m w) as [[a| |] w'].
Qed.

Lemma forEach_cons {A} (x : A) xs (f : A → Host.M unit) :
  Host.forEach (x :: xs) f = (f x ;; Host.forEach xs f).
Proof. done. Qed.

Lemma batchLoop_S importPageBatch fuel allPages graph i :
  Driver.batchLoop importPageBatch (S fuel) allPages graph i =
  if i <? length allPages then
    importPageBatch (take Driver.BATCH_SIZE (drop i allPages)) graph ;;
    Host.notify (JS.lit "info")
      (JS.utf8 "导入进度: "
       ++ Driver.showNat (Nat.min (i + Driver.BATCH_SIZE) (length allPages))
       ++ JS.lit " / " ++ Driver.showNat (length allPages)) ;;
    Driver.batchLoop importPageBatch fuel allPages graph (i + Driver.BATCH_SIZE)
  else mret tt.
Proof. done. Qed.

(** ** Batches *)

(** [ceil(n / b)] *)
Definition ceilDiv (n b : nat) : nat := (n + b - 1) / b.

(** The [k]-th slice of [BATCH_SIZE] pages. *)
Definition batchSlice (allPages : list LogseqPage) (k : nat) : list LogseqPage :=
  take Driver.BATCH_SIZE (drop (Driver.BATCH_SIZE * k) allPages).

(** What the driver does for the [k]-th batch: one call of
    [importPageBatch], then the progress notification ["imported / total"]. *)
Definition batchStep (importPageBatch : list LogseqPage → LogseqGraph → Host.M unit)
    (allPages : list LogseqPage) (graph : LogseqGraph) (k : nat) : Host.M unit :=
  importPageBatch (batchSlice allPages k) graph ;;
  Host.notify (JS.lit "info")
    (JS.utf8 "导入进度: "
     ++ Driver.showNat (Nat.min (Driver.BATCH_SIZE * k + Driver.BATCH_SIZE) (length allPages))
     ++ JS.lit " / " ++ Driver.showNat (length allPages)).

Lemma ceilDiv_spec n :
  ∃ r, n + 49 = 50 * ceilDiv n 50 + r ∧ r < 50.
Proof.
  unfold ceilDiv. exists ((n + 50 - 1) mod 50).
  pose proof (Nat.div_mod_eq (n + 50 - 1) 50).
  pose proof (Nat.mod_upper_bound (n + 50 - 1) 50). lia.
Qed.

Lemma ceilDiv_lt n k : k < ceilDiv n 50 ↔ 50 * k < n.
Proof. destruct (ceilDiv_spec n) as (r & Hq & Hr). lia. Qed.

Lemma batchStep_unfold importPageBatch allPages graph k :
  batchStep importPageBatch allPages graph k =
  (importPageBatch (batchSlice allPages k) graph ;;
   Host.notify (JS.lit "info")
     (JS.utf8 "导入进度: "
      ++ Driver.showNat (Nat.min (Driver.BATCH_SIZE * k + Driver.BATCH_SIZE) (length allPages))
      ++ JS.lit " / " ++ Driver.showNat (length allPages))).
Proof. done. Qed.

Lemma batchLoop_from importPageBatch allPages graph fuel : ∀ k w,
  ceilDiv (length allPages) 50 - k ≤ fuel →
  Driver.batchLoop importPageBatch fuel allPages graph (Driver.BATCH_SIZE * k) w =
  Host.forEach (seq k (ceilDiv (length allPages) 50 - k))
    (batchStep importPageBatch allPages graph) w.
Proof.
  induction fuel as [|fuel IH]; intros k w Hfuel.
  - assert (Hk : ¬ 50 * k < length allPages) by (rewrite <- ceilDiv_lt; lia).
    replace (ceilDiv (length allPages) 50 - k) with 0 by lia.
    unfold Driver.batchLoop. destruct (_ <? _) eqn:E; [|done].
    apply Nat.ltb_lt in E. unfold Driver.BATCH_SIZE in E. lia.
  - rewrite batchLoop_S. destruct (_ <? _) eqn:E.
    + apply Nat.ltb_lt in E. unfold Driver.BATCH_SIZE in E.
      assert (Hk : k < ceilDiv (length allPages) 50) by (by apply ceilDiv_lt).
      replace (ceilDiv (length allPages) 50 - k)
        with (S (ceilDiv (length allPages) 50 - S k)) by lia.
      cbn [seq]. rewrite forEach_cons, (batchStep_unfold _ _ _ k).
      rewrite bind_assoc. apply bind_ext. intros [] w1.
      apply bind_ext. intros [] w2.
      replace (Driver.BATCH_SIZE * k + Driver.BATCH_SIZE)
        with (Driver.BATCH_SIZE * S k) by (unfold Driver.BATCH_SIZE; lia).
      apply IH. lia.
    + apply Nat.ltb_ge in E. unfold Driver.BATCH_SIZE in E.
      assert (Hk : ¬ k < ceilDiv (length allPages) 50) by (rewrite ceilDiv_lt; lia).
      replace (ceilDiv (length allPages) 50 - k) with 0 by lia. done.
Qed.

Lemma concat_slices (allPages : list LogseqPage) m :
  concat (batchSlice allPages <$> seq 0 m) = take (50 * m) allPages.
Proof.
  induction m as [|m IH]; [done|].
  rewrite seq_S, fmap_app, concat_app, IH. simpl. rewrite app_nil_r.
  unfold batchSlice, Driver.BATCH_SIZE. rewrite take_take_drop. f_equal. lia.
Qed.

(** The batch loop is the sequence, for [k] from 0 to [ceil(N/50) - 1], of
    one call of [importPageBatch] on the [k]-th slice of the page list
    followed by the progress notification ["min(50k+50, N) / N"]: there are
    exactly [ceil(N/50)] such steps, every slice holds between 1 and 50
    pages, and the slices put end to end are the page list. *)
Lemma batch_loop_invocations
    (importPageBatch : list LogseqPage → LogseqGraph → Host.M unit)
    (allPages : list LogseqPage) (graph : LogseqGraph) :
  let batches := seq 0 (ceilDiv (length allPages) Driver.BATCH_SIZE) in
  (∀ w, Driver.batchLoop importPageBatch (length allPages) allPages graph 0 w =
        Host.forEach batches (batchStep importPageBatch allPages graph) w) ∧
  length batches = ceilDiv (length allPages) Driver.BATCH_SIZE ∧
  Forall (λ k, 0 < length (batchSlice allPages k) ≤ Driver.BATCH_SIZE) batches ∧
  concat (batchSlice allPages <$> batches) = allPages.
Proof.
  intros batches. unfold batches, Driver.BATCH_SIZE. split; [|split; [|split]].
  - intros w.
    pose proof (batchLoop_from importPageBatch allPages graph (length allPages) 0 w) as H.
    rewrite Nat.mul_0_r, Nat.sub_0_r in H. apply H.
    destruct (ceilDiv_spec (length allPages)) as (r & Hq & Hr). lia.
  - by rewrite length_seq.
  - apply Forall_forall. intros k Hk. apply elem_of_seq in Hk.
    assert (50 * k < length allPages) by (apply ceilDiv_lt; lia).
    unfold batchSlice, Driver.BATCH_SIZE. rewrite length_take, length_drop. lia.
  - rewrite concat_slices. apply take_ge.
    destruct (ceilDiv_spec (length allPages)) as (r & Hq & Hr). lia.
Qed.

(** ** The asset migrator *)

Definition assetsUnavailable : list N :=
  JS.utf8 "无法打开 'assets' 文件夹，附件迁移失败。".

(** C9. When no asset path is discovered in the pages of the batch,
    [preUploadAssetsAndGetPathMap] returns the empty map without any call to
    the host (the state of the run is untouched: no upload, no lookup, no
    notification). When asset paths are discovered and opening the [assets]
    directory throws, the error is caught: the user is notified once, with
    the error level, and the map accumulated so far (empty at that point) is
    returned normally. *)
Theorem preUpload_tolerates
    (respond : list Host.event → Host.call → Host.outcome Host.value)
    (pagesToImport : list LogseqPage) (logseqFolder : Host.value) (w : Host.World) :
  (AssetImporter.collectAll pagesToImport = [] →
   AssetImporter.preUploadAssetsAndGetPathMap respond pagesToImport logseqFolder w
     = (Host.Ok ∅, w)) ∧
  (∀ e,
     AssetImporter.collectAll pagesToImport ≠ [] →
     respond (Host.trace w) (Host.GetDirectoryHandle logseqFolder (JS.lit "assets"))
       = Host.Throw e →
     AssetImporter.preUploadAssetsAndGetPathMap respond pagesToImport logseqFolder w
       = (Host.Ok ∅,
          {| Host.trace :=
               Host.trace w
               ++ [Host.Called (Host.GetDirectoryHandle logseqFolder (JS.lit "assets"))
                               (Host.Throw e);
                   Host.Notified (JS.lit "error") assetsUnavailable];
             Host.uuidToDbIdMap := Host.uuidToDbIdMap w |})).
Proof.
  unfold AssetImporter.preUploadAssetsAndGetPathMap. split.
  - intros ->. done.
  - intros e Hne Hthrow.
    destruct (AssetImporter.collectAll pagesToImport) as [|p ps]; [done|].
    cbn [length Nat.eqb].
    unfold Host.tryCatch. unfold mbind at 1. unfold Host.M_bind at 1.
    unfold Host.invoke at 1. rewrite Hthrow.
    unfold mbind, Host.M_bind, Host.notify, Host.log, mret, Host.M_ret.
    cbn [Host.trace Host.uuidToDbIdMap]. rewrite <- app_assoc.
    unfold assetsUnavailable. reflexivity.
Qed.

(** A page without attachments, a page with one, and a host where nothing
    can be opened. *)
Definition plainPage : LogseqPage :=
  {| page_name := JS.lit "Plain"; page_properties := [];
     page_blocks :=
       [{| blk_id := None; blk_content := JS.lit "no attachment here";
           blk_properties := []; blk_children := []; blk_level := 0 |}] |}.

Definition picturePage : LogseqPage :=
  {| page_name := JS.lit "Picture"; page_properties := [];
     page_blocks :=
       [{| blk_id := None; blk_content := JS.lit "![x](../assets/a.png)";
           blk_properties := []; blk_children := []; blk_level := 0 |}] |}.

Definition notFoundHost : list Host.event → Host.call → Host.outcome Host.value :=
  λ _ _, Host.Throw (Host.Error (JS.lit "NotFoundError")).

Definition emptyWorld : Host.World := {| Host.trace := []; Host.uuidToDbIdMap := [] |}.

Lemma preUpload_tolerates_witness :
  AssetImporter.preUploadAssetsAndGetPathMap notFoundHost [plainPage] (Host.VObj 0)
    emptyWorld = (Host.Ok ∅, emptyWorld) ∧
  AssetImporter.preUploadAssetsAndGetPathMap notFoundHost [plainPage; picturePage]
    (Host.VObj 0) emptyWorld =
    (Host.Ok ∅,
     {| Host.trace :=
          [Host.Called (Host.GetDirectoryHandle (Host.VObj 0) (JS.lit "assets"))
                       (Host.Throw (Host.Error (JS.lit "NotFoundError")));
           Host.Notified (JS.lit "error") assetsUnavailable];
        Host.uuidToDbIdMap := [] |}).
Proof.
  split.
  - apply (preUpload_tolerates notFoundHost [plainPage] (Host.VObj 0) emptyWorld).
    vm_compute. reflexivity.
  - apply (preUpload_tolerates notFoundHost [plainPage; picturePage] (Host.VObj 0)
             emptyWorld).
    + vm_compute. discriminate.
    + reflexivity.
Defined.

(** ** A page whose creation throws *)

Definition namedPage (name : list N) : LogseqPage :=
  {| page_name := name; page_properties := []; page_blocks := [] |}.

Definition boom : Host.exn := Host.Error (JS.lit "boom").

(** The heading of a page: the call that creates its title block. *)
Definition headingCall (name : list N) : Host.call :=
  Host.InsertBlock Host.RefNull None [textFragment name] TwoPassImporter.headingSpec.

(** A host on which creating the title block of the page ["1"] throws, that
    lists 51 empty notes ["0.md"] ... ["50.md"] in the folder, and answers
    every other call with the id 7. *)
Definition notes51 : list (list N * list N) :=
  (λ k, (Driver.showNat k ++ JS.lit ".md", [])) <$> seq 0 51.

Definition failOnPage1 : list Host.event → Host.call → Host.outcome Host.value :=
  λ _ c,
    match c with
    | Host.InsertBlock Host.RefNull None [fr] _ =>
        if decide (cf_v fr = JS.lit "1") then Host.Throw boom
        else Host.Ok (Host.VNum 7)
    | Host.ReadDirectory _ => Host.Ok (Host.VFiles notes51)
    | _ => Host.Ok (Host.VNum 7)
    end.

(** C4, the two-pass importer at a failing page. In a batch of the pages
    ["0"], ["1"], ["2"] the failure of page ["1"] comes out of
    [importPageBatch]: page ["2"] is never attempted, pass 2 is not run and no
    notification names the page. In a run over 51 pages the driver's only
    handler catches it: the run ends with the notification ["导入失败: boom..."]
    after page ["1"]; the pages ["2"] to ["49"] of the first batch and the
    second batch (page ["50"]) are never attempted. *)
Theorem two_pass_page_failure_aborts :
  TwoPassImporter.importPageBatch failOnPage1
    [namedPage (JS.lit "0"); namedPage (JS.lit "1"); namedPage (JS.lit "2")]
    emptyGraph emptyWorld =
    (Host.Throw boom,
     {| Host.trace :=
          [Host.GroupBegin;
           Host.Called (headingCall (JS.lit "0")) (Host.Ok (Host.VNum 7));
           Host.Called (headingCall (JS.lit "1")) (Host.Throw boom)];
        Host.uuidToDbIdMap := [] |}) ∧
  Driver.startImportProcess failOnPage1 (Some (JS.lit "/graph")) (λ data, data)
    (TwoPassImporter.importPageBatch failOnPage1) emptyWorld =
    (Host.Ok tt,
     {| Host.trace :=
          [Host.Notified (JS.lit "info") (JS.utf8 "准备从路径读取文件: /graph");
           Host.Called (Host.ReadDirectory (JS.lit "/graph")) (Host.Ok (Host.VFiles notes51));
           Host.Notified (JS.lit "info") (JS.utf8 "找到了 51 个 Markdown 文件，开始解析...");
           Host.Notified (JS.lit "info") (JS.utf8 "解析完成: 51 个页面。开始分批导入...");
           Host.GroupBegin;
           Host.Called (headingCall (JS.lit "0")) (Host.Ok (Host.VNum 7));
           Host.Called (headingCall (JS.lit "1")) (Host.Throw boom);
           Host.Notified (JS.lit "error")
             (JS.utf8 "导入失败: boom. 请确认虎鲸笔记是否有读取本地文件的API和权限。")];
        Host.uuidToDbIdMap := [] |}).
Proof. split; by vm_compute. Qed.

(** ** The per-page error boundary of the other two importers *)

(** The pages whose title block the run has asked the host to create. *)
Definition headingOf (ev : Host.event) : option (list N) :=
  match ev with
  | Host.Called (Host.InsertBlock Host.RefNull None [fr] _) _ => Some (cf_v fr)
  | _ => None
  end.

Definition attempted (w : Host.World) : list (list N) := omap headingOf (Host.trace w).

(** A computation that creates no title block and stays within its bounds. *)
Definition Tame {A} (m : Host.M A) : Prop :=
  ∀ w r w', m w = (r, w') → r ≠ Host.OutOfFuel ∧ attempted w' = attempted w.

Lemma Tame_ret {A} (a : A) : Tame (mret a).
Proof. intros w r w' [= <- <-]. done. Qed.

Lemma Tame_throw {A} e : Tame (Host.throw (A := A) e).
Proof. intros w r w' [= <- <-]. done. Qed.

Lemma Tame_bind {A B} (m : Host.M A) (f : A → Host.M B) :
  Tame m → (∀ a, Tame (f a)) → Tame (m ≫= f).
Proof.
  intros Hm Hf w r w'. unfold mbind, Host.M_bind.
  destruct (m w) as [[a|e|] w1] eqn:E; destruct (Hm _ _ _ E) as [Hr Ha].
  - intros H. destruct (Hf a _ _ _ H) as [? ?]. split; [done|congruence].
  - intros [= <- <-]. done.
  - done.
Qed.

Lemma Tame_tryCatch {A} (m : Host.M A) (h : Host.exn → Host.M A) :
  Tame m → (∀ e, Tame (h e)) → Tame (Host.tryCatch m h).
Proof.
  intros Hm Hh w r w'. unfold Host.tryCatch.
  destruct (m w) as [[a|e|] w1] eqn:E; destruct (Hm _ _ _ E) as [Hr Ha].
  - intros [= <- <-]. done.
  - intros H. destruct (Hh e _ _ _ H) as [? ?]. split; [done|congruence].
  - done.
Qed.

Lemma attempted_snoc w ev :
  attempted {| Host.trace := Host.trace w ++ [ev];
               Host.uuidToDbIdMap := Host.uuidToDbIdMap w |} =
  attempted w ++ option_list (headingOf ev).
Proof.
  unfold attempted. cbn [Host.trace]. rewrite omap_app. f_equal.
Qed.

Lemma Tame_log ev : headingOf ev = None → Tame (Host.log ev).
Proof.
  intros Hev w r w' [= <- <-]. split; [done|].
  rewrite attempted_snoc, Hev. apply app_nil_r.
Qed.

Lemma Tame_notify level message : Tame (Host.notify level message).
Proof. by apply Tame_log. Qed.

Lemma Tame_sleep ms : Tame (Host.sleep ms).
Proof. by apply Tame_log. Qed.

Lemma Tame_invoke respond c :
  (∀ r, headingOf (Host.Called c r) = None) →
  (∀ h, respond h c ≠ Host.OutOfFuel) →
  Tame (Host.invoke respond c).
Proof.
  intros Hc Hr w r w' [= <- <-]. split; [apply Hr|].
  rewrite attempted_snoc, Hc. apply app_nil_r.
Qed.

Lemma Tame_forEach {A} (xs : list A) (f : A → Host.M unit) :
  (∀ x, Tame (f x)) → Tame (Host.forEach xs f).
Proof.
  intros Hf. induction xs as [|x xs IH]; [apply Tame_ret|].
  rewrite forEach_cons. apply Tame_bind; [apply Hf|]. intros _. apply IH.
Qed.

(** What is thrown has a [message] that can be read: it is not [null] or
    [undefined]. *)
Definition Readable (e : Host.exn) : Prop :=
  match e with
  | Host.Error _ => True
  | Host.Thrown v => Host.nullish v = false
  end.

Lemma messageOf_Readable e : Readable e → ∃ message, Host.messageOf e = Host.Ok message.
Proof.
  destruct e as [m|v]; cbn [Readable Host.messageOf]; [eauto|]. intros ->. eauto.
Qed.

(** A computation that throws nothing but values with a readable [message]. *)
Definition Polite {A} (m : Host.M A) : Prop :=
  ∀ w e w', m w = (Host.Throw e, w') → Readable e.

Lemma Polite_ret {A} (a : A) : Polite (mret a).
Proof. by intros w e w' [=]. Qed.

Lemma Polite_throw {A} e : Readable e → Polite (Host.throw (A := A) e).
Proof. by intros He w e' w' [= <- <-]. Qed.

Lemma Polite_outOfFuel {A} : Polite (Host.outOfFuel (A := A)).
Proof. by intros w e w' [=]. Qed.

Lemma Polite_log ev : Polite (Host.log ev).
Proof. by intros w e w' [=]. Qed.

Lemma Polite_bind {A B} (m : Host.M A) (f : A → Host.M B) :
  Polite m → (∀ a, Polite (f a)) → Polite (m ≫= f).
Proof.
  intros Hm Hf w e w'. unfold mbind, Host.M_bind.
  destruct (m w) as [[a|e1|] w1] eqn:E.
  - apply Hf.
  - intros [= <- <-]. by apply (Hm _ _ _ E).
  - done.
Qed.

Lemma Polite_invoke respond c :
  (∀ h e, respond h c = Host.Throw e → Readable e) → Polite (Host.invoke respond c).
Proof. intros He w e w' [= H <-]. by apply (He _ _ H). Qed.

(** The host itself answers with a value or throws. *)
Definition Answers (respond : list Host.event → Host.call → Host.outcome Host.value)
    : Prop :=
  ∀ h c, respond h c ≠ Host.OutOfFuel.

(** What the host throws is never [null] or [undefined]. *)
Definition ThrowsReadable (respond : list Host.event → Host.call → Host.outcome Host.value)
    : Prop :=
  ∀ h c e, respond h c = Host.Throw e → Readable e.

Section Boundary.

Variable respond : list Host.event → Host.call → Host.outcome Host.value.
Hypothesis respond_answers : Answers respond.
Hypothesis respond_throws : ThrowsReadable respond.

(** A page body: the creation of the title block, then a tame rest. *)
Variable rest : LogseqPage → Host.value → Host.M unit.
Variable spec : LogseqPage → Host.BlockSpec.
Hypothesis rest_tame : ∀ page v, Tame (rest page v).
Hypothesis rest_polite : ∀ page v, Polite (rest page v).

Definition pageBody (page : LogseqPage) : Host.M unit :=
  Host.invoke respond
    (Host.InsertBlock Host.RefNull None [textFragment (page_name page)] (spec page))
  ≫= rest page.

(** One page inside its [try]/[catch]: the title block is asked for, the
    outcome is normal whatever happens, and a failure leaves the error
    notification that names the page. *)
Lemma guarded_page page w :
  ∃ w', Host.tryCatch (pageBody page) (AssetImporter.pageFailed page) w = (Host.Ok tt, w') ∧
        attempted w' = attempted w ++ [page_name page] ∧
        ∀ e w1, pageBody page w = (Host.Throw e, w1) →
          ∃ message, Host.messageOf e = Host.Ok message ∧
          Host.trace w' =
            Host.trace w1
            ++ [Host.Notified (JS.lit "error")
                  (JS.utf8 "导入页面 " ++ JS.quote ++ page_name page ++ JS.quote
                   ++ JS.utf8 " 失败: " ++ message)].
Proof using All.
  unfold Host.tryCatch.
  assert (Hbody : ∀ r w1, pageBody page w = (r, w1) →
            r ≠ Host.OutOfFuel ∧ attempted w1 = attempted w ++ [page_name page] ∧
            ∀ e, r = Host.Throw e → Readable e).
  { unfold pageBody, mbind, Host.M_bind, Host.invoke. intros r w1.
    set (c := Host.InsertBlock _ _ _ _).
    pose proof (respond_answers (Host.trace w) c) as Hans.
    pose proof (respond_throws (Host.trace w) c) as Hthr.
    destruct (respond (Host.trace w) c) as [v|e|] eqn:E; [| |done].
    - intros H. destruct (rest_tame _ _ _ _ _ H) as [? Ha]. split; [done|].
      split; [by rewrite Ha, attempted_snoc|].
      intros e ->. by apply (rest_polite _ _ _ _ _ H).
    - intros [= <- <-]. split; [done|]. split; [by rewrite attempted_snoc|].
      intros e' [= <-]. by apply Hthr. }
  destruct (pageBody page w) as [[[]|e|] w1] eqn:E;
    destruct (Hbody _ _ eq_refl) as (Hr & Ha & He); [| |done].
  - exists w1. split; [done|]. split; [done|]. intros e w2 [=].
  - destruct (messageOf_Readable e (He e eq_refl)) as [message Hm].
    unfold AssetImporter.pageFailed. rewrite Hm.
    eexists. split; [reflexivity|]. split.
    + rewrite attempted_snoc. cbn [headingOf option_list]. by rewrite app_nil_r.
    + intros e' w2 [= <- <-]. exists message. done.
Qed.

(** The page loop: every page of the batch is attempted, in order, whatever
    the pages before it did, and the loop itself returns normally. *)
Lemma guarded_pages ms pages : ∀ w,
  ∃ w', Host.forEach pages
          (λ page, Host.sleep ms ;;
                   Host.tryCatch (pageBody page) (AssetImporter.pageFailed page)) w
        = (Host.Ok tt, w') ∧
        attempted w' = attempted w ++ (page_name <$> pages).
Proof using All.
  induction pages as [|page pages IH]; intros w.
  - exists w. split; [done|]. by rewrite app_nil_r.
  - rewrite forEach_cons. unfold mbind at 1, Host.M_bind at 1.
    unfold mbind at 1, Host.M_bind at 1.
    unfold Host.sleep at 1, Host.log at 1.
    set (w0 := {| Host.trace := _; Host.uuidToDbIdMap := _ |}).
    assert (Hw0 : attempted w0 = attempted w).
    { unfold w0. rewrite attempted_snoc. apply app_nil_r. }
    destruct (guarded_page page w0) as (w1 & -> & Ha1 & _).
    destruct (IH w1) as (w2 & -> & Ha2).
    exists w2. split; [done|].
    rewrite Ha2, Ha1, Hw0. by rewrite <- app_assoc.
Qed.

End Boundary.

(** Induction on block trees. *)
Fixpoint LogseqBlock_tree_ind (P : LogseqBlock → Prop)
    (step : ∀ id content properties children level,
       Forall P children → P (mkLogseqBlock id content properties children level))
    (block : LogseqBlock) : P block :=
  match block with
  | mkLogseqBlock id content properties children level =>
      step id content properties children level
        ((fix all (bs : list LogseqBlock) : Forall P bs :=
            match bs with
            | [] => List.Forall_nil P
            | b :: bs' =>
                @List.Forall_cons _ P b bs' (LogseqBlock_tree_ind P step b) (all bs')
            end) children)
  end.

Lemma convertBlock_total graph assetPathMap block : ∀ currentIndent,
  is_Some (AssetImporter.convertBlock graph assetPathMap currentIndent block).
Proof.
  induction block as [id content properties children level IH]
    using LogseqBlock_tree_ind.
  intros currentIndent. cbn [AssetImporter.convertBlock blk_content blk_children blk_properties].
  destruct (parseContentToFragments_total content graph assetPathMap) as [frs ->].
  cbn [mbind option_bind].
  match goal with
  | |- is_Some (?inner children ≫= _) =>
      assert (Hinner : is_Some (inner children))
  end.
  { induction IH as [|b bs Hb _ IHbs]; [done|].
    destruct (Hb (S currentIndent)) as [rs ->].
    destruct IHbs as [rs' ->]. done. }
  destruct Hinner as [below ->]. done.
Qed.

Lemma convertLogseqBlocksToReprs_total graph assetPathMap blocks : ∀ currentIndent,
  is_Some (AssetImporter.convertLogseqBlocksToReprs blocks graph assetPathMap currentIndent).
Proof.
  induction blocks as [|b bs IH]; intros currentIndent; [done|].
  cbn [AssetImporter.convertLogseqBlocksToReprs].
  destruct (convertBlock_total graph assetPathMap b currentIndent) as [rs ->].
  destruct (IH currentIndent) as [rs' ->]. done.
Qed.

(** A computation that returns normally and creates no title block. *)
Definition Calm {A} (m : Host.M A) : Prop :=
  ∀ w r w', m w = (r, w') → (∃ a, r = Host.Ok a) ∧ attempted w' = attempted w.

Lemma Calm_ret {A} (a : A) : Calm (mret a).
Proof. intros w r w' [= <- <-]. eauto. Qed.

Lemma Calm_log ev : headingOf ev = None → Calm (Host.log ev).
Proof.
  intros Hev w r w' [= <- <-]. split; [eauto|].
  rewrite attempted_snoc, Hev. apply app_nil_r.
Qed.

Lemma Calm_bind {A B} (m : Host.M A) (f : A → Host.M B) :
  Calm m → (∀ a, Calm (f a)) → Calm (m ≫= f).
Proof.
  intros Hm Hf w r w'. unfold mbind, Host.M_bind.
  destruct (m w) as [[a|e|] w1] eqn:E; destruct (Hm _ _ _ E) as [[a' Hr] Ha];
    try discriminate.
  intros H. destruct (Hf a _ _ _ H) as [? ?]. split; [done|congruence].
Qed.

Lemma Calm_tryCatch {A} (m : Host.M A) (h : Host.exn → Host.M A) :
  Tame m → (∀ e, Calm (h e)) → Calm (Host.tryCatch m h).
Proof.
  intros Hm Hh w r w'. unfold Host.tryCatch.
  destruct (m w) as [[a|e|] w1] eqn:E; destruct (Hm _ _ _ E) as [Hr Ha].
  - intros [= <- <-]. eauto.
  - intros H. destruct (Hh e _ _ _ H) as [? ?]. split; [done|congruence].
  - done.
Qed.

Section Siblings.

Variable respond : list Host.event → Host.call → Host.outcome Host.value.
Hypothesis respond_answers : Answers respond.

Local Ltac tame :=
  repeat first
    [ apply Tame_ret | apply Tame_throw | apply Tame_notify | apply Tame_sleep
    | apply Tame_invoke; [by intros|intros ?; apply respond_answers]
    | apply Tame_bind; [|intros ?] ].

Lemma gatherFiles_tame assetsFolder paths :
  Tame (AssetImporter.gatherFiles respond assetsFolder paths).
Proof using All.
  induction paths as [|p paths IH]; [apply Tame_ret|].
  cbn [AssetImporter.gatherFiles].
  apply Tame_bind.
  - apply Tame_tryCatch; [|intros e; apply Tame_ret]. tame.
  - intros found. apply Tame_bind; [apply IH|]. intros more.
    destruct found; apply Tame_ret.
Qed.

Lemma preUpload_calm pages logseqFolder :
  Calm (AssetImporter.preUploadAssetsAndGetPathMap respond pages logseqFolder).
Proof using All.
  unfold AssetImporter.preUploadAssetsAndGetPathMap.
  destruct (Nat.eqb _ 0); [apply Calm_ret|].
  apply Calm_tryCatch.
  - apply Tame_bind; [tame|]. intros assetsFolder.
    apply Tame_bind; [apply gatherFiles_tame|]. intros gathered.
    destruct (0 <? _); [|apply Tame_ret].
    apply Tame_bind; [tame|]. intros _.
    apply Tame_bind; [tame|]. intros result.
    destruct result as [| | | | | |uploaded failed]; try apply Tame_ret.
    destruct failed as [n|]; [|apply Tame_ret].
    destruct (0 <? n); tame.
  - intros e. apply Calm_bind; [by apply Calm_log|]. intros _. apply Calm_ret.
Qed.

Hypothesis respond_throws : ThrowsReadable respond.

Local Ltac polite :=
  repeat first
    [ apply Polite_ret | by apply Polite_throw | apply Polite_outOfFuel
    | apply Polite_invoke; intros ? ?; apply respond_throws
    | apply Polite_bind; [|intros ?] ].

(** What follows the creation of the title block in the asset-aware
    importer. *)
Definition assetRest (graph : LogseqGraph) (assetPathMap : gmap (list N) (list N))
    (page : LogseqPage) (pageBlockId : Host.value) : Host.M unit :=
  let pageProperties := AssetImporter.propertySpecs (page_properties page) in
  if negb (Host.truthy pageBlockId) then
    Host.throw (Host.Error (JS.utf8 "创建页面失败: " ++ JS.quote ++ page_name page ++ JS.quote))
  else
    (if 0 <? length pageProperties then
       Host.invoke respond (Host.SetProperties [pageBlockId] pageProperties) ;; mret tt
     else mret tt) ;;
    pageBlock ← Host.invoke respond (Host.GetBlock pageBlockId);
    if negb (Host.truthy pageBlock) then
      Host.throw (Host.Error (JS.utf8 "获取页面块失败: " ++ JS.quote ++ page_name page ++ JS.quote))
    else if 0 <? length (page_blocks page) then
      match AssetImporter.convertLogseqBlocksToReprs (page_blocks page) graph assetPathMap 0 with
      | Some blockReprs =>
          if 0 <? length blockReprs then
            Host.invoke respond
              (Host.BatchInsertReprs pageBlock (JS.lit "lastChild") blockReprs) ;;
            mret tt
          else mret tt
      | None => Host.outOfFuel
      end
    else mret tt.

Lemma assetRest_tame graph assetPathMap page v :
  Tame (assetRest graph assetPathMap page v).
Proof using All.
  unfold assetRest. destruct (negb (Host.truthy v)); [apply Tame_throw|].
  apply Tame_bind; [destruct (0 <? _); tame|]. intros _.
  apply Tame_bind; [tame|]. intros pageBlock.
  destruct (negb (Host.truthy pageBlock)); [apply Tame_throw|].
  destruct (0 <? length (page_blocks page)); [|apply Tame_ret].
  destruct (convertLogseqBlocksToReprs_total graph assetPathMap (page_blocks page) 0)
    as [reprs ->].
  destruct (0 <? length reprs); tame.
Qed.

Lemma assetRest_polite graph assetPathMap page v :
  Polite (assetRest graph assetPathMap page v).
Proof using All.
  unfold assetRest. destruct (negb (Host.truthy v)); [by apply Polite_throw|].
  apply Polite_bind; [destruct (0 <? _); polite|]. intros _.
  apply Polite_bind; [polite|]. intros pageBlock.
  destruct (negb (Host.truthy pageBlock)); [by apply Polite_throw|].
  destruct (0 <? length (page_blocks page)); [|apply Polite_ret].
  destruct (AssetImporter.convertLogseqBlocksToReprs _ _ _ _); [|apply Polite_outOfFuel].
  destruct (0 <? length _); polite.
Qed.

(** The asset-aware importer, on a host that throws nothing whose [message]
    cannot be read: the batch returns normally and every page of it is
    attempted, in order, whatever any page did. *)
Lemma asset_importer_isolates_pages pages graph logseqFolder w :
  ∃ w', AssetImporter.importPageBatch respond pages graph logseqFolder w = (Host.Ok tt, w') ∧
        attempted w' = attempted w ++ (page_name <$> pages).
Proof using All.
  unfold AssetImporter.importPageBatch.
  unfold mbind at 1, Host.M_bind at 1, Host.notify at 1, Host.log at 1.
  set (w0 := {| Host.trace := _; Host.uuidToDbIdMap := _ |}).
  assert (Hw0 : attempted w0 = attempted w).
  { unfold w0. rewrite attempted_snoc. apply app_nil_r. }
  unfold mbind at 1, Host.M_bind at 1.
  destruct (AssetImporter.preUploadAssetsAndGetPathMap respond pages logseqFolder w0)
    as [r1 w1] eqn:E1.
  destruct (preUpload_calm _ _ _ _ _ E1) as [[assetPathMap ->] Hw1].
  unfold mbind at 1, Host.M_bind at 1, Host.notify at 1, Host.log at 1.
  set (w2 := {| Host.trace := _; Host.uuidToDbIdMap := _ |}).
  assert (Hw2 : attempted w2 = attempted w1).
  { unfold w2. rewrite attempted_snoc. apply app_nil_r. }
  unfold Host.invokeGroup.
  unfold mbind at 1, Host.M_bind at 1, Host.log at 1.
  set (w3 := {| Host.trace := _; Host.uuidToDbIdMap := _ |}).
  assert (Hw3 : attempted w3 = attempted w2).
  { unfold w3. rewrite attempted_snoc. apply app_nil_r. }
  unfold mbind at 1, Host.M_bind at 1.
  destruct (guarded_pages respond respond_answers respond_throws
              (assetRest graph (AssetImporter.pm_paths assetPathMap))
              (λ _, TwoPassImporter.headingSpec)
              (assetRest_tame graph (AssetImporter.pm_paths assetPathMap))
              (assetRest_polite graph (AssetImporter.pm_paths assetPathMap))
              10 pages w3) as (w4 & Hloop & Hw4).
  change (Host.forEach pages _ w3) with
    (Host.forEach pages
       (λ page, Host.sleep 10 ;;
                Host.tryCatch
                  (pageBody respond (assetRest graph (AssetImporter.pm_paths assetPathMap))
                     (λ _, TwoPassImporter.headingSpec) page)
                  (AssetImporter.pageFailed page)) w3).
  rewrite Hloop. unfold Host.log.
  eexists. split; [reflexivity|].
  rewrite attempted_snoc, Hw4, Hw3, Hw2, Hw1, Hw0. apply app_nil_r.
Qed.

(** What follows the creation of the title block in the importer with the
    global pattern. *)
Definition regexRest (graph : LogseqGraph) (page : LogseqPage)
    (pageBlockId : Host.value) : Host.M unit :=
  if negb (Host.truthy pageBlockId) then
    Host.throw (Host.Error (JS.lit "Failed to create page block for " ++ JS.quote
                            ++ page_name page ++ JS.quote))
  else
    pageBlock ← Host.invoke respond (Host.GetBlock pageBlockId);
    if negb (Host.truthy pageBlock) then
      Host.throw (Host.Error (JS.lit "Could not retrieve created page block for "
                              ++ JS.quote ++ page_name page ++ JS.quote))
    else if 0 <? length (page_blocks page) then
      let blockReprs :=
        RegexImporter.convertLogseqBlocksToReprs (page_blocks page) graph 0 in
      if 0 <? length blockReprs then
        Host.invoke respond
          (Host.BatchInsertReprs pageBlock (JS.lit "lastChild") blockReprs) ;;
        mret tt
      else mret tt
    else mret tt.

Lemma regexRest_tame graph page v : Tame (regexRest graph page v).
Proof using All.
  unfold regexRest. destruct (negb (Host.truthy v)); [apply Tame_throw|].
  apply Tame_bind; [tame|]. intros pageBlock.
  destruct (negb (Host.truthy pageBlock)); [apply Tame_throw|].
  destruct (0 <? length (page_blocks page)); [|apply Tame_ret].
  cbv zeta. destruct (0 <? length _); tame.
Qed.

Lemma regexRest_polite graph page v : Polite (regexRest graph page v).
Proof using All.
  unfold regexRest. destruct (negb (Host.truthy v)); [by apply Polite_throw|].
  apply Polite_bind; [polite|]. intros pageBlock.
  destruct (negb (Host.truthy pageBlock)); [by apply Polite_throw|].
  destruct (0 <? length (page_blocks page)); [|apply Polite_ret].
  cbv zeta. destruct (0 <? length _); polite.
Qed.

(** The importer with the global pattern: likewise, on such a host. *)
Lemma regex_importer_isolates_pages pages graph w :
  ∃ w', RegexImporter.importPageBatch respond pages graph w = (Host.Ok tt, w') ∧
        attempted w' = attempted w ++ (page_name <$> pages).
Proof using All.
  unfold RegexImporter.importPageBatch, Host.invokeGroup.
  unfold mbind at 1, Host.M_bind at 1, Host.log at 1.
  set (w0 := {| Host.trace := _; Host.uuidToDbIdMap := _ |}).
  assert (Hw0 : attempted w0 = attempted w).
  { unfold w0. rewrite attempted_snoc. apply app_nil_r. }
  unfold mbind at 1, Host.M_bind at 1.
  destruct (guarded_pages respond respond_answers respond_throws (regexRest graph)
              (λ page,
                 {| Host.spec_type := JS.lit "heading"; Host.spec_level := Some 1;
                    Host.spec_properties :=
                      Some match mapGet (JS.lit "alias") (page_properties page) with
                           | Some alias =>
                               if JS.truthy alias
                               then AssetImporter.propertySpecs (page_properties page)
                               else []
                           | None => []
                           end |})
              (regexRest_tame graph) (regexRest_polite graph) 50 pages w0)
    as (w1 & Hloop & Hw1).
  match type of Hloop with
  | Host.forEach pages ?f w0 = _ => change (Host.forEach pages _ w0) with (Host.forEach pages f w0)
  end.
  rewrite Hloop. unfold Host.log.
  eexists. split; [reflexivity|].
  rewrite attempted_snoc, Hw1, Hw0. apply app_nil_r.
Qed.

End Siblings.

(** A host that throws [null]: the handler of the page reads [e.message],
    which throws in its turn, and the batch ends there. *)
Definition throwsNull : list Host.event → Host.call → Host.outcome Host.value :=
  λ _ _, Host.Throw (Host.Thrown Host.VNull).

Example thrown_null_ends_the_batch :
  (AssetImporter.importPageBatch throwsNull [plainPage; picturePage] emptyGraph
     (Host.VObj 0) emptyWorld).1 =
    Host.Throw (Host.Error (JS.lit "Cannot read properties of null (reading 'message')")) ∧
  (RegexImporter.importPageBatch throwsNull [plainPage; picturePage] emptyGraph
     emptyWorld).1 =
    Host.Throw (Host.Error (JS.lit "Cannot read properties of null (reading 'message')")).
Proof. by vm_compute. Qed.

(** A file with a block, a nested block and a second block at the level of
    the first. *)
Definition nestedFile : LogseqFile :=
  {| file_path := JS.lit "pages/Nested.md";
     file_content := JS.lit "- a
  - b
- c" |}.

Lemma parseLogseqFile_hierarchy_witness :
  ChildOf (parseLogseqFile nestedFile) 0 1 ∧
  2 ∈ pf_blocks (parseLogseqFile nestedFile) ∧
  ¬ ChildOf (parseLogseqFile nestedFile) 1 2.
Proof.
  destruct (parseLogseqFile_hierarchy nestedFile) as (_ & _ & Hpar & Hlow & _).
  assert (Hlv : levelsOf (parseLogseqFile nestedFile) = [0 # 2; 2 # 2; 0 # 2]%Q)
    by (vm_compute; reflexivity).
  split; [|split].
  - apply (Hpar 1); [vm_compute; lia|].
    split; [lia|]. split.
    + exists (0 # 2)%Q, (2 # 2)%Q. rewrite Hlv.
      split; [reflexivity|]. split; [reflexivity|]. reflexivity.
    + intros j' Hj'. lia.
  - apply (Hpar 2); [vm_compute; lia|].
    intros j Hj (lj & li & Hlj & Hli & Hlt). rewrite Hlv in Hlj, Hli.
    injection Hli as <-.
    destruct j as [|[|j]]; [| |lia].
    + injection Hlj as <-. vm_compute in Hlt. discriminate Hlt.
    + injection Hlj as <-. vm_compute in Hlt. discriminate Hlt.
  - intros Hc. destruct (Hlow 1 2 Hc) as (_ & lj & li & Hlj & Hli & Hlt).
    rewrite Hlv in Hlj, Hli. injection Hlj as <-. injection Hli as <-.
    vm_compute in Hlt. discriminate Hlt.
Defined.

(** ** The examples of the specification *)

(** As long as no recognizer fires the scan only fills the buffer: after [n]
    such iterations the cursor stands at [n]. *)
Lemma visited_plain_prefix content graph assetPathMap n :
  n ≤ length content →
  (∀ k, k < n → recognized (drop k content) = false) →
  visited content graph assetPathMap n =
    {| Importer.i := n; Importer.buffer := take n content; Importer.fragments := [] |}.
Proof.
  intros Hn Hplain. induction n as [|n IH]; [by rewrite take_0|].
  unfold visited. rewrite Nat.iter_succ. fold (visited content graph assetPathMap n).
  rewrite IH; [|lia|intros k Hk; apply Hplain; lia].
  rewrite body_unrecognized; [|apply Hplain; simpl; lia].
  unfold Importer.accumulate, JS.substringFrom. cbn [Importer.i Importer.buffer Importer.fragments].
  by rewrite take_snoc_drop by lia.
Qed.

Definition fooFile : LogseqFile :=
  {| file_path := JS.lit "pages/Foo.md";
     file_content := JS.lit "- First block
  id:: abc-123
- Second block references ((abc-123))" |}.

Definition fooGraph : LogseqGraph := parseLogseqGraph [fooFile].

(** The end-to-end example: the page is named ["Foo"], it has two top-level
    blocks, and the content of the second one is transformed into a text
    fragment and a reference fragment that resolves to the text of the
    first. *)
Example end_to_end :
  (fst <$> graph_pages fooGraph) = [JS.lit "Foo"] ∧
  (blk_content <$> page_blocks (pageOf (parseLogseqFile fooFile))) =
    [JS.lit "First block"; JS.lit "Second block references ((abc-123))"] ∧
  Importer.parseContentToFragments (JS.lit "Second block references ((abc-123))")
    fooGraph ∅ =
    Some [textFragment (JS.lit "Second block references ");
          blockRefFragment (JS.lit "First block") (JS.lit "abc-123")].
Proof. by vm_compute. Qed.

(** Asset rewrite: with ["../assets/a.png"] mapped to ["assets/a.png"] the
    image link becomes one image fragment with the new path. *)
Example asset_rewrite :
  Importer.parseContentToFragments (JS.lit "![x](../assets/a.png)") emptyGraph
    {[ JS.lit "../assets/a.png" := JS.lit "assets/a.png" ]} =
    Some [imageFragment (JS.lit "assets/a.png") (JS.lit "x") None None].
Proof. by vm_compute. Qed.

(** ** The page list of the driver *)

Lemma mapSet_fresh {V} k (v : V) m :
  k ∉ (fst <$> m) → mapSet k v m = m ++ [(k, v)].
Proof.
  induction m as [|[k' v'] m IH]; intros Hk; [done|].
  cbn [mapSet]. rewrite fmap_cons in Hk. apply not_elem_of_cons in Hk as [Hne Hk].
  destruct (decide (k = k')) as [->|_]; [done|]. by rewrite IH.
Qed.

(** The page of a file. *)
Definition pageOfFile (file : LogseqFile) : LogseqPage := pageOf (parseLogseqFile file).

Lemma graph_pages_fold files : ∀ graph,
  NoDup ((fst <$> graph_pages graph) ++ (page_name ∘ pageOfFile <$> files)) →
  graph_pages
    (fold_left
       (λ graph file,
          let page := pageOf (parseLogseqFile file) in
          {| graph_pages := mapSet (page_name page) page (graph_pages graph);
             graph_blocks := recursivelyFindBlocks (page_blocks page) (graph_blocks graph) |})
       files graph) =
  graph_pages graph ++ ((λ file, (page_name (pageOfFile file), pageOfFile file)) <$> files).
Proof.
  induction files as [|file files IH]; intros graph Hnd; [by rewrite app_nil_r|].
  cbn [fold_left]. rewrite IH; cbn [graph_pages].
  - rewrite mapSet_fresh.
    + by rewrite <- app_assoc.
    + rewrite fmap_cons in Hnd. apply NoDup_app in Hnd as (_ & Hdis & _).
      intros Hin. apply (Hdis _ Hin). left.
  - rewrite mapSet_fresh.
    + rewrite fmap_app. rewrite fmap_cons in Hnd. cbn [fmap list_fmap fst].
      by rewrite <- app_assoc.
    + rewrite fmap_cons in Hnd. apply NoDup_app in Hnd as (_ & Hdis & _).
      intros Hin. apply (Hdis _ Hin). left.
Qed.

(** When no two files give the same page name, [graph.pages.values()] is
    the list of the pages of the files, in the order of the files. *)
Lemma pages_in_file_order files :
  NoDup (page_name ∘ pageOfFile <$> files) →
  snd <$> graph_pages (parseLogseqGraph files) = pageOfFile <$> files.
Proof.
  intros Hnd. unfold parseLogseqGraph. rewrite graph_pages_fold by done.
  cbn [graph_pages app]. rewrite <- list_fmap_compose. done.
Qed.

(** An importer that only leaves a mark with the number of pages it was
    given, and a host that lists 120 notes. *)
Definition markBatch (batch : list LogseqPage) (graph : LogseqGraph) : Host.M unit :=
  Host.notify (JS.lit "batch") (Driver.showNat (length batch)).

Definition notes120 : list (list N * list N) :=
  (λ k, (JS.lit "n" ++ Driver.showNat k ++ JS.lit ".md", [])) <$> seq 0 120.

Definition listing120 : list Host.event → Host.call → Host.outcome Host.value :=
  λ _ _, Host.Ok (Host.VFiles notes120).

(** A run over 120 pages: three invocations, on 50, 50 and 20 pages, each
    followed by its progress notification. *)
Example run_120_pages :
  Host.trace
    (Driver.startImportProcess listing120 (Some (JS.lit "/graph")) (λ data, data)
       markBatch emptyWorld).2 =
    [Host.Notified (JS.lit "info") (JS.utf8 "准备从路径读取文件: /graph");
     Host.Called (Host.ReadDirectory (JS.lit "/graph")) (Host.Ok (Host.VFiles notes120));
     Host.Notified (JS.lit "info") (JS.utf8 "找到了 120 个 Markdown 文件，开始解析...");
     Host.Notified (JS.lit "info") (JS.utf8 "解析完成: 120 个页面。开始分批导入...");
     Host.Notified (JS.lit "batch") (JS.lit "50");
     Host.Notified (JS.lit "info") (JS.utf8 "导入进度: 50 / 120");
     Host.Notified (JS.lit "batch") (JS.lit "50");
     Host.Notified (JS.lit "info") (JS.utf8 "导入进度: 100 / 120");
     Host.Notified (JS.lit "batch") (JS.lit "20");
     Host.Notified (JS.lit "info") (JS.utf8 "导入进度: 120 / 120");
     Host.Notified (JS.lit "success") (JS.utf8 "所有批次导入完成！")].
Proof. by vm_compute. Qed.

(** ** The page as a tree

    [pageOf] reads the object graph as trees. Every child reference points
    to a later object of the heap, so nothing is lost: the tree of an object
    carries its fields, and its children are the trees of the object's
    children, one for one and in order. *)

Lemma trees_shift objs : ∀ i m,
  drop m (Parser.trees i objs) = Parser.trees (i + m) (drop m objs).
Proof.
  induction objs as [|o objs IH]; intros i m.
  - cbn [Parser.trees]. by rewrite !drop_nil.
  - destruct m as [|m]; [by rewrite Nat.add_0_r|].
    cbn [Parser.trees drop]. rewrite IH. f_equal. lia.
Qed.

Lemma trees_lookup_shift objs i m j :
  Parser.trees (i + m) (drop m objs) !! j = Parser.trees i objs !! (m + j).
Proof. by rewrite <- trees_shift, lookup_drop. Qed.

Lemma treeOf_lookup h k o :
  h !! k = Some o →
  Parser.treeOf h k =
    Some {| blk_id := o_id o; blk_content := o_content o;
            blk_properties := o_properties o;
            blk_children :=
              omap (λ c, if decide (k < c) then Parser.treeOf h c else None)
                   (o_children o);
            blk_level := o_level o |}.
Proof.
  intros Hk. unfold Parser.treeOf.
  pose proof (trees_lookup_shift h 0 k 0) as H. rewrite Nat.add_0_r in H.
  rewrite <- H. rewrite (drop_S _ _ _ Hk). cbn [Parser.trees lookup list_lookup].
  f_equal. f_equal. apply list_omap_ext, Forall_Forall2_diag, Forall_forall.
  intros c _. change (0 + k) with k.
  destruct (decide (k < c)) as [Hlt|]; [|done].
  pose proof (trees_lookup_shift h 0 (S k) (c - S k)) as H'.
  cbn [Nat.add] in H'. rewrite H'. f_equal. lia.
Qed.

Lemma run_Inv content : Hier.Inv (hierOf (Parser.run content)).
Proof. unfold Parser.run. rewrite hierOf_run. apply Inv_fold, Inv_empty. Qed.

Lemma omap_Forall2 {A B} (f : A → option B) (l : list A) :
  Forall (λ x, is_Some (f x)) l → Forall2 (λ x y, f x = Some y) l (omap f l).
Proof.
  induction 1 as [|x l [y Hy] _ IH]; [constructor|].
  cbn [omap list_omap]. rewrite Hy. by constructor.
Qed.

Lemma snapshot_faithful (file : LogseqFile) :
  let p := parseLogseqFile file in
  Forall2 (λ r t, Parser.treeOf (pf_heap p) r = Some t)
          (pf_blocks p) (page_blocks (pageOf p)) ∧
  ∀ i o, pf_heap p !! i = Some o →
    ∃ t, Parser.treeOf (pf_heap p) i = Some t ∧
         blk_id t = o_id o ∧ blk_content t = o_content o ∧
         blk_properties t = o_properties o ∧ blk_level t = o_level o ∧
         Forall2 (λ c t', Parser.treeOf (pf_heap p) c = Some t')
                 (o_children o) (blk_children t).
Proof.
  intros p. pose proof (run_Inv (file_content file)) as HI.
  set (h := pf_heap p).
  assert (Hsome : ∀ c, c < length h → is_Some (Parser.treeOf h c)).
  { intros c Hc. destruct (lookup_lt_is_Some_2 h c Hc) as [o Ho].
    rewrite (treeOf_lookup _ _ _ Ho). eauto. }
  split.
  - apply omap_Forall2, Forall_forall. intros r Hr. apply Hsome.
    pose proof (Hier.inv_roots_lt _ HI r Hr) as Hlt.
    change (Hier.levels (hierOf (Parser.run (file_content file))))
      with (o_level <$> h) in Hlt.
    by rewrite length_fmap in Hlt.
  - intros i o Ho. rewrite (treeOf_lookup _ _ _ Ho).
    eexists. split; [reflexivity|]. cbn [blk_id blk_content blk_properties blk_level blk_children].
    do 4 (split; [done|]).
    assert (Hkids : ∀ c, c ∈ o_children o → i < c ∧ c < length h).
    { intros c Hc.
      assert (Hp : Hier.IsParent (Hier.kids (hierOf (Parser.run (file_content file)))) i c).
      { exists (o_children o). split; [|done].
        change (Hier.kids (hierOf (Parser.run (file_content file))))
          with (o_children <$> h).
        by rewrite list_lookup_fmap, Ho. }
      destruct Hp as (cs & Hcs & Hin).
      pose proof (Hier.inv_kids_lt _ HI i cs c Hcs Hin) as Hlt.
      change (Hier.levels (hierOf (Parser.run (file_content file))))
        with (o_level <$> h) in Hlt.
      rewrite length_fmap in Hlt.
      split; [|done].
      destruct (Hier.inv_parent _ HI c) as [Hpar _].
      { change (Hier.levels (hierOf (Parser.run (file_content file))))
          with (o_level <$> h). by rewrite length_fmap. }
      assert (Hn : Hier.Nearest (Hier.levels (hierOf (Parser.run (file_content file)))) i c).
      { apply Hpar. by exists cs. }
      by destruct Hn. }
    rewrite (list_omap_ext _ (Parser.treeOf h) _ (o_children o)).
    + apply omap_Forall2, Forall_forall. intros c Hc. apply Hsome.
      by apply Hkids.
    + apply Forall_Forall2_diag, Forall_forall. intros c Hc.
      destruct (Hkids c Hc) as [Hlt _]. by destruct (decide (i < c)).
Qed.

(** * Further properties of the code *)

(** ** The matcher: what a pattern cannot match *)

(** Every match of [r] contains one of the code units [cs]. *)
Fixpoint requiresAny (cs : list N) (r : Re.regex) : bool :=
  match r with
  | Re.Chr c => negb (Re.noneOf cs c)
  | Re.Cat r1 r2 => requiresAny cs r1 || requiresAny cs r2
  | Re.Alt r1 r2 => requiresAny cs r1 && requiresAny cs r2
  | Re.Grp _ r1 => requiresAny cs r1
  | _ => false
  end.

(** The text holds none of the code units [cs]. *)
Definition avoids (cs : list N) (s : list N) : bool := forallb (Re.noneOf cs) s.

Lemma avoids_drop cs s : ∀ n, avoids cs s = true → avoids cs (drop n s) = true.
Proof.
  induction s as [|c s IH]; intros [|n]; try done.
  cbn [avoids forallb drop]. intros H. apply andb_true_iff in H as [_ H].
  by apply IH.
Qed.

Lemma run_requires cs r : ∀ pos rest caps k,
  requiresAny cs r = true → avoids cs rest = true →
  Re.run r pos rest caps k = None.
Proof.
  induction r as [|c|p|r1 IH1 r2 IH2|r1 IH1 r2 IH2|r1 IH1|p|p|g r1 IH1| |];
    intros pos rest caps k Hreq Hav; try done; cbn [requiresAny] in Hreq.
  - destruct rest as [|c' rest]; [done|]. cbn [Re.run].
    destruct (c =? c')%N eqn:E; [|done]. apply N.eqb_eq in E as <-.
    cbn [avoids forallb] in Hav. apply andb_true_iff in Hav as [Hc _].
    by rewrite Hc in Hreq.
  - cbn [Re.run]. apply orb_true_iff in Hreq as [Hreq|Hreq]; [by apply IH1|].
    destruct (Re.run r1 pos rest caps _) as [x|] eqn:E; [|done].
    destruct (run_inv _ _ _ _ _ _ E) as (n & cs' & _ & _ & Hk).
    rewrite IH2 in Hk; [done|done|by apply avoids_drop].
  - cbn [Re.run]. apply andb_true_iff in Hreq as [H1 H2].
    by rewrite IH1, IH2.
  - cbn [Re.run]. by apply IH1.
Qed.

Lemma search_requires cs r rest : ∀ pos,
  requiresAny cs r = true → avoids cs rest = true → Re.search r pos rest = None.
Proof.
  induction rest as [|c rest IH]; intros pos Hreq Hav; cbn [Re.search].
  - by rewrite (run_requires cs).
  - rewrite (run_requires cs) by done. apply IH; [done|].
    cbn [avoids forallb] in Hav. by apply andb_true_iff in Hav as [_ ?].
Qed.

Lemma replaceAll_requires cs r f s :
  requiresAny cs r = true → avoids cs s = true → Re.replaceAll r f s = s.
Proof.
  intros Hreq Hav. unfold Re.replaceAll, Re.matchAll. cbn [Re.matchesFrom].
  by rewrite (search_requires cs).
Qed.

(** ** The two-pass importer: what pass 2 leaves alone *)

(** X1. Pass 2 of the two-pass importer rewrites nothing in a text that
    holds none of the characters [[], [#] and [(]: the five replacements
    return the text itself, whatever the uuid map holds, so the text that
    [content !== logseqBlock.content] compares with the content of the block
    is that content. *)
Theorem pass2_leaves_plain_text (uuidToDbIdMap : list (list N * Host.value))
    (content : list N) :
  avoids (JS.lit "[#(") content = true →
  TwoPassImporter.rewriteContent uuidToDbIdMap content = content.
Proof.
  intros Hav. unfold TwoPassImporter.rewriteContent.
  rewrite (replaceAll_requires (JS.lit "[#(") TwoPassImporter.ASSET_REGEX) by done.
  rewrite (replaceAll_requires (JS.lit "[#(") TwoPassImporter.LINK_REGEX) by done.
  rewrite (replaceAll_requires (JS.lit "[#(") TwoPassImporter.TAG_REGEX) by done.
  rewrite (replaceAll_requires (JS.lit "[#(") TwoPassImporter.BLOCK_REF_REGEX) by done.
  by rewrite (replaceAll_requires (JS.lit "[#(") TwoPassImporter.BLOCK_EMBED_REGEX).
Qed.

Lemma pass2_leaves_plain_text_witness :
  TwoPassImporter.rewriteContent [(JS.lit "abc", Host.VNum 7)]
    (JS.lit "Buy milk {today}! ok)") = JS.lit "Buy milk {today}! ok)".
Proof.
  apply (pass2_leaves_plain_text [(JS.lit "abc", Host.VNum 7)]
           (JS.lit "Buy milk {today}! ok)")).
  by vm_compute.
Defined.

(** ** The matcher: what a match captures *)

Fixpoint groupsOf (r : Re.regex) : list nat :=
  match r with
  | Re.Cat r1 r2 | Re.Alt r1 r2 => groupsOf r1 ++ groupsOf r2
  | Re.Opt r1 => groupsOf r1
  | Re.Grp n r1 => n :: groupsOf r1
  | _ => []
  end.

(** A successful run hands over to its continuation after [n] code units,
    with captures added for groups of the pattern only. *)
Lemma run_caps r : ∀ pos rest cs k x,
  Re.run r pos rest cs k = Some x →
  ∃ n added, n ≤ length rest ∧ Re.min_len r ≤ n ∧
             Forall (λ g, g.1 ∈ groupsOf r) added ∧
             k (pos + n) (drop n rest) (added ++ cs) = Some x.
Proof.
  induction r as [|c|p|r1 IH1 r2 IH2|r1 IH1 r2 IH2|r1 IH1|p|p|g r1 IH1| |];
    intros pos rest cs k x; cbn [Re.run Re.min_len groupsOf].
  - intros H. exists 0, []. rewrite Nat.add_0_r. split; [lia|]. done.
  - destruct rest as [|c' rest]; [done|]. destruct (c =? c')%N; [|done].
    intros H. exists 1, []. rewrite Nat.add_1_r. cbn [length]. split; [lia|]. done.
  - destruct rest as [|c' rest]; [done|]. destruct (p c'); [|done].
    intros H. exists 1, []. rewrite Nat.add_1_r. cbn [length]. split; [lia|]. done.
  - intros H. destruct (IH1 _ _ _ _ _ H) as (n1 & a1 & Hn1 & Hm1 & Ha1 & H1).
    destruct (IH2 _ _ _ _ _ H1) as (n2 & a2 & Hn2 & Hm2 & Ha2 & H2).
    rewrite length_drop in Hn2.
    exists (n1 + n2), (a2 ++ a1). split; [lia|]. split; [lia|]. split.
    + apply Forall_app. split; eapply Forall_impl; try eassumption;
        intros g Hg; apply elem_of_app; auto.
    + rewrite drop_drop in H2. by rewrite Nat.add_assoc, <- app_assoc.
  - destruct (Re.run r1 pos rest cs k) eqn:E.
    + intros [= <-]. destruct (IH1 _ _ _ _ _ E) as (n & a & ? & ? & Ha & ?).
      exists n, a. split; [done|]. split; [lia|]. split; [|done].
      eapply Forall_impl; [exact Ha|]. intros g Hg. apply elem_of_app. auto.
    + intros H. destruct (IH2 _ _ _ _ _ H) as (n & a & ? & ? & Ha & ?).
      exists n, a. split; [done|]. split; [lia|]. split; [|done].
      eapply Forall_impl; [exact Ha|]. intros g Hg. apply elem_of_app. auto.
  - destruct (Re.run r1 pos rest cs k) eqn:E.
    + intros [= <-]. destruct (IH1 _ _ _ _ _ E) as (n & a & ? & ? & Ha & ?).
      exists n, a. split; [done|]. split; [lia|]. done.
    + intros H. exists 0, []. rewrite Nat.add_0_r. split; [lia|]. done.
  - intros H. destruct (star_greedy_inv _ _ _ _ _ _ H) as (n & ? & ?).
    exists n, []. split; [done|]. split; [lia|]. done.
  - intros H. destruct (star_lazy_inv _ _ _ _ _ _ H) as (n & ? & ?).
    exists n, []. split; [done|]. split; [lia|]. done.
  - intros H. destruct (IH1 _ _ _ _ _ H) as (n & a & ? & ? & Ha & Hk).
    exists n, ((g, take (pos + n - pos) rest) :: a).
    split; [done|]. split; [done|]. split; [|done].
    constructor; [left|]. eapply Forall_impl; [exact Ha|].
    intros g' Hg'. by right.
  - destruct (Nat.eqb pos 0); [|done].
    intros H. exists 0, []. rewrite Nat.add_0_r. split; [lia|]. done.
  - destruct rest; [|done].
    intros H. exists 0, []. rewrite Nat.add_0_r. split; [lia|]. done.
Qed.

Lemma group_absent g (cs : Re.caps) : g ∉ (fst <$> cs) → Re.group g cs = None.
Proof.
  induction cs as [|[m s] cs IH]; [done|]. rewrite fmap_cons.
  intros H. apply not_elem_of_cons in H as [Hne H]. cbn [Re.group fst] in *.
  destruct (Nat.eqb g m) eqn:E; [by apply Nat.eqb_eq in E|]. by apply IH.
Qed.

(** A match found by the search is a run of the pattern at some position. *)
Lemma search_inv r rest : ∀ pos m,
  Re.search r pos rest = Some m →
  ∃ d e cs, d ≤ length rest ∧
    Re.run r (pos + d) (drop d rest) [] Re.accept = Some (e, cs) ∧
    m = Re.Result (pos + d) (take (e - (pos + d)) (drop d rest)) cs.
Proof.
  induction rest as [|c rest IH]; intros pos m; cbn [Re.search].
  - destruct (Re.run r pos [] [] Re.accept) as [[e cs]|] eqn:E; [|done].
    intros [= <-]. exists 0, e, cs. rewrite Nat.add_0_r. done.
  - destruct (Re.run r pos (c :: rest) [] Re.accept) as [[e cs]|] eqn:E.
    + intros [= <-]. exists 0, e, cs. rewrite Nat.add_0_r. split; [cbn; lia|]. done.
    + intros H. destruct (IH _ _ H) as (d & e & cs & Hd & Hrun & ->).
      exists (S d), e, cs. rewrite Nat.add_succ_r. split; [cbn; lia|]. done.
Qed.

Lemma matchesFrom_search r fuel : ∀ pos rest n m,
  Re.matchesFrom fuel r pos rest !! n = Some m →
  ∃ pos' rest', Re.search r pos' rest' = Some m.
Proof.
  induction fuel as [|fuel IH]; intros pos rest n m; [done|].
  cbn [Re.matchesFrom].
  destruct (Re.search r pos rest) as [m0|] eqn:E; [|done].
  destruct (Nat.eqb _ 0).
  - destruct (drop _ rest) as [|c rest'].
    + destruct n as [|n]; [|done]. intros [= <-]. eauto.
    + destruct n as [|n]; [intros [= <-]; eauto|]. apply IH.
  - destruct n as [|n]; [intros [= <-]; eauto|]. apply IH.
Qed.

(** A pattern that begins with a literal fails on a text that begins with
    another code unit. *)
Fixpoint beginsWith (c : N) (r : Re.regex) : bool :=
  match r with
  | Re.Chr c' => (c =? c')%N
  | Re.Cat r1 _ => beginsWith c r1
  | Re.Grp _ r1 => beginsWith c r1
  | _ => false
  end.

Lemma run_beginsWith c r : ∀ pos c' rest cs k,
  beginsWith c r = true → c ≠ c' → Re.run r pos (c' :: rest) cs k = None.
Proof.
  induction r as [|c0|p|r1 IH1 r2 IH2|r1 IH1 r2 IH2|r1 IH1|p|p|g r1 IH1| |];
    intros pos c' rest cs k Hb Hne; try done; cbn [beginsWith] in Hb; cbn [Re.run].
  - apply N.eqb_eq in Hb as <-. destruct (c =? c')%N eqn:E; [|done].
    by apply N.eqb_eq in E.
  - by apply IH1.
  - by apply IH1.
Qed.

(** ** The importer that scans with one global pattern *)

(** X2. In the importer with the global pattern a text that holds none of
    the characters [[], [#] and [(] comes back as one plain-text fragment
    equal to the text, and the empty text as the empty list (this variant
    has no fallback fragment: the [Repr] of an empty block gets an empty
    content). *)
Theorem regex_importer_plain_text (content : list N) (graph : LogseqGraph) :
  avoids (JS.lit "[#(") content = true →
  RegexImporter.parseContentToFragments content graph =
    match content with [] => [] | _ :: _ => [textFragment content] end.
Proof.
  intros Hav. unfold RegexImporter.parseContentToFragments, Re.matchAll.
  cbn [Re.matchesFrom].
  rewrite (search_requires (JS.lit "[#(")) by done.
  cbn [RegexImporter.scanMatches fst snd]. by destruct content.
Qed.

Lemma regex_importer_plain_text_witness :
  RegexImporter.parseContentToFragments (JS.lit "Buy milk {today}!") emptyGraph =
    [textFragment (JS.lit "Buy milk {today}!")].
Proof.
  apply (regex_importer_plain_text (JS.lit "Buy milk {today}!") emptyGraph).
  by vm_compute.
Defined.

(** The five alternatives of the pattern. *)
Definition assetAlt : Re.regex :=
  Re.Grp 1 (Re.Cat (Re.Str (JS.lit "![")) (Re.Cat (Re.Star (Re.noneOf (JS.lit "]")))
    (Re.Cat (Re.Str (JS.lit "](")) (Re.Cat (Re.Plus (Re.noneOf (JS.lit ")"))) (Re.Chr 41))))).
Definition linkAlt : Re.regex :=
  Re.Grp 2 (Re.Cat (Re.Str (JS.lit "[[")) (Re.Cat (Re.Plus (Re.noneOf (JS.lit "]")))
    (Re.Str (JS.lit "]]")))).
Definition tagAlt : Re.regex :=
  Re.Grp 3 (Re.Cat (Re.Chr 35) (Re.Plus (λ c, negb (JS.isWhiteSpace c)))).
Definition refBody : Re.regex :=
  Re.Cat (Re.Str (JS.lit "((")) (Re.Cat (Re.Grp 5 (Re.Plus (Re.noneOf (JS.lit ")"))))
    (Re.Str (JS.lit "))"))).
Definition embedAlt : Re.regex :=
  Re.Cat (Re.Str (JS.lit "{{embed ((")) (Re.Cat (Re.Grp 6 (Re.Plus (Re.noneOf (JS.lit ")"))))
    (Re.Str (JS.lit "))}}"))).

Lemma CONTENT_REGEX_alternatives :
  RegexImporter.CONTENT_REGEX =
  Re.Alt assetAlt (Re.Alt linkAlt (Re.Alt tagAlt (Re.Alt (Re.Grp 4 refBody) embedAlt))).
Proof. reflexivity. Qed.

Lemma run_Alt r1 r2 pos rest cs k :
  Re.run (Re.Alt r1 r2) pos rest cs k =
  match Re.run r1 pos rest cs k with
  | Some x => Some x
  | None => Re.run r2 pos rest cs k
  end.
Proof. reflexivity. Qed.

Lemma run_Grp g r pos rest cs k :
  Re.run (Re.Grp g r) pos rest cs k =
  Re.run r pos rest cs
    (λ pos' rest' cs', k pos' rest' ((g, take (pos' - pos) rest) :: cs')).
Proof. reflexivity. Qed.

(** X3. In the importer with the global pattern the array destructuring
    [[fullMatch, asset, link, tag, refUuid, embedUuid]] is one group short:
    for every match the loop handles, a block embed (a match that begins with
    an opening brace) pushes no fragment at all, and a block reference (a
    match that begins with an opening parenthesis) is looked up in the block
    index under its whole text, parentheses included, and pushes the
    plain-text fragment [[块引用: ...]] for that key. *)
Theorem regex_importer_reference_and_embed (content : list N) (graph : LogseqGraph)
    (n : nat) (m : Re.result) :
  Re.matchAll RegexImporter.CONTENT_REGEX content !! n = Some m →
  (head (Re.matched m) = Some 123%N → RegexImporter.fragmentOf graph m = []) ∧
  (head (Re.matched m) = Some 40%N →
     RegexImporter.fragmentOf graph m =
       [textFragment (JS.utf8 "[块引用: " ++ RegexImporter.shown graph (Re.matched m)
                      ++ JS.lit "]")]).
Proof.
  intros Hm. apply matchesFrom_search in Hm as (pos & rest & Hm).
  apply search_inv in Hm as (d & e & cs & _ & Hrun & ->).
  cbn [Re.matched]. rewrite CONTENT_REGEX_alternatives in Hrun.
  set (p := pos + d) in *. set (s := drop d rest) in *. clearbody p s. clear pos d rest.
  split; intros Hhd.
  - destruct s as [|c t]; [by rewrite take_nil in Hhd|].
    destruct (e - p) as [|len]; [done|]. cbn [take head] in Hhd. injection Hhd as ->.
    rewrite run_Alt, (run_beginsWith 33 assetAlt) in Hrun by done.
    rewrite run_Alt, (run_beginsWith 91 linkAlt) in Hrun by done.
    rewrite run_Alt, (run_beginsWith 35 tagAlt) in Hrun by done.
    rewrite run_Alt, (run_beginsWith 40 (Re.Grp 4 refBody)) in Hrun by done.
    apply run_caps in Hrun as (k & added & _ & _ & Hadded & Hacc).
    unfold Re.accept in Hacc. injection Hacc as _ <-.
    rewrite app_nil_r. rewrite Forall_forall in Hadded.
    assert (Hnone : ∀ g, g ≠ 6 → Re.group g added = None).
    { intros g Hg. apply group_absent. intros Hin.
      apply list_elem_of_fmap in Hin as (x & -> & Hx).
      apply Hadded in Hx. apply list_elem_of_singleton in Hx. done. }
    unfold RegexImporter.fragmentOf, RegexImporter.present. cbn [Re.groups].
    by rewrite !Hnone by done.
  - destruct s as [|c t]; [by rewrite take_nil in Hhd|].
    destruct (e - p) as [|len] eqn:Hlen; [done|]. cbn [take head] in Hhd.
    injection Hhd as ->.
    rewrite run_Alt, (run_beginsWith 33 assetAlt) in Hrun by done.
    rewrite run_Alt, (run_beginsWith 91 linkAlt) in Hrun by done.
    rewrite run_Alt, (run_beginsWith 35 tagAlt) in Hrun by done.
    rewrite run_Alt in Hrun.
    destruct (Re.run (Re.Grp 4 refBody) p (40%N :: t) [] Re.accept) as [x|] eqn:E;
      [|by rewrite (run_beginsWith 123 embedAlt) in Hrun].
    injection Hrun as ->. rewrite run_Grp in E.
    apply run_caps in E as (k & added & _ & _ & Hadded & Hacc).
    unfold Re.accept in Hacc. injection Hacc as <- <-.
    rewrite app_nil_r in *. rewrite Forall_forall in Hadded.
    assert (Hnone : ∀ g, g ≠ 5 → Re.group g added = None).
    { intros g Hg. apply group_absent. intros Hin.
      apply list_elem_of_fmap in Hin as (x & -> & Hx).
      apply Hadded in Hx. apply list_elem_of_singleton in Hx. done. }
    unfold RegexImporter.fragmentOf, RegexImporter.present. cbn [Re.groups Re.group Nat.eqb].
    rewrite !Hnone by done.
    rewrite Hlen. by cbn [take JS.truthy].
Qed.

Lemma regex_importer_reference_and_embed_witness :
  let graph := fooGraph in
  let m := {| Re.index := 4; Re.matched := JS.lit "((abc-123))";
              Re.groups := [(4, JS.lit "((abc-123))"); (5, JS.lit "abc-123")] |} in
  RegexImporter.fragmentOf graph m =
    [textFragment (JS.utf8 "[块引用: " ++ JS.lit "((abc-123))" ++ JS.lit "]")].
Proof.
  intros graph m.
  assert (H : Re.matchAll RegexImporter.CONTENT_REGEX (JS.lit "See ((abc-123))") !! 0
              = Some m) by (by vm_compute).
  destruct (regex_importer_reference_and_embed _ graph _ _ H) as [_ Href].
  rewrite Href by (by vm_compute). by vm_compute.
Defined.

(** A block embed alone in a block gives the empty fragment list, and a
    reference to a block of the graph does not find it. *)
Example regex_importer_embed_vanishes :
  RegexImporter.parseContentToFragments (JS.lit "{{embed ((abc-123))}}") fooGraph = [] ∧
  RegexImporter.parseContentToFragments (JS.lit "((abc-123))") fooGraph =
    [textFragment (JS.utf8 "[块引用: ((abc-123))]")].
Proof. by vm_compute. Qed.

(** ** parser.ts: the page name *)

Lemma startsWith_app p q : JS.startsWith p (p ++ q) = true.
Proof. induction p as [|c p IH]; [done|]. cbn. by rewrite N.eqb_refl. Qed.

Lemma endsWith_app s suffix : JS.endsWith suffix (s ++ suffix) = true.
Proof. unfold JS.endsWith. rewrite rev_app_distr. apply startsWith_app. Qed.

Lemma split_cons_inv sep s : ∃ l ls, JS.split sep s = l :: ls.
Proof.
  induction s as [|c s (l & ls & IH)]; cbn [JS.split]; [eauto|].
  destruct (c =? sep)%N; [eauto|]. rewrite IH. eauto.
Qed.

(** No segment of a split holds the separator. *)
Lemma split_avoids sep s : Forall (λ l, avoids [sep] l = true) (JS.split sep s).
Proof.
  induction s as [|c s IH]; cbn [JS.split]; [by repeat constructor|].
  destruct (c =? sep)%N eqn:E; [by constructor|].
  destruct (split_cons_inv sep s) as (l & ls & Hs). rewrite Hs in *.
  apply Forall_cons in IH as [Hl Hls]. constructor; [|done].
  unfold avoids in *. cbn [forallb]. unfold Re.noneOf at 1. cbn [existsb].
  rewrite E. exact Hl.
Qed.

Lemma split_whole sep s : avoids [sep] s = true → JS.split sep s = [s].
Proof.
  induction s as [|c s IH]; [done|]. unfold avoids in *. cbn [forallb].
  unfold Re.noneOf at 1. cbn [existsb].
  rewrite orb_false_r. intros H. apply andb_true_iff in H as [Hc Hs].
  apply negb_true_iff in Hc. cbn [JS.split]. rewrite Hc. by rewrite IH.
Qed.

Lemma split_app_sep sep a b :
  ∃ x xs, JS.split sep (a ++ sep :: b) = (x :: xs) ++ JS.split sep b.
Proof.
  induction a as [|c a (x & xs & IH)]; cbn [app JS.split].
  - rewrite N.eqb_refl. by exists [], [].
  - destruct (c =? sep)%N.
    + rewrite IH. by exists [], (x :: xs).
    + rewrite IH. cbn [app]. by exists (c :: x), xs.
Qed.

Lemma last_split_app_sep sep a b :
  last (JS.split sep (a ++ sep :: b)) = last (JS.split sep b).
Proof.
  destruct (split_app_sep sep a b) as (x & xs & ->).
  destruct (split_cons_inv sep b) as (l & ls & Hb).
  rewrite last_app. rewrite Hb. destruct (last (l :: ls)) eqn:E; [done|].
  by apply last_None in E.
Qed.

(** X4. The page name is the last segment of the path without a final
    [.md]: for a file name that is not empty and holds no slash,
    [name.md] and [any/folders/name.md] both give [name], whatever the
    folders are. The page name is never empty and never holds a slash: a
    path whose last segment is empty or only [.md] gives ["Untitled"]. *)
Theorem pageName_basename :
  (∀ dirs name, name ≠ [] → avoids (JS.lit "/") name = true →
     Parser.pageName (name ++ JS.lit ".md") = name ∧
     Parser.pageName (dirs ++ JS.lit "/" ++ name ++ JS.lit ".md") = name) ∧
  (∀ path, Parser.pageName path ≠ [] ∧
           avoids (JS.lit "/") (Parser.pageName path) = true) ∧
  (∀ dirs, Parser.pageName (dirs ++ JS.lit "/") = JS.lit "Untitled" ∧
           Parser.pageName (dirs ++ JS.lit "/.md") = JS.lit "Untitled").
Proof.
  change (JS.lit "/") with [47%N].
  split; [|split].
  - intros dirs name Hne Hav. unfold Parser.pageName. split.
    + rewrite endsWith_app, length_app.
      change (length (JS.lit ".md")) with 3.
      replace (length name + 3 - 3) with (length name) by lia.
      rewrite take_app_length, split_whole by done. cbn [last].
      by destruct name.
    + rewrite !app_assoc, endsWith_app, length_app.
      change (length (JS.lit ".md")) with 3.
      rewrite Nat.add_sub, take_app_length. rewrite <- app_assoc.
      cbn [app]. rewrite last_split_app_sep, split_whole by done. cbn [last].
      by destruct name.
  - intros path. unfold Parser.pageName.
    set (stem := if JS.endsWith _ _ then _ else _).
    pose proof (split_avoids 47 stem) as Hall.
    destruct (last (JS.split 47 stem)) as [s|] eqn:E; [|by vm_compute].
    destruct (JS.truthy s) eqn:Ht; [|by vm_compute].
    split; [by destruct s|].
    apply last_Some in E as (l' & E). rewrite E in Hall.
    by apply Forall_app in Hall as [_ [? _]%Forall_cons].
  - intros dirs. unfold Parser.pageName. split.
    + destruct (JS.endsWith (JS.lit ".md") (dirs ++ [47%N])) eqn:E.
      * exfalso. unfold JS.endsWith in E. rewrite rev_app_distr in E.
        cbn in E. discriminate.
      * by rewrite last_split_app_sep.
    + change (JS.lit "/.md") with ([47%N] ++ JS.lit ".md").
      rewrite app_assoc, endsWith_app, length_app.
      change (length (JS.lit ".md")) with 3.
      rewrite Nat.add_sub, take_app_length. by rewrite last_split_app_sep.
Qed.

Lemma pageName_basename_witness :
  Parser.pageName (JS.lit "My Note.md") = JS.lit "My Note" ∧
  Parser.pageName (JS.lit "journals/2024" ++ JS.lit "/" ++ JS.lit "My Note" ++ JS.lit ".md")
    = JS.lit "My Note".
Proof.
  destruct pageName_basename as [H _].
  apply (H (JS.lit "journals/2024") (JS.lit "My Note")); by vm_compute.
Defined.

(** ** The matcher: literals and greedy repetition *)

Lemma run_Cat r1 r2 pos rest cs k :
  Re.run (Re.Cat r1 r2) pos rest cs k =
  Re.run r1 pos rest cs (λ pos' rest' cs', Re.run r2 pos' rest' cs' k).
Proof. reflexivity. Qed.

Lemma run_Bol rest cs k : Re.run Re.Bol 0 rest cs k = k 0 rest cs.
Proof. reflexivity. Qed.

Lemma run_Str s : ∀ pos rest cs k,
  Re.run (Re.Str s) pos (s ++ rest) cs k = k (pos + length s) rest cs.
Proof.
  induction s as [|c s IH]; intros pos rest cs k; cbn [Re.Str Re.run app length].
  - by rewrite Nat.add_0_r.
  - rewrite N.eqb_refl, IH. f_equal. lia.
Qed.

Lemma run_Str_inv s : ∀ pos rest cs k x,
  Re.run (Re.Str s) pos rest cs k = Some x →
  ∃ rest', rest = s ++ rest' ∧ k (pos + length s) rest' cs = Some x.
Proof.
  induction s as [|c s IH]; intros pos rest cs k x; cbn [Re.Str Re.run app length].
  - intros H. exists rest. by rewrite Nat.add_0_r.
  - destruct rest as [|c' rest]; [done|].
    destruct (c =? c')%N eqn:E; [|done]. apply N.eqb_eq in E as <-.
    intros H. apply IH in H as (rest' & -> & H). exists rest'.
    split; [done|]. by rewrite Nat.add_succ_r.
Qed.

(** The repetition stops at [rest]: at its end or at a code unit outside the
    class. *)
Definition stops (p : N → bool) (rest : list N) : bool :=
  match rest with [] => true | c :: _ => negb (p c) end.

(** A greedy repetition that can take all of [l] and go on from there does
    so. *)
Lemma star_greedy_max p l : ∀ pos rest cs k x,
  forallb p l = true → stops p rest = true →
  k (pos + length l) rest cs = Some x →
  Re.star_greedy p pos (l ++ rest) cs k = Some x.
Proof.
  induction l as [|c l IH]; intros pos rest cs k x Hl Hstop Hk.
  - cbn [app length] in *. rewrite Nat.add_0_r in Hk.
    destruct rest as [|c rest]; [done|]. cbn [Re.star_greedy].
    cbn [stops] in Hstop. apply negb_true_iff in Hstop. by rewrite Hstop.
  - cbn [forallb] in Hl. apply andb_true_iff in Hl as [Hc Hl].
    cbn [app Re.star_greedy]. rewrite Hc.
    rewrite (IH (S pos) rest cs k x); [done|done|done|].
    cbn [length] in Hk. by rewrite Nat.add_succ_r in Hk.
Qed.

Lemma run_Plus_max p l pos rest cs k x :
  l ≠ [] → forallb p l = true → stops p rest = true →
  k (pos + length l) rest cs = Some x →
  Re.run (Re.Plus p) pos (l ++ rest) cs k = Some x.
Proof.
  intros Hne Hl Hstop Hk. destruct l as [|c l]; [done|].
  cbn [forallb] in Hl. apply andb_true_iff in Hl as [Hc Hl].
  unfold Re.Plus. cbn [Re.run app]. rewrite Hc.
  apply star_greedy_max; [done|done|].
  cbn [length] in Hk. by rewrite Nat.add_succ_r in Hk.
Qed.

Lemma star_greedy_class p pos rest cs k x :
  Re.star_greedy p pos rest cs k = Some x →
  ∃ l rest', rest = l ++ rest' ∧ forallb p l = true ∧
             k (pos + length l) rest' cs = Some x.
Proof.
  revert pos. induction rest as [|c rest IH]; intros pos; cbn [Re.star_greedy].
  - intros H. exists [], []. by rewrite Nat.add_0_r.
  - destruct (p c) eqn:Hc.
    + destruct (Re.star_greedy p (S pos) rest cs k) eqn:E.
      * intros [= <-]. destruct (IH _ E) as (l & rest' & -> & Hl & Hk).
        exists (c :: l), rest'. cbn [forallb length]. rewrite Hc, Hl.
        by rewrite Nat.add_succ_r.
      * intros H. exists [], (c :: rest). by rewrite Nat.add_0_r.
    + intros H. exists [], (c :: rest). by rewrite Nat.add_0_r.
Qed.

Lemma run_Plus_class p pos rest cs k x :
  Re.run (Re.Plus p) pos rest cs k = Some x →
  ∃ l rest', rest = l ++ rest' ∧ l ≠ [] ∧ forallb p l = true ∧
             k (pos + length l) rest' cs = Some x.
Proof.
  unfold Re.Plus. cbn [Re.run]. destruct rest as [|c rest]; [done|].
  destruct (p c) eqn:Hc; [|done]. intros H.
  apply star_greedy_class in H as (l & rest' & -> & Hl & Hk).
  exists (c :: l), rest'. cbn [forallb length]. rewrite Hc, Hl.
  by rewrite Nat.add_succ_r.
Qed.

Lemma search_here r pos rest e cs :
  Re.run r pos rest [] Re.accept = Some (e, cs) →
  Re.search r pos rest = Some (Re.Result pos (take (e - pos) rest) cs).
Proof. intros H. destruct rest; cbn [Re.search]; by rewrite H. Qed.

(** A pattern that starts with [^] only matches at the start. *)
Lemma search_Bol r rest : ∀ pos, 0 < pos → Re.search (Re.Cat Re.Bol r) pos rest = None.
Proof.
  induction rest as [|c rest IH]; intros pos Hpos; cbn [Re.search Re.run];
    destruct pos as [|pos]; try lia; cbn [Nat.eqb]; [done|].
  apply IH. lia.
Qed.

Lemma exec_Bol r s m :
  Re.exec (Re.Cat Re.Bol r) s = Some m →
  ∃ e cs, Re.run r 0 s [] Re.accept = Some (e, cs) ∧
          m = Re.Result 0 (take e s) cs.
Proof.
  unfold Re.exec. destruct s as [|c s]; cbn [Re.search Re.run Nat.eqb].
  - destruct (Re.run r 0 [] [] Re.accept) as [[e cs]|]; [|done].
    intros [= <-]. exists e, cs. by rewrite Nat.sub_0_r.
  - destruct (Re.run r 0 (c :: s) [] Re.accept) as [[e cs]|].
    + intros [= <-]. exists e, cs. by rewrite Nat.sub_0_r.
    + by rewrite search_Bol by lia.
Qed.

(** ** parser.ts: which lines are property lines and id lines *)

(** The key and the value a [key:: value] line carries. *)
Definition propertyOfLine (line : list N) : option (list N * list N) :=
  (λ m, (Parser.grp 1 m, Parser.grp 2 m)) <$> Re.exec Parser.PROPERTY_REGEX (JS.trim line).

(** The text is not empty and has no line terminator in it: what [.+]
    followed by [$] matches to the end. *)
Definition oneLine (v : list N) : bool := JS.truthy v && forallb Re.dot v.

(** The text is not empty and made of [A-Za-z0-9_] only: what [\w+]
    matches. *)
Definition wordKey (k : list N) : bool := JS.truthy k && forallb JS.isWord k.

Lemma PROPERTY_REGEX_matches k v :
  wordKey k = true → oneLine v = true →
  Re.exec Parser.PROPERTY_REGEX (k ++ JS.lit ":: " ++ v) =
    Some (Re.Result 0 (k ++ JS.lit ":: " ++ v) [(2, v); (1, k)]).
Proof.
  unfold wordKey, oneLine. intros [Hk1 Hk2]%andb_true_iff [Hv1 Hv2]%andb_true_iff.
  unfold Re.exec, Parser.PROPERTY_REGEX.
  set (s := k ++ JS.lit ":: " ++ v).
  rewrite (search_here _ 0 s (length s) [(2, v); (1, k)]).
  { by rewrite Nat.sub_0_r, take_ge. }
  rewrite run_Cat, run_Bol. cbv beta. rewrite run_Cat, run_Grp. unfold s.
  apply run_Plus_max; [by destruct k|done|done|].
  rewrite Nat.sub_0_r, Nat.add_0_l, take_app_length.
  rewrite run_Cat, run_Str, run_Cat, run_Grp.
  rewrite <- (app_nil_r v) at 1.
  apply run_Plus_max; [by destruct v|done|done|].
  cbn [Re.run Re.accept].
  replace (_ - _) with (length v) by lia. rewrite take_ge by done.
  unfold Re.accept. rewrite !length_app. do 2 f_equal; lia.
Qed.

Lemma PROPERTY_REGEX_inv s m :
  Re.exec Parser.PROPERTY_REGEX s = Some m →
  ∃ k v, s = k ++ JS.lit ":: " ++ v ∧ wordKey k = true ∧ oneLine v = true ∧
         Re.groups m = [(2, v); (1, k)].
Proof.
  unfold Parser.PROPERTY_REGEX. intros H.
  apply exec_Bol in H as (e & cs & H & ->). cbn [Re.groups].
  rewrite run_Cat, run_Grp in H.
  apply run_Plus_class in H as (k & rest1 & -> & Hk & Hkw & H).
  rewrite run_Cat in H. apply run_Str_inv in H as (rest2 & -> & H).
  rewrite run_Cat, run_Grp in H.
  apply run_Plus_class in H as (v & rest3 & -> & Hv & Hvd & H).
  cbn [Re.run] in H. destruct rest3; [|done].
  unfold Re.accept in H. injection H as <- <-.
  exists k, v. rewrite app_nil_r. split; [done|].
  unfold wordKey, oneLine. rewrite Hkw, Hvd.
  split; [by destruct k|]. split; [by destruct v|].
  rewrite Nat.sub_0_r, take_app_length.
  replace (_ - _) with (length v) by lia. by rewrite take_ge.
Qed.

Lemma ID_REGEX_matches v :
  oneLine v = true →
  Re.exec Parser.ID_REGEX (JS.lit "id:: " ++ v) =
    Some (Re.Result 0 (JS.lit "id:: " ++ v) [(1, v)]).
Proof.
  unfold oneLine. intros [Hv1 Hv2]%andb_true_iff.
  unfold Re.exec, Parser.ID_REGEX.
  set (s := JS.lit "id:: " ++ v).
  rewrite (search_here _ 0 s (length s) [(1, v)]).
  { by rewrite Nat.sub_0_r, take_ge. }
  rewrite run_Cat, run_Bol. cbv beta. rewrite run_Cat. unfold s.
  rewrite run_Str, run_Cat, run_Grp.
  rewrite <- (app_nil_r v) at 1.
  apply run_Plus_max; [by destruct v|done|done|].
  cbn [Re.run Re.accept].
  replace (_ - _) with (length v) by lia. rewrite take_ge by done.
  unfold Re.accept. rewrite !length_app. do 2 f_equal; lia.
Qed.

Lemma ID_REGEX_inv s m :
  Re.exec Parser.ID_REGEX s = Some m →
  ∃ v, s = JS.lit "id:: " ++ v ∧ oneLine v = true ∧ Re.groups m = [(1, v)].
Proof.
  unfold Parser.ID_REGEX. intros H.
  apply exec_Bol in H as (e & cs & H & ->). cbn [Re.groups].
  rewrite run_Cat in H. apply run_Str_inv in H as (rest1 & -> & H).
  rewrite run_Cat, run_Grp in H.
  apply run_Plus_class in H as (v & rest2 & -> & Hv & Hvd & H).
  cbn [Re.run] in H. destruct rest2; [|done].
  unfold Re.accept in H. injection H as <- <-.
  exists v. rewrite app_nil_r. split; [done|].
  unfold oneLine. rewrite Hvd. split; [by destruct v|].
  replace (_ - _) with (length v) by lia. by rewrite take_ge.
Qed.

(** X5. A line is read as a property line exactly when, trimmed, it is
    [key:: value] with a key of one or more characters of [A-Za-z0-9_] and a
    value that is not empty and holds no line terminator; the key and the
    value are taken as they stand. It is read as an id line exactly when,
    trimmed, it is [id:: ] followed by such a value. (A key with a hyphen, as
    in [created-at:: x], or a line with nothing after the two colons, is
    neither.) *)
Theorem property_and_id_lines (line k v : list N) :
  (propertyOfLine line = Some (k, v) ↔
     JS.trim line = k ++ JS.lit ":: " ++ v ∧ wordKey k = true ∧ oneLine v = true) ∧
  (idOfLine line = Some v ↔
     JS.trim line = JS.lit "id:: " ++ v ∧ oneLine v = true).
Proof.
  unfold propertyOfLine, idOfLine, Parser.grp. split; split.
  - destruct (Re.exec Parser.PROPERTY_REGEX (JS.trim line)) as [m|] eqn:E; [|done].
    apply PROPERTY_REGEX_inv in E as (k' & v' & Hs & Hk & Hv & Hg).
    cbn [fmap option_fmap option_map]. rewrite Hg. cbn. intros [= <- <-]. done.
  - intros (-> & Hk & Hv). by rewrite PROPERTY_REGEX_matches.
  - destruct (Re.exec Parser.ID_REGEX (JS.trim line)) as [m|] eqn:E; [|done].
    apply ID_REGEX_inv in E as (v' & Hs & Hv & Hg).
    cbn [fmap option_fmap option_map]. rewrite Hg. cbn. intros [= <-]. done.
  - intros (-> & Hv). by rewrite ID_REGEX_matches.
Qed.

Example property_line_examples :
  propertyOfLine (JS.lit "  tags:: a, b  ") = Some (JS.lit "tags", JS.lit "a, b") ∧
  propertyOfLine (JS.lit "created-at:: today") = None ∧
  propertyOfLine (JS.lit "title:: ") = None ∧
  idOfLine (JS.lit "  id:: 64a1-9f") = Some (JS.lit "64a1-9f").
Proof. by vm_compute. Qed.

(** ** parser.ts: the page properties *)

(** The lines before the first block line. *)
Fixpoint preamble (lines : list (list N)) : list (list N) :=
  match lines with
  | [] => []
  | l :: ls => if isBlockLine l then [] else l :: preamble ls
  end.

Lemma step_frozen st line :
  Parser.isFirstBlock st = false →
  Parser.properties (Parser.step st line) = Parser.properties st ∧
  Parser.isFirstBlock (Parser.step st line) = false.
Proof.
  intros Hf. destruct (isBlockLine line) eqn:Hb.
  - rewrite step_block by done. done.
  - destruct (step_other st line Hb) as (_ & _ & -> & _). split; [|done].
    unfold Parser.step. unfold isBlockLine in Hb. rewrite Hb, Hf.
    destruct (JS.truthy (JS.trim line)); [|done]. cbn [negb andb].
    destruct (Parser.currentBlock st); [|done].
    destruct (Re.exec Parser.ID_REGEX _); [done|].
    by destruct (Re.exec Parser.PROPERTY_REGEX _).
Qed.

Lemma fold_frozen lines : ∀ st,
  Parser.isFirstBlock st = false →
  Parser.properties (fold_left Parser.step lines st) = Parser.properties st.
Proof.
  induction lines as [|l ls IH]; intros st Hf; [done|]. cbn [fold_left].
  destruct (step_frozen st l Hf) as [Hp Hf']. by rewrite IH.
Qed.

Definition setProperty (o : Obj.t) (kv : list N * list N) : Obj.t := Obj.set kv.1 kv.2 o.

Lemma step_preamble st line :
  Parser.isFirstBlock st = true → isBlockLine line = false →
  Parser.properties (Parser.step st line) =
    match propertyOfLine line with
    | Some kv => setProperty (Parser.properties st) kv
    | None => Parser.properties st
    end ∧
  Parser.isFirstBlock (Parser.step st line) = true.
Proof.
  intros Hf Hb. destruct (step_other st line Hb) as (_ & _ & -> & _). split; [|done].
  unfold Parser.step, propertyOfLine. unfold isBlockLine in Hb. rewrite Hb, Hf.
  destruct (JS.trim line) as [|c t] eqn:Ht; [done|]. cbn [JS.truthy negb andb].
  by destruct (Re.exec Parser.PROPERTY_REGEX (c :: t)).
Qed.

Lemma fold_preamble lines : ∀ st,
  Parser.isFirstBlock st = true →
  Parser.properties (fold_left Parser.step lines st) =
    fold_left setProperty (omap propertyOfLine (preamble lines)) (Parser.properties st).
Proof.
  induction lines as [|l ls IH]; intros st Hf; [done|]. cbn [fold_left preamble].
  destruct (isBlockLine l) eqn:Hb.
  - rewrite fold_frozen; rewrite step_block by done; done.
  - destruct (step_preamble st l Hf Hb) as [Hp Hf']. rewrite IH by done.
    rewrite Hp. cbn [omap list_omap]. by destruct (propertyOfLine l).
Qed.

Lemma update_Some k v o o' :
  Obj.update k v o = Some o' → mapGet k o' = Some v ∧ ∀ k', k' ≠ k → mapGet k' o' = mapGet k' o.
Proof.
  revert o'. induction o as [|[k0 v0] o IH]; intros o'; [done|]. cbn [Obj.update].
  destruct (decide (k = k0)) as [->|Hne].
  - intros [= <-]. cbn [mapGet]. split; [by destruct (decide (k0 = k0))|].
    intros k' Hk'. by destruct (decide (k' = k0)).
  - destruct (Obj.update k v o) as [o''|]; [|done]. intros [= <-].
    destruct (IH _ eq_refl) as [H1 H2]. cbn [mapGet].
    split; [by destruct (decide (k = k0))|].
    intros k' Hk'. destruct (decide (k' = k0)); [done|]. by apply H2.
Qed.

Lemma update_None k v o : Obj.update k v o = None → mapGet k o = None.
Proof.
  induction o as [|[k0 v0] o IH]; [done|]. cbn [Obj.update mapGet].
  destruct (decide (k = k0)); [done|].
  destruct (Obj.update k v o); [done|]. intros _. by apply IH.
Qed.

Lemma mapGet_app {V} k (o1 o2 : list (list N * V)) :
  mapGet k (o1 ++ o2) = match mapGet k o1 with Some v => Some v | None => mapGet k o2 end.
Proof.
  induction o1 as [|[k0 v0] o1 IH]; [done|]. cbn [app mapGet].
  by destruct (decide (k = k0)).
Qed.

(** Insert and look up in a dictionary object. *)
Lemma mapGet_set k v o k' :
  k ≠ JS.lit "__proto__" →
  mapGet k' (Obj.set k v o) = if decide (k' = k) then Some v else mapGet k' o.
Proof.
  intros Hp. unfold Obj.set. rewrite decide_False by done.
  destruct (Obj.update k v o) as [o'|] eqn:E.
  - destruct (update_Some _ _ _ _ E) as [H1 H2].
    destruct (decide (k' = k)) as [->|Hne]; [done|]. by apply H2.
  - apply update_None in E. rewrite mapGet_app. cbn [mapGet].
    destruct (decide (k' = k)) as [->|Hne]; [by rewrite E|].
    by destruct (mapGet k' o).
Qed.

Lemma mapGet_fold k kvs : ∀ o,
  k ≠ JS.lit "__proto__" →
  mapGet k (fold_left setProperty kvs o) =
    match last (filter (λ kv, kv.1 = k) kvs) with
    | Some kv => Some kv.2
    | None => mapGet k o
    end.
Proof.
  induction kvs as [|[k0 v0] kvs IH]; intros o Hk; [done|].
  cbn [fold_left]. rewrite IH by done. rewrite filter_cons. cbn [fst].
  unfold setProperty at 1. cbn [fst snd].
  destruct (decide (k0 = k)) as [->|Hne].
  - rewrite mapGet_set by done. rewrite decide_True by done.
    destruct (filter _ kvs) as [|kv l] eqn:E; [done|].
    rewrite last_cons_cons. destruct (last (kv :: l)) eqn:E'; [done|].
    by apply last_None in E'.
  - destruct (last (filter _ kvs)); [done|].
    destruct (decide (k0 = JS.lit "__proto__")) as [->|Hp].
    + unfold Obj.set. by rewrite decide_True.
    + rewrite mapGet_set by done. by rewrite decide_False.
Qed.

(** X6. The page properties are set by the property lines that come before
    the first block line, in their order, and by nothing else: once a block
    line has been read no line changes them. For a key (other than
    [__proto__]) the value is the one of the last such line with that key. *)
Theorem page_properties_from_preamble (file : LogseqFile) :
  let header := omap propertyOfLine (preamble (JS.split 10 (file_content file))) in
  pf_properties (parseLogseqFile file) = fold_left setProperty header [] ∧
  ∀ k, k ≠ JS.lit "__proto__" →
    mapGet k (pf_properties (parseLogseqFile file)) =
      snd <$> last (filter (λ kv, kv.1 = k) header).
Proof.
  intros header.
  assert (H : pf_properties (parseLogseqFile file) = fold_left setProperty header []).
  { unfold parseLogseqFile, Parser.run. cbn [pf_properties].
    by rewrite fold_preamble. }
  split; [done|]. intros k Hk. rewrite H, mapGet_fold by done.
  by destruct (last _).
Qed.

Lemma page_properties_from_preamble_witness :
  mapGet (JS.lit "tags")
    (pf_properties (parseLogseqFile
       {| file_path := JS.lit "p.md";
          file_content := JS.lit "tags:: a
alias:: b
tags:: c
- block
  tags:: d" |})) = Some (JS.lit "c").
Proof.
  destruct (page_properties_from_preamble
    {| file_path := JS.lit "p.md";
       file_content := JS.lit "tags:: a
alias:: b
tags:: c
- block
  tags:: d" |}) as [_ H].
  rewrite (H (JS.lit "tags")) by (by vm_compute). by vm_compute.
Defined.

(** ** parser.ts: what every parsed block looks like *)

Lemma drop_while_head p s c :
  head (JS.drop_while p s) = Some c → p c = false.
Proof.
  induction s as [|c' s IH]; [done|]. cbn [JS.drop_while].
  destruct (p c') eqn:E; [done|]. by intros [= <-].
Qed.

Lemma last_rev {A} (l : list A) : last (rev l) = head l.
Proof. destruct l as [|x l]; [done|]. cbn [rev head]. apply last_snoc. Qed.

(** A trimmed text does not end in white space. *)
Lemma trim_last s c : last (JS.trim s) = Some c → JS.isWhiteSpace c = false.
Proof. unfold JS.trim. rewrite last_rev. apply drop_while_head. Qed.

(** The content, the id and the properties of a block the parser has
    built: the content is not empty and does not end in white space; the id,
    when there is one, and every property value are not empty and hold no
    line terminator; the property keys are words, and none of them is
    [id]. *)
Definition wellFormedBlock (o : BlockObj) : Prop :=
  o_content o ≠ [] ∧
  (∀ c, last (o_content o) = Some c → JS.isWhiteSpace c = false) ∧
  from_option (λ u, oneLine u = true) True (o_id o) ∧
  Forall (λ kv, wordKey kv.1 = true ∧ kv.1 ≠ JS.lit "id" ∧ oneLine kv.2 = true)
         (o_properties o).

Lemma update_Forall (P : list N * list N → Prop) k v o o' :
  Obj.update k v o = Some o' → P (k, v) → Forall P o → Forall P o'.
Proof.
  revert o'. induction o as [|[k0 v0] o IH]; intros o'; [done|]. cbn [Obj.update].
  destruct (decide (k = k0)) as [->|Hne].
  - intros [= <-] Hkv [_ Ho]%Forall_cons. by constructor.
  - destruct (Obj.update k v o) as [o''|]; [|done]. intros [= <-] Hkv [H0 Ho]%Forall_cons.
    constructor; [done|]. by apply IH.
Qed.

Lemma set_Forall (P : list N * list N → Prop) k v o :
  P (k, v) → Forall P o → Forall P (Obj.set k v o).
Proof.
  intros Hkv Ho. unfold Obj.set. destruct (decide _); [done|].
  destruct (Obj.update k v o) as [o'|] eqn:E.
  - by eapply update_Forall.
  - apply Forall_app. split; [done|]. by constructor.
Qed.

Lemma block_line_content line :
  isBlockLine line = true →
  let content := JS.substringFrom (JS.trim line) 2 in
  content ≠ [] ∧ ∀ c, last content = Some c → JS.isWhiteSpace c = false.
Proof.
  unfold isBlockLine, JS.substringFrom. intros Hb.
  pose proof (trim_last line) as Hlast.
  change (JS.lit "- ") with [45%N; 32%N] in Hb.
  destruct (JS.trim line) as [|c1 [|c2 t]];
    [done|cbn [JS.startsWith] in Hb; by destruct (45 =? c1)%N|].
  cbn [JS.startsWith] in Hb. apply andb_true_iff in Hb as [H1 H2].
  apply andb_true_iff in H2 as [H2 _].
  apply N.eqb_eq in H1 as <-. apply N.eqb_eq in H2 as <-. cbn [drop].
  destruct t as [|c3 t].
  - by specialize (Hlast _ eq_refl).
  - split; [done|]. intros c Hc. apply Hlast. by rewrite !last_cons_cons.
Qed.

Lemma step_wellFormed st line :
  Forall wellFormedBlock (Parser.heap st) →
  Forall wellFormedBlock (Parser.heap (Parser.step st line)).
Proof.
  intros Hh. destruct (isBlockLine line) eqn:Hb.
  - rewrite step_block by done. unfold openBlock. cbn [Parser.heap].
    assert (Hnew : Forall wellFormedBlock
              (Parser.heap st ++
               [{| o_id := None; o_content := JS.substringFrom (JS.trim line) 2;
                   o_properties := []; o_children := [];
                   o_level := (Z.of_nat (Parser.indentationOf line) # 2)%Q |}])).
    { apply Forall_app. split; [done|]. constructor; [|done].
      destruct (block_line_content line Hb) as [H1 H2].
      split; [done|]. split; [done|]. split; [done|]. by constructor. }
    destruct (Parser.popWhile _ _ _); [done|].
    apply Forall_alter; [done|]. by intros o _ (? & ? & ? & ?).
  - unfold Parser.step. unfold isBlockLine in Hb. rewrite Hb.
    destruct (JS.truthy (JS.trim line)); [|done]. cbn [negb andb].
    rewrite andb_true_r.
    destruct (Parser.isFirstBlock st).
    { by destruct (Re.exec Parser.PROPERTY_REGEX _). }
    destruct (Parser.currentBlock st) as [cb|]; [|done].
    destruct (Re.exec Parser.ID_REGEX (JS.trim line)) as [idMatch|] eqn:Eid.
    { cbn [Parser.heap]. apply Forall_alter; [done|].
      intros o _ (? & ? & ? & ?). split; [done|]. split; [done|]. split; [|done].
      apply ID_REGEX_inv in Eid as (v & _ & Hv & Hg).
      unfold Parser.grp. rewrite Hg. done. }
    destruct (Re.exec Parser.PROPERTY_REGEX (JS.trim line)) as [propMatch|] eqn:Ep;
      [|done].
    cbn [Parser.heap]. apply Forall_alter; [done|].
    intros o _ (? & ? & ? & ?). split; [done|]. split; [done|]. split; [done|].
    cbn [Parser.setProperty o_properties]. apply set_Forall; [|done].
    apply PROPERTY_REGEX_inv in Ep as (k & v & Hs & Hk & Hv & Hg).
    unfold Parser.grp. rewrite Hg. cbn. split; [done|]. split; [|done].
    intros ->. rewrite Hs in Eid.
    change (JS.lit "id" ++ JS.lit ":: " ++ v) with (JS.lit "id:: " ++ v) in Eid.
    by rewrite ID_REGEX_matches in Eid.
Qed.

Lemma run_wellFormed content : Forall wellFormedBlock (Parser.heap (Parser.run content)).
Proof.
  unfold Parser.run. generalize (JS.split 10 content). intros lines.
  assert (H : Forall wellFormedBlock (Parser.heap Parser.init)) by constructor.
  revert H. generalize Parser.init.
  induction lines as [|l ls IH]; intros st Hst; [done|].
  cbn [fold_left]. by apply IH, step_wellFormed.
Qed.

(** X7. Every block [parseLogseqFile] returns has a content that is not
    empty and does not end in white space; its id is [null] or a text that
    is not empty; its property keys are words, none of them [id] (an
    [id:: ] line always goes to the id), and its property values are not
    empty. *)
Theorem parsed_blocks_well_formed (file : LogseqFile) :
  Forall wellFormedBlock (pf_heap (parseLogseqFile file)).
Proof. apply run_wellFormed. Qed.

(** ** parser.ts: the graph *)

(** The blocks of a tree and of a list of trees, in document order (a block
    before its children, the children in their order). *)
Fixpoint flattenBlock (b : LogseqBlock) : list LogseqBlock :=
  b :: (fix below (bs : list LogseqBlock) : list LogseqBlock :=
          match bs with
          | [] => []
          | c :: bs' => flattenBlock c ++ below bs'
          end) (blk_children b).

Fixpoint flattenBlocks (bs : list LogseqBlock) : list LogseqBlock :=
  match bs with
  | [] => []
  | c :: bs' => flattenBlock c ++ flattenBlocks bs'
  end.

Lemma flattenBlock_eq b : flattenBlock b = b :: flattenBlocks (blk_children b).
Proof.
  by destruct b.
Qed.

(** All blocks of all files, in reading order. *)
Definition allBlocks (files : list LogseqFile) : list LogseqBlock :=
  flat_map (λ file, flattenBlocks (page_blocks (pageOfFile file))) files.

(** [if (block.id) graph.blocks.set(block.id, block)] *)
Definition indexBlock (index : gmap (list N) LogseqBlock) (block : LogseqBlock)
    : gmap (list N) LogseqBlock :=
  match blk_id block with
  | Some u => if JS.truthy u then <[u := block]> index else index
  | None => index
  end.

Lemma recursivelyFindBlock_flat block : ∀ index,
  recursivelyFindBlock block index = fold_left indexBlock (flattenBlock block) index.
Proof.
  induction block as [id content properties children level IH] using LogseqBlock_tree_ind.
  intros index. rewrite flattenBlock_eq.
  cbn [recursivelyFindBlock blk_id blk_children fold_left].
  change (match id with
          | Some u => if JS.truthy u then <[u:=mkLogseqBlock id content properties children level]> index else index
          | None => index
          end)
    with (indexBlock index (mkLogseqBlock id content properties children level)).
  generalize (indexBlock index (mkLogseqBlock id content properties children level)).
  induction IH as [|c cs Hc _ IHcs]; intros index'; [done|].
  cbn [fold_left flattenBlocks]. rewrite fold_left_app, <- Hc. apply IHcs.
Qed.

Lemma recursivelyFindBlocks_flat bs : ∀ index,
  recursivelyFindBlocks bs index = fold_left indexBlock (flattenBlocks bs) index.
Proof.
  unfold recursivelyFindBlocks. induction bs as [|b bs IH]; intros index; [done|].
  cbn [fold_left flattenBlocks]. by rewrite fold_left_app, <- recursivelyFindBlock_flat, IH.
Qed.

Lemma graph_blocks_fold files : ∀ graph,
  graph_blocks
    (fold_left
       (λ graph file,
          let page := pageOf (parseLogseqFile file) in
          {| graph_pages := mapSet (page_name page) page (graph_pages graph);
             graph_blocks := recursivelyFindBlocks (page_blocks page) (graph_blocks graph) |})
       files graph) =
  fold_left indexBlock (allBlocks files) (graph_blocks graph).
Proof.
  induction files as [|file files IH]; intros graph; [done|].
  cbn [fold_left]. rewrite IH. cbn [graph_blocks].
  unfold allBlocks. cbn [flat_map]. rewrite fold_left_app.
  by rewrite recursivelyFindBlocks_flat.
Qed.

Lemma index_lookup u blocks : ∀ index,
  fold_left indexBlock blocks index !! u =
    if JS.truthy u then
      match last (filter (λ b, blk_id b = Some u) blocks) with
      | Some b => Some b
      | None => index !! u
      end
    else index !! u.
Proof.
  induction blocks as [|b bs IH]; intros index.
  - by destruct (JS.truthy u).
  - cbn [fold_left]. rewrite IH. rewrite filter_cons.
    destruct (JS.truthy u) eqn:Hu.
    + destruct (decide (blk_id b = Some u)) as [Hb|Hb].
      * destruct (filter _ bs) as [|b' l] eqn:E.
        -- cbn [last]. unfold indexBlock. rewrite Hb, Hu. apply lookup_insert_eq.
        -- rewrite last_cons_cons. destruct (last (b' :: l)) eqn:E'; [done|].
           by apply last_None in E'.
      * destruct (last (filter _ bs)); [done|].
        unfold indexBlock. destruct (blk_id b) as [u'|]; [|done].
        destruct (JS.truthy u'); [|done].
        apply lookup_insert_ne. by intros ->.
    + unfold indexBlock. destruct (blk_id b) as [u'|]; [|done].
      destruct (JS.truthy u') eqn:Hu'; [|done].
      apply lookup_insert_ne. intros ->. congruence.
Qed.

Lemma graph_blocks_lookup (files : list LogseqFile) (u : list N) :
  graph_blocks (parseLogseqGraph files) !! u =
    if JS.truthy u
    then last (filter (λ b, blk_id b = Some u) (allBlocks files))
    else None.
Proof.
  unfold parseLogseqGraph. rewrite graph_blocks_fold. cbn [graph_blocks].
  rewrite index_lookup. destruct (JS.truthy u); [|done].
  by destruct (last _).
Qed.

(** X8. The block index of the graph holds, under every id that is not
    empty, the last block in reading order (file after file, each file
    from top to bottom) that carries this id: when an id occurs twice the
    later block replaces the earlier one, also across files and also when
    the page of the earlier file has itself been replaced. *)
Theorem graph_blocks_last_wins (files : list LogseqFile) (u : list N) :
  graph_blocks (parseLogseqGraph files) !! u =
    if JS.truthy u
    then last (filter (λ b, blk_id b = Some u) (allBlocks files))
    else None.
Proof. apply graph_blocks_lookup. Qed.

(** The names in the order in which they first occur. *)
Definition firstOccurrences (names : list (list N)) : list (list N) :=
  fold_left (λ seen name, if decide (name ∈ seen) then seen else seen ++ [name]) names [].

Lemma mapGet_mapSet {V} k (v : V) m k' :
  mapGet k' (mapSet k v m) = if decide (k' = k) then Some v else mapGet k' m.
Proof.
  induction m as [|[k0 v0] m IH]; cbn [mapSet mapGet]; [done|].
  destruct (decide (k = k0)) as [->|Hne]; cbn [mapGet].
  - by destruct (decide (k' = k0)).
  - rewrite IH. destruct (decide (k' = k0)) as [->|]; [|done].
    by rewrite decide_False by done.
Qed.

Lemma keys_mapSet {V} k (v : V) m :
  fst <$> mapSet k v m =
    if decide (k ∈ (fst <$> m)) then fst <$> m else (fst <$> m) ++ [k].
Proof.
  induction m as [|[k0 v0] m IH]; cbn [mapSet]; [done|].
  rewrite !fmap_cons. cbn [fst].
  destruct (decide (k = k0)) as [->|Hne].
  - rewrite decide_True by left. done.
  - rewrite fmap_cons, IH. cbn [fst].
    destruct (decide (k ∈ (fst <$> m))) as [Hin|Hnin].
    + rewrite decide_True by (by right). done.
    + rewrite decide_False; [done|]. by intros [?|?]%elem_of_cons.
Qed.

Definition addPage (graph : LogseqGraph) (file : LogseqFile) : LogseqGraph :=
  let page := pageOf (parseLogseqFile file) in
  {| graph_pages := mapSet (page_name page) page (graph_pages graph);
     graph_blocks := recursivelyFindBlocks (page_blocks page) (graph_blocks graph) |}.

Lemma pages_lookup name files : ∀ graph,
  mapGet name (graph_pages (fold_left addPage files graph)) =
    match last (filter (λ p, page_name p = name) (pageOfFile <$> files)) with
    | Some p => Some p
    | None => mapGet name (graph_pages graph)
    end.
Proof.
  induction files as [|file files IH]; intros graph; [done|].
  cbn [fold_left]. rewrite IH. rewrite fmap_cons, filter_cons.
  destruct (decide (page_name (pageOfFile file) = name)) as [Hn|Hn].
  - destruct (filter _ (pageOfFile <$> files)) as [|p l] eqn:E.
    + cbn [last]. unfold addPage. cbn [graph_pages]. rewrite mapGet_mapSet.
      by rewrite decide_True.
    + rewrite last_cons_cons. destruct (last (p :: l)) eqn:E'; [done|].
      by apply last_None in E'.
  - destruct (last (filter _ _)); [done|].
    unfold addPage. cbn [graph_pages]. rewrite mapGet_mapSet.
    by rewrite decide_False.
Qed.

Lemma pages_keys files : ∀ graph,
  fst <$> graph_pages (fold_left addPage files graph) =
    fold_left (λ seen name, if decide (name ∈ seen) then seen else seen ++ [name])
      (page_name ∘ pageOfFile <$> files) (fst <$> graph_pages graph).
Proof.
  induction files as [|file files IH]; intros graph; [done|].
  cbn [fold_left]. rewrite IH. rewrite fmap_cons. cbn [fold_left].
  unfold addPage. cbn [graph_pages]. by rewrite keys_mapSet.
Qed.

Lemma firstOccurrences_NoDup (names : list (list N)) : ∀ seen,
  NoDup seen →
  NoDup (fold_left (λ seen name, if decide (name ∈ seen) then seen else seen ++ [name])
           names seen).
Proof.
  induction names as [|n names IH]; intros seen Hnd; [done|]. cbn [fold_left].
  apply IH. destruct (decide (n ∈ seen)); [done|].
  apply NoDup_app. split; [done|]. split; [|apply NoDup_singleton].
  intros x Hx ->%list_elem_of_singleton. done.
Qed.

(** X9. The page map of the graph has one entry for every page name that
    occurs, in the order in which the names first occur among the files, and
    the page under a name is the one of the last file with that name: a
    later file with the same page name (the same file name in another
    folder, say) replaces the page and keeps the place of the first. *)
Theorem graph_pages_last_wins (files : list LogseqFile) :
  let graph := parseLogseqGraph files in
  let pages := pageOfFile <$> files in
  (∀ name, mapGet name (graph_pages graph) =
             last (filter (λ p, page_name p = name) pages)) ∧
  fst <$> graph_pages graph = firstOccurrences (page_name <$> pages) ∧
  NoDup (fst <$> graph_pages graph).
Proof.
  intros graph pages.
  assert (Hk : fst <$> graph_pages graph = firstOccurrences (page_name <$> pages)).
  { unfold graph, parseLogseqGraph. change (fold_left _ files ?g) with (fold_left addPage files g).
    rewrite pages_keys. unfold firstOccurrences, pages. by rewrite <- list_fmap_compose. }
  split; [|split; [done|]].
  - intros name. unfold graph, parseLogseqGraph.
    change (fold_left _ files ?g) with (fold_left addPage files g).
    rewrite pages_lookup. by destruct (last _).
  - rewrite Hk. apply firstOccurrences_NoDup. constructor.
Qed.

(** ** From the parser to the scanner: references into a parsed graph *)

Lemma trees_length objs : ∀ i, length (Parser.trees i objs) = length objs.
Proof. induction objs as [|o objs IH]; intros i; [done|]. cbn. by rewrite IH. Qed.

Lemma elem_of_flattenBlocks b bs :
  b ∈ flattenBlocks bs → ∃ c, c ∈ bs ∧ b ∈ flattenBlock c.
Proof.
  induction bs as [|c bs IH]; cbn [flattenBlocks]; [by intros ?%elem_of_nil|].
  intros [H|H]%elem_of_app.
  - exists c. split; [left|done].
  - destruct (IH H) as (c' & ? & ?). exists c'. split; [by right|done].
Qed.

(** Every block of the page of a file is the snapshot of an object of the
    heap the parser has built. *)
Lemma page_block_origin (file : LogseqFile) (b : LogseqBlock) :
  b ∈ flattenBlocks (page_blocks (pageOfFile file)) →
  ∃ o, o ∈ pf_heap (parseLogseqFile file) ∧
       blk_id b = o_id o ∧ blk_content b = o_content o ∧
       blk_properties b = o_properties o ∧ blk_level b = o_level o.
Proof.
  destruct (snapshot_faithful file) as [Hroots Hall].
  set (h := pf_heap (parseLogseqFile file)) in *.
  assert (Hdesc : ∀ t i, Parser.treeOf h i = Some t →
            ∀ b', b' ∈ flattenBlock t → ∃ i', Parser.treeOf h i' = Some b').
  { induction t as [id content properties children level IH] using LogseqBlock_tree_ind.
    intros i Hi b'. rewrite flattenBlock_eq. intros [->|Hin]%elem_of_cons; [eauto|].
    apply elem_of_flattenBlocks in Hin as (c & Hc & Hb').
    assert (Hlt : i < length h).
    { apply lookup_lt_Some in Hi. by rewrite trees_length in Hi. }
    destruct (lookup_lt_is_Some_2 h i Hlt) as [o Ho].
    destruct (Hall i o Ho) as (t' & Ht' & _ & _ & _ & _ & Hkids).
    rewrite Hi in Ht'. injection Ht' as <-. cbn [blk_children] in *.
    apply list_elem_of_lookup in Hc as (n & Hn).
    destruct (Forall2_lookup_r _ _ _ _ _ Hkids Hn) as (ci & _ & Hci).
    rewrite Forall_forall in IH. apply (IH c (list_elem_of_lookup_2 _ _ _ Hn) ci Hci b' Hb'). }
  intros Hb. apply elem_of_flattenBlocks in Hb as (t & Ht & Hb).
  unfold pageOfFile in Ht.
  apply list_elem_of_lookup in Ht as (n & Hn).
  destruct (Forall2_lookup_r _ _ _ _ _ Hroots Hn) as (r & _ & Hr).
  destruct (Hdesc t r Hr b Hb) as (i' & Hi').
  assert (Hlt : i' < length h).
  { apply lookup_lt_Some in Hi'. by rewrite trees_length in Hi'. }
  destruct (lookup_lt_is_Some_2 h i' Hlt) as [o Ho].
  destruct (Hall i' o Ho) as (t' & Ht' & ? & ? & ? & ? & _).
  rewrite Hi' in Ht'. injection Ht' as <-.
  exists o. split; [by eapply list_elem_of_lookup_2|]. done.
Qed.

(** X10. In a graph built by [parseLogseqGraph] a block found in the index
    under an id carries that id and has a content that is not empty, so the
    scanner resolves a reference or an embed of this id to the text of the
    block itself: for the blocks the parser builds, the not-found
    placeholder is only ever shown for ids that are not in the index. *)
Theorem parsed_reference_resolves (files : list LogseqFile) (u : list N)
    (b : LogseqBlock) :
  graph_blocks (parseLogseqGraph files) !! u = Some b →
  blk_id b = Some u ∧ blk_content b ≠ [] ∧
  Importer.resolve (parseLogseqGraph files) u = blk_content b.
Proof.
  intros Hu. pose proof Hu as Hlook. rewrite graph_blocks_lookup in Hlook.
  destruct (JS.truthy u); [|done].
  apply last_Some in Hlook as (l' & Hl).
  assert (Hb : b ∈ filter (λ b, blk_id b = Some u) (allBlocks files)).
  { rewrite Hl. apply elem_of_app. right. left. }
  apply list_elem_of_filter in Hb as [Hid Hb].
  unfold allBlocks in Hb. apply list_elem_of_In, in_flat_map in Hb as (file & _ & Hb).
  apply list_elem_of_In in Hb.
  apply page_block_origin in Hb as (o & Ho & _ & Hc & _).
  pose proof (run_wellFormed (file_content file)) as Hwf.
  rewrite Forall_forall in Hwf. destruct (Hwf o Ho) as (Hne & _).
  rewrite <- Hc in Hne.
  split; [done|]. split; [done|].
  unfold Importer.resolve. rewrite Hu. by destruct (blk_content b).
Qed.

Lemma parsed_reference_resolves_witness :
  Importer.resolve fooGraph (JS.lit "abc-123") = JS.lit "First block".
Proof.
  assert (H : graph_blocks (parseLogseqGraph [fooFile]) !! JS.lit "abc-123" =
              Some {| blk_id := Some (JS.lit "abc-123");
                      blk_content := JS.lit "First block"; blk_properties := [];
                      blk_children := []; blk_level := 0 # 2 |}) by (by vm_compute).
  destruct (parsed_reference_resolves _ _ _ H) as (_ & _ & Hr). exact Hr.
Defined.

(** ** The inline-syntax scanner: what the fragments are *)

Section FragmentShapes.

Variable content : list N.
Variable graph : LogseqGraph.
Variable assetPathMap : gmap (list N) (list N).

(** The fragments the scanner pushes: the flushed buffer, a resolved block
    reference, a page reference, or the fragment of an attachment match. *)
Definition Pushed (fr : ContentFragment) : Prop :=
  (∃ s, s ≠ [] ∧ fr = textFragment s) ∨
  (∃ u, fr = blockRefFragment (Importer.resolve graph u) u) ∨
  (∃ name, fr = pageRefFragment name) ∨
  (∃ m, fr = Importer.attachmentFragment assetPathMap m).

Lemma blockEmbed_pushed st remaining st' :
  Importer.blockEmbed graph st remaining = Some st' →
  ∃ fr n, st' = Importer.emit st fr n ∧ Pushed fr.
Proof.
  unfold Importer.blockEmbed. destruct (JS.startsWith _ _); [|done].
  destruct (JS.indexOf _ _); [|done]. intros [= <-].
  eexists _, _. split; [done|]. right. left. eauto.
Qed.

Lemma blockReference_pushed st remaining st' :
  Importer.blockReference graph st remaining = Some st' →
  ∃ fr n, st' = Importer.emit st fr n ∧ Pushed fr.
Proof.
  unfold Importer.blockReference. destruct (JS.startsWith _ _); [|done].
  destruct (JS.indexOf _ _); [|done]. intros [= <-].
  eexists _, _. split; [done|]. right. left. eauto.
Qed.

Lemma pageLink_pushed st remaining st' :
  Importer.pageLink st remaining = Some st' →
  ∃ fr n, st' = Importer.emit st fr n ∧ Pushed fr.
Proof.
  unfold Importer.pageLink. destruct (_ || _); [|done].
  destruct (JS.indexOf _ _); [|done]. intros [= <-].
  eexists _, _. split; [done|]. right. right. left. eauto.
Qed.

Lemma simpleTag_pushed st remaining st' :
  Importer.simpleTag st remaining = Some st' →
  ∃ fr n, st' = Importer.emit st fr n ∧ Pushed fr.
Proof.
  unfold Importer.simpleTag. destruct (Re.exec _ _); [|done]. intros [= <-].
  eexists _, _. split; [done|]. right. right. left. eauto.
Qed.

Lemma attachment_pushed st remaining st' :
  Importer.attachment assetPathMap st remaining = Some st' →
  ∃ fr n, st' = Importer.emit st fr n ∧ Pushed fr.
Proof.
  unfold Importer.attachment. destruct (Re.exec _ _); [|done]. intros [= <-].
  eexists _, _. split; [done|]. right. right. right. eauto.
Qed.

Lemma body_pushes st :
  (∃ fr n, Importer.body content graph assetPathMap st = Importer.emit st fr n ∧ Pushed fr) ∨
  Importer.body content graph assetPathMap st =
    Importer.accumulate st (JS.substringFrom content (Importer.i st)).
Proof.
  unfold Importer.body.
  destruct (Importer.blockEmbed _ _ _) eqn:E1; [left; by eapply blockEmbed_pushed|].
  destruct (Importer.blockReference _ _ _) eqn:E2; [left; by eapply blockReference_pushed|].
  destruct (Importer.pageLink _ _) eqn:E3; [left; by eapply pageLink_pushed|].
  destruct (Importer.simpleTag _ _) eqn:E4; [left; by eapply simpleTag_pushed|].
  destruct (Importer.attachment _ _ _) eqn:E5; [left; by eapply attachment_pushed|].
  by right.
Qed.

Lemma flushBuffer_pushed st :
  Forall Pushed (Importer.fragments st) →
  Forall Pushed (Importer.fragments (Importer.flushBuffer st)).
Proof.
  unfold Importer.flushBuffer. destruct (JS.truthy (Importer.buffer st)) eqn:E; [|done].
  cbn [Importer.fragments]. intros H. apply Forall_app. split; [done|].
  constructor; [|done]. left. exists (Importer.buffer st). split; [|done].
  by destruct (Importer.buffer st).
Qed.

Lemma loop_pushed fuel : ∀ st st',
  Importer.loop content graph assetPathMap fuel st = Some st' →
  Forall Pushed (Importer.fragments st) →
  Forall Pushed (Importer.fragments st').
Proof.
  induction fuel as [|fuel IH]; intros st st'; cbn [Importer.loop].
  - destruct (_ <=? _); [|done]. by intros [= <-].
  - destruct (_ <=? _); [by intros [= <-]|].
    intros Hloop H. apply (IH _ _ Hloop).
    destruct (body_pushes st) as [(fr & n & -> & Hfr)| ->]; [|done].
    unfold Importer.emit. cbn [Importer.fragments].
    apply Forall_app. split; [by apply flushBuffer_pushed|]. by constructor.
Qed.

Lemma parseContentToFragments_pushed :
  ∃ frs, Importer.parseContentToFragments content graph assetPathMap = Some frs ∧
         Forall Pushed frs.
Proof.
  destruct (parseContentToFragments_total content graph assetPathMap) as [frs Hfrs].
  exists frs. split; [done|]. unfold Importer.parseContentToFragments in Hfrs.
  destruct (Importer.loop _ _ _ _ _) as [st'|] eqn:Hloop; [|done].
  injection Hfrs as <-. apply flushBuffer_pushed.
  apply (loop_pushed _ _ _ Hloop). constructor.
Qed.

End FragmentShapes.

(** X11. Whatever the text and the graph, the scanner returns only
    fragments of type [t], [r] or [i], and it never invents a target: the
    path of every image fragment and the link of every link fragment is a
    value the asset map holds for some key (and the link opens in [_blank]).
    With an empty asset map there is no image and no link fragment at all:
    every attachment becomes plain text. *)
Theorem scanner_targets_come_from_asset_map (content : list N) (graph : LogseqGraph)
    (assetPathMap : gmap (list N) (list N)) :
  ∃ frs, Importer.parseContentToFragments content graph assetPathMap = Some frs ∧
    Forall (λ fr,
      (cf_t fr = JS.lit "t" ∨ cf_t fr = JS.lit "r" ∨
       (cf_t fr = JS.lit "i" ∧ ∃ k, assetPathMap !! k = Some (cf_v fr))) ∧
      from_option (λ fa, (∃ k, assetPathMap !! k = Some fa.1) ∧ fa.2 = JS.lit "_blank")
                  True (cf_fa fr)) frs.
Proof.
  destruct (parseContentToFragments_pushed content graph assetPathMap) as (frs & Hfrs & Hp).
  exists frs. split; [done|]. eapply Forall_impl; [exact Hp|].
  intros fr [(s & _ & ->)|[(u & ->)|[(name & ->)|(m & ->)]]]; cbn; try by eauto.
  unfold Importer.attachmentFragment.
  destruct (assetPathMap !! _) as [newPath|] eqn:E; [|cbn; by eauto].
  destruct (JS.truthy newPath); [|cbn; by eauto].
  destruct (Re.test _ _).
  - destruct (Re.group 5 _) as [a|]; [destruct (JS.truthy a)|]; cbn; eauto 10.
  - cbn. eauto 10.
Qed.

(** ** The inline-syntax scanner: the cursor stays inside the text *)

Lemma startsWith_eq p : ∀ s, JS.startsWith p s = true → s = p ++ drop (length p) s.
Proof.
  induction p as [|c p IH]; intros s; [done|]. destruct s as [|c' s]; [done|].
  cbn [JS.startsWith length drop app]. intros [Hc Hp]%andb_true_iff.
  apply N.eqb_eq in Hc as <-. f_equal. by apply IH.
Qed.

Lemma startsWith_length p s : JS.startsWith p s = true → length p ≤ length s.
Proof.
  intros H. rewrite (startsWith_eq p s H), length_app. lia.
Qed.

Lemma indexOf_spec needle s : ∀ e,
  JS.indexOf needle s = Some e →
  JS.startsWith needle (drop e s) = true ∧ e ≤ length s.
Proof.
  induction s as [|c s IH]; intros e; cbn [JS.indexOf].
  - destruct (JS.startsWith needle []) eqn:E; [|done]. intros [= <-]. done.
  - destruct (JS.startsWith needle (c :: s)) eqn:E.
    + intros [= <-]. split; [done|lia].
    + destruct (JS.indexOf needle s) as [e'|]; [|done]. cbn. intros [= <-].
      destruct (IH e' eq_refl) as [H1 H2]. split; [done|]. cbn. lia.
Qed.

Lemma indexOf_bound needle s e :
  JS.indexOf needle s = Some e → e + length needle ≤ length s.
Proof.
  intros H. apply indexOf_spec in H as [H1 H2].
  apply startsWith_length in H1. rewrite length_drop in H1. lia.
Qed.

Lemma exec_bound r s m : Re.exec r s = Some m → length (Re.matched m) ≤ length s.
Proof.
  unfold Re.exec. intros H. apply search_inv in H as (d & e & cs & Hd & _ & ->).
  cbn [Re.matched]. rewrite length_take, length_drop. lia.
Qed.

Section Cursor.

Variable content : list N.
Variable graph : LogseqGraph.
Variable assetPathMap : gmap (list N) (list N).

Lemma recognizers_within st remaining st' :
  Importer.blockEmbed graph st remaining = Some st' ∨
  Importer.blockReference graph st remaining = Some st' ∨
  Importer.pageLink st remaining = Some st' ∨
  Importer.simpleTag st remaining = Some st' ∨
  Importer.attachment assetPathMap st remaining = Some st' →
  Importer.i st' ≤ Importer.i st + length remaining.
Proof.
  unfold Importer.blockEmbed, Importer.blockReference, Importer.pageLink,
    Importer.simpleTag, Importer.attachment.
  intros [H|[H|[H|[H|H]]]].
  - destruct (JS.startsWith _ _); [|done].
    destruct (JS.indexOf _ _) eqn:E; [|done]. injection H as <-.
    apply indexOf_bound in E. change (length (JS.lit "))}}")) with 4 in E.
    rewrite emit_i. lia.
  - destruct (JS.startsWith _ _); [|done].
    destruct (JS.indexOf _ _) eqn:E; [|done]. injection H as <-.
    apply indexOf_bound in E. change (length (JS.lit "))")) with 2 in E.
    rewrite emit_i. lia.
  - destruct (_ || _); [|done].
    destruct (JS.indexOf _ _) eqn:E; [|done]. injection H as <-.
    apply indexOf_bound in E. change (length (JS.lit "]]")) with 2 in E.
    rewrite emit_i. lia.
  - destruct (Re.exec _ _) eqn:E; [|done]. injection H as <-.
    apply exec_bound in E. rewrite emit_i. lia.
  - destruct (Re.exec _ _) eqn:E; [|done]. injection H as <-.
    apply exec_bound in E. rewrite emit_i. lia.
Qed.

Lemma body_within st :
  Importer.i st < length content →
  Importer.i (Importer.body content graph assetPathMap st) ≤ length content.
Proof.
  intros Hi. unfold Importer.body.
  set (remaining := JS.substringFrom content (Importer.i st)).
  assert (Hlen : Importer.i st + length remaining = length content).
  { unfold remaining, JS.substringFrom. rewrite length_drop. lia. }
  pose proof (recognizers_within st remaining) as Hw.
  destruct (Importer.blockEmbed _ _ _) eqn:E1; [specialize (Hw _ (or_introl eq_refl)); lia|].
  destruct (Importer.blockReference _ _ _) eqn:E2;
    [specialize (Hw _ (or_intror (or_introl eq_refl))); lia|].
  destruct (Importer.pageLink _ _) eqn:E3;
    [specialize (Hw _ (or_intror (or_intror (or_introl eq_refl)))); lia|].
  destruct (Importer.simpleTag _ _) eqn:E4;
    [specialize (Hw _ (or_intror (or_intror (or_intror (or_introl eq_refl))))); lia|].
  destruct (Importer.attachment _ _ _) eqn:E5;
    [specialize (Hw _ (or_intror (or_intror (or_intror (or_intror eq_refl))))); lia|].
  cbn [Importer.accumulate Importer.i]. lia.
Qed.

(** Fragments pushed so far, and one more for a buffer that is not empty,
    never outnumber the code units the cursor has passed. *)
Definition counted (st : Importer.Scan) : Prop :=
  length (Importer.fragments st) + (if JS.truthy (Importer.buffer st) then 1 else 0)
    ≤ Importer.i st.

Lemma flushBuffer_count st :
  length (Importer.fragments (Importer.flushBuffer st)) =
    length (Importer.fragments st) + (if JS.truthy (Importer.buffer st) then 1 else 0) ∧
  Importer.buffer (Importer.flushBuffer st) = [].
Proof.
  unfold Importer.flushBuffer. destruct (JS.truthy (Importer.buffer st)) eqn:E.
  - cbn. rewrite length_app. done.
  - split; [lia|]. by destruct (Importer.buffer st).
Qed.

Lemma body_counted st :
  counted st → counted (Importer.body content graph assetPathMap st).
Proof.
  unfold counted. intros H.
  destruct (body_cases content graph assetPathMap st) as [(fr & n & -> & Hn & _)| ->].
  - rewrite emit_i. unfold Importer.emit. cbn [Importer.fragments Importer.buffer].
    destruct (flushBuffer_count st) as [Hf Hb]. rewrite length_app, Hf, Hb. cbn. lia.
  - cbn [Importer.accumulate Importer.fragments Importer.buffer Importer.i].
    destruct (JS.truthy (Importer.buffer st)); destruct (JS.truthy _); lia.
Qed.

Lemma loop_counted fuel : ∀ st st',
  Importer.loop content graph assetPathMap fuel st = Some st' →
  Importer.i st ≤ length content → counted st →
  Importer.i st' = length content ∧ counted st'.
Proof.
  induction fuel as [|fuel IH]; intros st st'; cbn [Importer.loop].
  - destruct (length content <=? Importer.i st) eqn:E; [|done].
    apply Nat.leb_le in E. intros [= <-] Hi Hc. split; [lia|done].
  - destruct (length content <=? Importer.i st) eqn:E.
    + apply Nat.leb_le in E. intros [= <-] Hi Hc. split; [lia|done].
    + apply Nat.leb_gt in E. intros Hloop Hi Hc.
      apply (IH _ _ Hloop); [by apply body_within|by apply body_counted].
Qed.

End Cursor.

(** X12. The loop of the scanner ends with the cursor exactly at the end
    of the text: no recognizer moves it past the end, so [content[i]] and
    [content.substring(i)] are never read out of range. The fragments
    returned are at most as many as the text has code units. *)
Theorem scanner_cursor_ends_at_length (content : list N) (graph : LogseqGraph)
    (assetPathMap : gmap (list N) (list N)) :
  ∃ st frs,
    Importer.loop content graph assetPathMap (length content) Importer.start = Some st ∧
    Importer.i st = length content ∧
    Importer.parseContentToFragments content graph assetPathMap = Some frs ∧
    length frs ≤ length content.
Proof.
  destruct (loop_total content graph assetPathMap (length content) Importer.start)
    as [st Hst]; [cbn; lia|].
  destruct (loop_counted content graph assetPathMap _ _ _ Hst) as [Hi Hc];
    [cbn; lia|unfold counted; cbn; lia|].
  exists st, (Importer.fragments (Importer.flushBuffer st)).
  split; [done|]. split; [done|].
  unfold Importer.parseContentToFragments. rewrite Hst. split; [done|].
  destruct (flushBuffer_count st) as [-> _]. unfold counted in Hc. lia.
Qed.

(** ** The inline-syntax scanner: the size of an image *)

(** X13. The size of an image is only read from an attribute whose colon
    is inside the captured text: the attribute pattern captures what stands
    between the opening [{:] and the closing brace, so when that text holds
    no further colon (a single attribute, as in [{:width 300}] or
    [{:height 20}]) the image fragment gets neither [w] nor [h]. *)
Theorem image_size_needs_second_colon (assetPathMap : gmap (list N) (list N))
    (attachmentMatch : Re.result) :
  from_option (λ attrs, avoids (JS.lit ":") attrs = true) True
              (Re.group 5 (Re.groups attachmentMatch)) →
  cf_w (Importer.attachmentFragment assetPathMap attachmentMatch) = None ∧
  cf_h (Importer.attachmentFragment assetPathMap attachmentMatch) = None.
Proof.
  intros Hattrs. unfold Importer.attachmentFragment.
  destruct (assetPathMap !! _) as [newPath|]; [|done].
  destruct (JS.truthy newPath); [|done].
  destruct (Re.test _ _); [|done].
  destruct (Re.group 5 _) as [attrs|]; [|done]. cbn [from_option] in Hattrs.
  destruct (JS.truthy attrs); [|done].
  unfold Importer.sizeAttr, Re.exec.
  by rewrite !(search_requires (JS.lit ":")).
Qed.

Lemma image_size_needs_second_colon_witness :
  let assetPathMap : gmap (list N) (list N) := {[ JS.lit "p.png" := JS.lit "assets/p.png" ]} in
  let m := {| Re.index := 0; Re.matched := JS.lit "![a](p.png){:width 300}";
              Re.groups := [(4, JS.lit "{:width 300}"); (5, JS.lit "width 300");
                            (1, JS.lit "![a](p.png)"); (3, JS.lit "p.png");
                            (2, JS.lit "a")] |} in
  Re.exec Importer.ATTACHMENT_REGEX (JS.lit "![a](p.png){:width 300}") = Some m ∧
  cf_w (Importer.attachmentFragment assetPathMap m) = None ∧
  cf_h (Importer.attachmentFragment assetPathMap m) = None.
Proof.
  intros assetPathMap m. split; [by vm_compute|].
  apply (image_size_needs_second_colon assetPathMap m). by vm_compute.
Defined.

(** With two attributes the second one is read and the first is not. *)
Example image_size_two_attributes :
  Importer.parseContentToFragments (JS.lit "![a](../assets/p.png){:height 20, :width 300}")
    emptyGraph {[ JS.lit "../assets/p.png" := JS.lit "assets/p.png" ]} =
    Some [imageFragment (JS.lit "assets/p.png") (JS.lit "a") (Some (JS.Num 300)) None].
Proof. by vm_compute. Qed.

(** ** The inline-syntax scanner: text without attachments is tiled *)

(** The text between a prefix at the start and the first occurrence of a
    closing delimiter. *)
Lemma indexOf_after pre c suf s e :
  JS.startsWith pre s = true → JS.indexOf (c :: suf) s = Some e →
  avoids [c] pre = true → length pre ≤ e.
Proof.
  intros Hpre He Hav. destruct (decide (length pre ≤ e)) as [|Hlt]; [done|]. exfalso.
  apply indexOf_spec in He as [He _].
  rewrite (startsWith_eq pre s Hpre) in He.
  destruct (lookup_lt_is_Some_2 pre e ltac:(lia)) as [c' Hc'].
  rewrite drop_app_le, (drop_S _ _ _ Hc') in He by lia.
  cbn [app JS.startsWith] in He. apply andb_true_iff in He as [He _].
  apply N.eqb_eq in He as <-.
  unfold avoids in Hav. rewrite forallb_forall in Hav.
  specialize (Hav c). unfold Re.noneOf in Hav. cbn [existsb] in Hav.
  rewrite N.eqb_refl in Hav. cbn in Hav.
  assert (c ∈ pre) as Hin%list_elem_of_In by (by eapply list_elem_of_lookup_2).
  by specialize (Hav Hin).
Qed.

Lemma delimited pre suf s e :
  JS.startsWith pre s = true → JS.indexOf suf s = Some e → length pre ≤ e →
  take (e + length suf) s = pre ++ JS.substring s (length pre) e ++ suf.
Proof.
  intros Hpre He Hle. apply indexOf_spec in He as [Hsuf He].
  rewrite <- take_take_drop.
  rewrite (startsWith_eq suf _ Hsuf) at 1. rewrite take_app_length.
  unfold JS.substring. rewrite Nat.max_r, Nat.min_l by lia.
  rewrite (startsWith_eq pre s Hpre) at 1.
  rewrite take_app_ge by done. by rewrite <- app_assoc.
Qed.

(** The text a fragment stands for. *)
Inductive Piece (graph : LogseqGraph) : ContentFragment → list N → Prop :=
| piece_text s : s ≠ [] → Piece graph (textFragment s) s
| piece_embed u :
    Piece graph (blockRefFragment (Importer.resolve graph u) u)
      (JS.lit "{{embed ((" ++ u ++ JS.lit "))}}")
| piece_reference u :
    Piece graph (blockRefFragment (Importer.resolve graph u) u)
      (JS.lit "((" ++ u ++ JS.lit "))")
| piece_link name :
    Piece graph (pageRefFragment name) (JS.lit "[[" ++ name ++ JS.lit "]]")
| piece_tag_link name :
    Piece graph (pageRefFragment name) (JS.lit "#[[" ++ name ++ JS.lit "]]")
| piece_tag name :
    name ≠ [] → Piece graph (pageRefFragment name) (JS.lit "#" ++ name).

(** The fragments stand, one after the other, for the pieces of the text. *)
Inductive Tiles (graph : LogseqGraph) : list ContentFragment → list N → Prop :=
| tiles_nil : Tiles graph [] []
| tiles_snoc frs text fr s :
    Tiles graph frs text → Piece graph fr s → Tiles graph (frs ++ [fr]) (text ++ s).

(** The attachment pattern is found nowhere from any cursor position on. *)
Definition noAttachment (content : list N) : bool :=
  forallb (λ k, negb (Re.test Importer.ATTACHMENT_REGEX (drop k content)))
          (seq 0 (length content)).

Lemma run_Chr c pos c' rest cs k :
  Re.run (Re.Chr c) pos (c' :: rest) cs k = if (c =? c')%N then k (S pos) rest cs else None.
Proof. reflexivity. Qed.

Lemma SIMPLE_TAG_REGEX_inv s m :
  Re.exec Importer.SIMPLE_TAG_REGEX s = Some m →
  ∃ name, name ≠ [] ∧ Re.matched m = JS.lit "#" ++ name ∧
          Re.group 1 (Re.groups m) = Some name ∧
          take (length (Re.matched m)) s = Re.matched m.
Proof.
  unfold Importer.SIMPLE_TAG_REGEX. intros H.
  apply exec_Bol in H as (e & cs & H & ->). cbn [Re.matched Re.groups].
  rewrite run_Cat in H. destruct s as [|c s]; [done|]. rewrite run_Chr in H.
  destruct (35 =? c)%N eqn:Hc; [|done]. apply N.eqb_eq in Hc as <-.
  rewrite run_Grp in H.
  apply run_Plus_class in H as (name & rest & -> & Hne & _ & H).
  unfold Re.accept in H. injection H as <- <-.
  exists name. split; [done|].
  cbn [take]. rewrite Nat.sub_0_r, !take_app_length.
  split; [done|]. split; [done|].
  cbn [length take]. by rewrite take_app_length.
Qed.

Section Tiling.

Variable content : list N.
Variable graph : LogseqGraph.
Variable assetPathMap : gmap (list N) (list N).

Lemma blockEmbed_piece st remaining st' :
  Importer.blockEmbed graph st remaining = Some st' →
  ∃ fr n, st' = Importer.emit st fr n ∧ Piece graph fr (take n remaining).
Proof.
  unfold Importer.blockEmbed.
  destruct (JS.startsWith _ _) eqn:Hpre; [|done].
  destruct (JS.indexOf _ _) as [e|] eqn:He; [|done]. intros [= <-].
  eexists _, _. split; [done|].
  assert (Heq : take (e + 4) remaining =
            JS.lit "{{embed ((" ++ JS.substring remaining 10 e ++ JS.lit "))}}").
  { apply (delimited (JS.lit "{{embed ((") (JS.lit "))}}") remaining e Hpre He).
    change (JS.lit "))}}") with (41%N :: JS.lit ")}}") in He.
    by apply (indexOf_after _ 41 (JS.lit ")}}") _ _ Hpre He). }
  rewrite Heq. apply piece_embed.
Qed.

Lemma blockReference_piece st remaining st' :
  Importer.blockReference graph st remaining = Some st' →
  ∃ fr n, st' = Importer.emit st fr n ∧ Piece graph fr (take n remaining).
Proof.
  unfold Importer.blockReference.
  destruct (JS.startsWith _ _) eqn:Hpre; [|done].
  destruct (JS.indexOf _ _) as [e|] eqn:He; [|done]. intros [= <-].
  eexists _, _. split; [done|].
  assert (Heq : take (e + 2) remaining =
            JS.lit "((" ++ JS.substring remaining 2 e ++ JS.lit "))").
  { apply (delimited (JS.lit "((") (JS.lit "))") remaining e Hpre He).
    change (JS.lit "))") with (41%N :: JS.lit ")") in He.
    by apply (indexOf_after _ 41 (JS.lit ")") _ _ Hpre He). }
  rewrite Heq. apply piece_reference.
Qed.

Lemma pageLink_piece st remaining st' :
  Importer.pageLink st remaining = Some st' →
  ∃ fr n, st' = Importer.emit st fr n ∧ Piece graph fr (take n remaining).
Proof.
  unfold Importer.pageLink.
  destruct (JS.startsWith (JS.lit "[[") remaining) eqn:Hl.
  - assert (Hnt : JS.startsWith (JS.lit "#") remaining = false).
    { destruct remaining as [|c r]; [done|].
      change (JS.lit "[[") with [91%N; 91%N] in Hl. cbn [JS.startsWith] in Hl.
      apply andb_true_iff in Hl as [Hc _]. apply N.eqb_eq in Hc as <-. done. }
    rewrite Hnt, orb_true_l.
    destruct (JS.indexOf _ _) as [e|] eqn:He; [|done]. intros H.
    exists (pageRefFragment (JS.substring remaining 2 e)), (e + 2).
    split; [congruence|].
    assert (Heq : take (e + 2) remaining =
              JS.lit "[[" ++ JS.substring remaining 2 e ++ JS.lit "]]").
    { apply (delimited (JS.lit "[[") (JS.lit "]]") remaining e Hl He).
      change (JS.lit "]]") with (93%N :: JS.lit "]") in He.
      by apply (indexOf_after _ 93 (JS.lit "]") _ _ Hl He). }
    rewrite Heq. apply piece_link.
  - rewrite orb_false_l.
    destruct (JS.startsWith (JS.lit "#[[") remaining) eqn:Ht; [|done].
    assert (Hnt : JS.startsWith (JS.lit "#") remaining = true).
    { destruct remaining as [|c r]; [done|].
      change (JS.lit "#[[") with [35%N; 91%N; 91%N] in Ht. cbn [JS.startsWith] in Ht.
      apply andb_true_iff in Ht as [Hc _]. apply N.eqb_eq in Hc as <-. done. }
    rewrite Hnt.
    destruct (JS.indexOf _ _) as [e|] eqn:He; [|done]. intros H.
    exists (pageRefFragment (JS.substring remaining 3 e)), (e + 2).
    split; [congruence|].
    assert (Heq : take (e + 2) remaining =
              JS.lit "#[[" ++ JS.substring remaining 3 e ++ JS.lit "]]").
    { apply (delimited (JS.lit "#[[") (JS.lit "]]") remaining e Ht He).
      change (JS.lit "]]") with (93%N :: JS.lit "]") in He.
      by apply (indexOf_after _ 93 (JS.lit "]") _ _ Ht He). }
    rewrite Heq. apply piece_tag_link.
Qed.

Lemma simpleTag_piece st remaining st' :
  Importer.simpleTag st remaining = Some st' →
  ∃ fr n, st' = Importer.emit st fr n ∧ Piece graph fr (take n remaining).
Proof.
  unfold Importer.simpleTag.
  destruct (Re.exec _ _) as [m|] eqn:E; [|done]. intros [= <-].
  apply SIMPLE_TAG_REGEX_inv in E as (name & Hne & Hm & Hg & Htake).
  eexists _, _. split; [done|]. rewrite Htake, Hg, Hm. by apply piece_tag.
Qed.

(** The state of the scan tiles the text up to the cursor. *)
Definition Tiled (st : Importer.Scan) : Prop :=
  ∃ consumed, Tiles graph (Importer.fragments st) consumed ∧
              consumed ++ Importer.buffer st = take (Importer.i st) content.

Lemma flushBuffer_tiled st :
  Tiled st →
  Tiles graph (Importer.fragments (Importer.flushBuffer st)) (take (Importer.i st) content) ∧
  Importer.buffer (Importer.flushBuffer st) = [] ∧
  Importer.i (Importer.flushBuffer st) = Importer.i st.
Proof.
  intros (consumed & Ht & Heq). unfold Importer.flushBuffer.
  destruct (JS.truthy (Importer.buffer st)) eqn:E.
  - cbn [Importer.fragments Importer.buffer Importer.i]. split; [|done].
    rewrite <- Heq. apply tiles_snoc; [done|]. apply piece_text.
    by destruct (Importer.buffer st).
  - destruct (Importer.buffer st); [|done]. rewrite app_nil_r in Heq.
    by rewrite <- Heq.
Qed.

Lemma emit_tiled st fr n :
  Tiled st → Piece graph fr (take n (drop (Importer.i st) content)) →
  Tiled (Importer.emit st fr n).
Proof.
  intros Hst Hfr. destruct (flushBuffer_tiled st Hst) as (Ht & Hb & Hi).
  unfold Importer.emit. cbn [Tiled Importer.fragments Importer.buffer Importer.i].
  exists (take (Importer.i st) content ++ take n (drop (Importer.i st) content)).
  unfold Tiled. cbn [Importer.fragments Importer.buffer Importer.i].
  split; [by apply tiles_snoc|].
  by rewrite Hb, Hi, app_nil_r, take_take_drop.
Qed.

Lemma body_tiled st :
  Re.test Importer.ATTACHMENT_REGEX (drop (Importer.i st) content) = false →
  Tiled st → Tiled (Importer.body content graph assetPathMap st).
Proof.
  intros Hna Hst. unfold Importer.body, JS.substringFrom.
  destruct (Importer.blockEmbed _ _ _) eqn:E1.
  { apply blockEmbed_piece in E1 as (fr & n & -> & Hp). by apply emit_tiled. }
  destruct (Importer.blockReference _ _ _) eqn:E2.
  { apply blockReference_piece in E2 as (fr & n & -> & Hp). by apply emit_tiled. }
  destruct (Importer.pageLink _ _) eqn:E3.
  { apply pageLink_piece in E3 as (fr & n & -> & Hp). by apply emit_tiled. }
  destruct (Importer.simpleTag _ _) eqn:E4.
  { apply simpleTag_piece in E4 as (fr & n & -> & Hp). by apply emit_tiled. }
  unfold Importer.attachment. unfold Re.test in Hna.
  destruct (Re.exec Importer.ATTACHMENT_REGEX _); [done|].
  destruct Hst as (consumed & Ht & Heq).
  exists consumed. cbn [Importer.accumulate Importer.fragments Importer.buffer Importer.i].
  split; [done|].
  by rewrite app_assoc, Heq, take_take_drop, Nat.add_1_r.
Qed.

Lemma loop_tiled fuel : ∀ st st',
  noAttachment content = true →
  Importer.loop content graph assetPathMap fuel st = Some st' →
  Tiled st → Tiled st' ∧ length content ≤ Importer.i st'.
Proof.
  induction fuel as [|fuel IH]; intros st st' Hna; cbn [Importer.loop].
  - destruct (length content <=? Importer.i st) eqn:E; [|done].
    apply Nat.leb_le in E. by intros [= <-].
  - destruct (length content <=? Importer.i st) eqn:E.
    + apply Nat.leb_le in E. by intros [= <-].
    + apply Nat.leb_gt in E. intros Hloop Hst. apply (IH _ _ Hna Hloop).
      apply body_tiled; [|done].
      unfold noAttachment in Hna. rewrite forallb_forall in Hna.
      apply negb_true_iff, (Hna (Importer.i st)), in_seq. lia.
Qed.

End Tiling.

(** X14. On a text in which the attachment pattern is found from no cursor
    position, the scan is lossless: the fragments returned stand, in order
    and without gap or overlap, for consecutive pieces of the text that
    concatenate to the whole text. A plain-text fragment stands for its own
    (non-empty) value, a block-reference fragment with uuid [u] for
    [((u))] or [{{embed ((u))}}], and a page-reference fragment with value
    [n] for [[[n]]], [#[[n]]] or [#n]. *)
Theorem scan_without_attachments_is_lossless (content : list N) (graph : LogseqGraph)
    (assetPathMap : gmap (list N) (list N)) :
  noAttachment content = true →
  ∃ frs, Importer.parseContentToFragments content graph assetPathMap = Some frs ∧
         Tiles graph frs content.
Proof.
  intros Hna.
  destruct (parseContentToFragments_total content graph assetPathMap) as [frs Hfrs].
  exists frs. split; [done|]. unfold Importer.parseContentToFragments in Hfrs.
  destruct (Importer.loop _ _ _ _ _) as [st'|] eqn:Hloop; [|done].
  injection Hfrs as <-.
  destruct (loop_tiled content graph assetPathMap _ _ _ Hna Hloop) as [Hst Hi].
  { exists []. split; [constructor|done]. }
  destruct (flushBuffer_tiled content graph st' Hst) as (Ht & _ & _).
  by rewrite take_ge in Ht.
Qed.

Lemma scan_without_attachments_is_lossless_witness :
  let content := JS.lit "See ((abc-123)) and [[Foo]] #bar {{embed ((zzz))}}" in
  Importer.parseContentToFragments content fooGraph ∅ =
    Some [textFragment (JS.lit "See ");
          blockRefFragment (JS.lit "First block") (JS.lit "abc-123");
          textFragment (JS.lit " and ");
          pageRefFragment (JS.lit "Foo");
          textFragment (JS.lit " ");
          pageRefFragment (JS.lit "bar");
          textFragment (JS.lit " ");
          blockRefFragment (Importer.blockNotFound ++ JS.lit "zzz") (JS.lit "zzz")] ∧
  ∃ frs, Importer.parseContentToFragments content fooGraph ∅ = Some frs ∧
         Tiles fooGraph frs content.
Proof.
  intros content. split; [by vm_compute|].
  apply (scan_without_attachments_is_lossless content fooGraph ∅). by vm_compute.
Defined.

(** ** The inline-syntax scanner: references in delimited text

    A text made of plain pieces, of page links and of block references and
    embeds. In a plain piece no code unit opens inline syntax, a uuid holds no
    closing parenthesis and a page name no closing bracket, so every piece
    ends at its own closing delimiter. *)

(** A code unit that opens no inline syntax where it stands: it is not [#],
    and when it is one of [[], [(] and [{] a code unit other than itself
    follows it. *)
Definition opensNothing (c : N) (rest : list N) : bool :=
  negb (c =? 35)%N
  && (Re.noneOf (JS.lit "[({") c
      || match rest with
         | [] => false
         | c' :: _ => negb (c' =? c)%N
         end).

Fixpoint plainText (text : list N) : bool :=
  match text with
  | [] => true
  | c :: rest => opensNothing c rest && plainText rest
  end.

Inductive Segment : Type :=
| Plain (text : list N)
| Reference (uuid : list N)
| Embed (uuid : list N)
| PageLink (name : list N)
| TagLink (name : list N).

Definition segmentText (s : Segment) : list N :=
  match s with
  | Plain text => text
  | Reference uuid => JS.lit "((" ++ uuid ++ JS.lit "))"
  | Embed uuid => JS.lit "{{embed ((" ++ uuid ++ JS.lit "))}}"
  | PageLink name => JS.lit "[[" ++ name ++ JS.lit "]]"
  | TagLink name => JS.lit "#[[" ++ name ++ JS.lit "]]"
  end.

Definition wellDelimited (s : Segment) : bool :=
  match s with
  | Plain text => plainText text
  | Reference uuid | Embed uuid => avoids (JS.lit ")") uuid
  | PageLink name | TagLink name => avoids (JS.lit "]") name
  end.

(** The text the segments write. *)
Definition segmentsText (segs : list Segment) : list N := concat (segmentText <$> segs).

(** The uuids of the references and embeds among the segments, in order. *)
Definition referenced (segs : list Segment) : list (list N) :=
  omap (λ s, match s with
             | Reference uuid | Embed uuid => Some uuid
             | Plain _ | PageLink _ | TagLink _ => None
             end) segs.








Section Delimited.

Variable content : list N.
Variable graph : LogseqGraph.
Variable assetPathMap : gmap (list N) (list N).
Hypothesis content_noAttachment : noAttachment content = true.

Local Abbreviation body := (Importer.body content graph assetPathMap).
Local Abbreviation loop := (Importer.loop content graph assetPathMap).








End Delimited.

(** A delimited text and what the scan returns for it. *)
Example delimited_text_with_links :
  let segs := [Plain (JS.lit "See (p. 3) "); PageLink (JS.lit "a b"); Plain (JS.lit ", ");
               TagLink (JS.lit "t"); Embed (JS.lit "zzz"); Reference (JS.lit "y")] in
  segmentsText segs = JS.lit "See (p. 3) [[a b]], #[[t]]{{embed ((zzz))}}((y))" ∧
  forallb wellDelimited segs = true ∧
  noAttachment (segmentsText segs) = true ∧
  referenced segs = [JS.lit "zzz"; JS.lit "y"] ∧
  Importer.parseContentToFragments (segmentsText segs) emptyGraph ∅ =
    Some [textFragment (JS.lit "See (p. 3) "); pageRefFragment (JS.lit "a b");
          textFragment (JS.lit ", "); pageRefFragment (JS.lit "t");
          blockRefFragment (Importer.blockNotFound ++ JS.lit "zzz") (JS.lit "zzz");
          blockRefFragment (Importer.blockNotFound ++ JS.lit "y") (JS.lit "y")].
Proof. by vm_compute. Qed.






(** ** convertLogseqBlocksToReprs: the outline of a page *)

(** The blocks of a tree with their depth, in document order. *)
Fixpoint outline (depth : nat) (b : LogseqBlock) : list (nat * LogseqBlock) :=
  (depth, b)
  :: (fix below (bs : list LogseqBlock) : list (nat * LogseqBlock) :=
        match bs with
        | [] => []
        | c :: bs' => outline (S depth) c ++ below bs'
        end) (blk_children b).

Fixpoint outlines (depth : nat) (bs : list LogseqBlock) : list (nat * LogseqBlock) :=
  match bs with
  | [] => []
  | c :: bs' => outline depth c ++ outlines depth bs'
  end.

Lemma outline_eq depth b :
  outline depth b = (depth, b) :: outlines (S depth) (blk_children b).
Proof.
  destruct b as [id content properties children level].
  cbn [outline blk_children]. f_equal.
  induction children as [|c cs IH]; [done|]. cbn [outlines]. by rewrite IH.
Qed.

Lemma outlines_blocks bs : ∀ depth, snd <$> outlines depth bs = flattenBlocks bs.
Proof.
  assert (H : ∀ b depth, snd <$> outline depth b = flattenBlock b).
  { induction b as [id content properties children level IH] using LogseqBlock_tree_ind.
    intros depth. rewrite outline_eq, flattenBlock_eq, fmap_cons. cbn [snd blk_children].
    f_equal. induction IH as [|c cs Hc _ IHcs]; [done|].
    cbn [outlines flattenBlocks]. by rewrite fmap_app, Hc, IHcs. }
  induction bs as [|b bs IH]; intros depth; [done|].
  cbn [outlines flattenBlocks]. by rewrite fmap_app, H, IH.
Qed.

(** The [Repr] of one block in the asset-aware importer. *)
Definition reprOf (graph : LogseqGraph) (assetPathMap : gmap (list N) (list N))
    (db : nat * LogseqBlock) : Host.Repr :=
  let contentFragments :=
    default [] (Importer.parseContentToFragments (blk_content db.2) graph assetPathMap) in
  {| Host.repr_type := JS.lit "text";
     Host.repr_content :=
       match contentFragments with [] => [textFragment []] | _ :: _ => contentFragments end;
     Host.repr_indent := db.1;
     Host.repr_properties :=
       match Obj.keys (blk_properties db.2) with
       | [] => None
       | _ :: _ => Some (AssetImporter.propertySpecs (blk_properties db.2))
       end |}.

(** The [Repr] of one block in the importer with the global pattern. *)
Definition regexReprOf (graph : LogseqGraph) (db : nat * LogseqBlock) : Host.Repr :=
  {| Host.repr_type := JS.lit "text";
     Host.repr_content := RegexImporter.parseContentToFragments (blk_content db.2) graph;
     Host.repr_indent := db.1;
     Host.repr_properties :=
       match Obj.keys (blk_properties db.2) with
       | [] => None
       | _ :: _ => Some (AssetImporter.propertySpecs (blk_properties db.2))
       end |}.

Lemma convertBlock_outline graph assetPathMap block : ∀ depth,
  AssetImporter.convertBlock graph assetPathMap depth block =
    Some (reprOf graph assetPathMap <$> outline depth block).
Proof.
  induction block as [id content properties children level IH]
    using LogseqBlock_tree_ind.
  intros depth. rewrite outline_eq, fmap_cons.
  cbn [AssetImporter.convertBlock blk_content blk_children blk_properties].
  unfold reprOf at 1. cbn [fst snd blk_content blk_properties].
  destruct (parseContentToFragments_total content graph assetPathMap) as [frs ->].
  cbn [mbind option_bind default].
  match goal with
  | |- ?inner children ≫= _ = _ =>
      assert (Hinner : inner children =
                Some (reprOf graph assetPathMap <$> outlines (S depth) children))
  end.
  { induction IH as [|b bs Hb _ IHbs]; [done|].
    rewrite Hb, IHbs. cbn [mbind option_bind outlines]. by rewrite fmap_app. }
  rewrite Hinner. cbn [mbind option_bind]. do 2 f_equal.
  f_equal; [by destruct frs|by destruct (Obj.keys properties)].
Qed.

Lemma regex_convertBlock_outline graph block : ∀ depth,
  RegexImporter.convertBlock graph depth block = regexReprOf graph <$> outline depth block.
Proof.
  induction block as [id content properties children level IH]
    using LogseqBlock_tree_ind.
  intros depth. rewrite outline_eq, fmap_cons.
  cbn [RegexImporter.convertBlock blk_content blk_children blk_properties].
  unfold regexReprOf at 1. cbn [fst snd blk_content blk_properties]. f_equal.
  - f_equal. by destruct (Obj.keys properties).
  - induction IH as [|b bs Hb _ IHbs]; [done|].
    rewrite Hb, IHbs. cbn [outlines]. by rewrite fmap_app.
Qed.

(** X15. [convertLogseqBlocksToReprs] lists the blocks of a page in
    document order, a block before its children: one [Repr] of type [text]
    per block, its [indent] the depth of the block below the page (the
    number of its ancestors plus the starting indent, not the [level] the
    parser recorded), with [properties] only when the block has some. In the
    asset-aware importer the content is what the scanner returns for the
    block, or the single empty text fragment when that is the empty list, so
    it is never empty; in the importer with the global pattern the content
    is what its scan returns, empty list included. *)
Theorem reprs_are_the_outline (blocks : list LogseqBlock) (graph : LogseqGraph)
    (assetPathMap : gmap (list N) (list N)) (indent : nat) :
  AssetImporter.convertLogseqBlocksToReprs blocks graph assetPathMap indent =
    Some (reprOf graph assetPathMap <$> outlines indent blocks) ∧
  RegexImporter.convertLogseqBlocksToReprs blocks graph indent =
    regexReprOf graph <$> outlines indent blocks ∧
  snd <$> outlines indent blocks = flattenBlocks blocks ∧
  Forall (λ db, Host.repr_content (reprOf graph assetPathMap db) ≠ [])
         (outlines indent blocks).
Proof.
  split; [|split; [|split]].
  - induction blocks as [|b bs IH]; [done|].
    cbn [AssetImporter.convertLogseqBlocksToReprs outlines].
    rewrite convertBlock_outline, IH. cbn [mbind option_bind]. by rewrite fmap_app.
  - unfold RegexImporter.convertLogseqBlocksToReprs.
    induction blocks as [|b bs IH]; [done|].
    cbn [fmap list_fmap concat outlines].
    by rewrite regex_convertBlock_outline, fmap_app, <- IH.
  - apply outlines_blocks.
  - apply Forall_forall. intros db _. unfold reprOf. cbn [Host.repr_content].
    by destruct (default [] _).
Qed.

(** ** The asset migrator: which paths, which files, which keys *)

(** What a computation returns when it returns. *)
Definition Returns {A} (P : A → Prop) (m : Host.M A) : Prop :=
  ∀ w a w', m w = (Host.Ok a, w') → P a.

Lemma Returns_ret {A} (P : A → Prop) a : P a → Returns P (mret a).
Proof. by intros H w a' w' [= <- <-]. Qed.

Lemma Returns_bind {A B} (Q : A → Prop) (P : B → Prop) (m : Host.M A) (f : A → Host.M B) :
  Returns Q m → (∀ a, Q a → Returns P (f a)) → Returns P (m ≫= f).
Proof.
  intros Hm Hf w b w'. unfold mbind, Host.M_bind.
  destruct (m w) as [[a|e|] w1] eqn:E; [|done..].
  intros H. by apply (Hf a (Hm _ _ _ E) _ _ _ H).
Qed.

Lemma Returns_any {A} (m : Host.M A) : Returns (λ _, True) m.
Proof. done. Qed.

Lemma Returns_tryCatch {A} (P : A → Prop) (m : Host.M A) (h : Host.exn → Host.M A) :
  Returns P m → (∀ e, Returns P (h e)) → Returns P (Host.tryCatch m h).
Proof.
  intros Hm Hh w a w'. unfold Host.tryCatch.
  destruct (m w) as [[a'|e|] w1] eqn:E.
  - intros [= <- <-]. by apply (Hm _ _ _ E).
  - apply Hh.
  - done.
Qed.

Definition assetPath (p : list N) : Prop := JS.startsWith (JS.lit "../assets/") p = true.

Lemma setAdd_Forall (P : list N → Prop) x s :
  P x → Forall P s → Forall P (AssetImporter.setAdd x s).
Proof.
  intros Hx Hs. unfold AssetImporter.setAdd. destruct (decide _); [done|].
  apply Forall_app. split; [done|]. by constructor.
Qed.

Lemma setAdd_NoDup x s : NoDup s → NoDup (AssetImporter.setAdd x s).
Proof.
  intros Hs. unfold AssetImporter.setAdd. destruct (decide _) as [|Hn]; [done|].
  apply NoDup_app. split; [done|]. split; [|apply NoDup_singleton].
  by intros y Hy ->%list_elem_of_singleton.
Qed.

Lemma collectBlock_paths block : ∀ acc,
  Forall assetPath acc ∧ NoDup acc →
  Forall assetPath (AssetImporter.collectBlock block acc) ∧
  NoDup (AssetImporter.collectBlock block acc).
Proof.
  induction block as [id content properties children level IH]
    using LogseqBlock_tree_ind.
  intros acc Hacc. cbn [AssetImporter.collectBlock blk_content blk_children].
  match goal with
  | |- context [fold_left ?f (Re.matchAll ?r content) acc] =>
      assert (Hfound : Forall assetPath (fold_left f (Re.matchAll r content) acc) ∧
                       NoDup (fold_left f (Re.matchAll r content) acc));
      [|revert Hfound; generalize (fold_left f (Re.matchAll r content) acc)]
  end.
  { revert acc Hacc. induction (Re.matchAll _ content) as [|m ms IHms]; intros acc Hacc;
      [done|].
    cbn [fold_left]. apply IHms.
    destruct (JS.startsWith _ _) eqn:E; [|done]. destruct Hacc as [H1 H2].
    split; [by apply setAdd_Forall|by apply setAdd_NoDup]. }
  induction IH as [|c cs Hc _ IHcs]; intros found Hfound; [done|].
  cbn [fold_left]. by apply IHcs, Hc.
Qed.

Lemma collectAll_paths pages :
  Forall assetPath (AssetImporter.collectAll pages) ∧
  NoDup (AssetImporter.collectAll pages).
Proof.
  unfold AssetImporter.collectAll.
  assert (H : Forall assetPath [] ∧ NoDup (A := list N) []) by (split; constructor).
  revert H. generalize (@nil (list N)).
  induction pages as [|page pages IH]; intros acc Hacc; [done|].
  cbn [fold_left]. apply IH. unfold AssetImporter.collectPaths.
  revert acc Hacc. induction (page_blocks page) as [|b bs IHbs]; intros acc Hacc; [done|].
  cbn [fold_left]. by apply IHbs, collectBlock_paths.
Qed.

Lemma fold_seq_shift {A} (f g : A → nat → A) n : ∀ k a,
  (∀ a i, f a (S i) = g a i) →
  fold_left f (seq (S k) n) a = fold_left g (seq k n) a.
Proof.
  induction n as [|n IH]; intros k a H; [done|].
  cbn [seq fold_left]. rewrite H. by apply IH.
Qed.

(** The loop, one index at a time. *)
Lemma recordUploads_unfold pathsToUpload path uploaded assetPathMap :
  AssetImporter.recordUploads pathsToUpload (path :: uploaded) assetPathMap =
  AssetImporter.recordUploads (tail pathsToUpload) uploaded
    (AssetImporter.pathMapSet (head pathsToUpload) path assetPathMap).
Proof.
  unfold AssetImporter.recordUploads. cbn [length seq fold_left].
  change ((path :: uploaded) !! 0) with (Some path).
  replace (pathsToUpload !! 0) with (head pathsToUpload) by (by destruct pathsToUpload).
  apply fold_seq_shift. intros a i.
  change ((path :: uploaded) !! S i) with (uploaded !! i).
  replace (pathsToUpload !! S i) with (tail pathsToUpload !! i)
    by (by destruct pathsToUpload).
  done.
Qed.

(** The entries under string keys: the paths and the uploads, paired by
    position as far as both go. *)
Lemma recordUploads_paths uploaded : ∀ pathsToUpload assetPathMap,
  AssetImporter.pm_paths
    (AssetImporter.recordUploads pathsToUpload uploaded assetPathMap) =
  fold_left (λ acc pu, <[pu.1 := pu.2]> acc) (zip pathsToUpload uploaded)
    (AssetImporter.pm_paths assetPathMap).
Proof.
  induction uploaded as [|u us IH]; intros ps m.
  - by destruct ps.
  - rewrite recordUploads_unfold, IH. by destruct ps.
Qed.

(** The entry under the key [undefined]: the last upload at a position
    beyond the paths, if there is one. *)
Lemma recordUploads_undefined uploaded : ∀ pathsToUpload assetPathMap,
  AssetImporter.pm_undefined
    (AssetImporter.recordUploads pathsToUpload uploaded assetPathMap) =
  match last (drop (length pathsToUpload) uploaded) with
  | Some path => Some path
  | None => AssetImporter.pm_undefined assetPathMap
  end.
Proof.
  induction uploaded as [|u us IH]; intros ps m.
  - by rewrite drop_nil.
  - rewrite recordUploads_unfold, IH. destruct ps as [|p ps]; cbn [tail head length drop].
    + rewrite drop_0. cbn [AssetImporter.pathMapSet AssetImporter.pm_undefined].
      destruct us as [|u' us]; [done|]. rewrite last_cons_cons.
      destruct (last (u' :: us)) eqn:E; [done|]. by apply last_None in E.
    + done.
Qed.

Lemma recordUploads_keys paths : ∀ uploaded assetPathMap k,
  is_Some (AssetImporter.recordUploads paths uploaded assetPathMap !! k) →
  k ∈ paths ∨ is_Some (assetPathMap !! k).
Proof.
  intros uploaded m k.
  change (is_Some (AssetImporter.pm_paths (AssetImporter.recordUploads paths uploaded m) !! k)
          → k ∈ paths ∨ is_Some (AssetImporter.pm_paths m !! k)).
  rewrite recordUploads_paths. generalize (AssetImporter.pm_paths m). clear m.
  revert uploaded.
  induction paths as [|p ps IH]; intros [|u us] m; cbn [zip zip_with fold_left]; auto.
  intros H. apply IH in H as [H|H]; [left; by right|].
  cbn [fst snd] in H. destruct (decide (p = k)) as [->|Hne]; [left; left|].
  right. by rewrite lookup_insert_ne in H.
Qed.

(** X16. [assetPathMap.set(pathsToUpload[i], result.uploaded[i].path)] pairs
    the paths and the uploaded files by position: with no path listed twice,
    the [i]-th uploaded path is recorded under the [i]-th path, and a path
    beyond the length of [uploaded] gets no entry. *)
Theorem uploads_are_paired_by_position (pathsToUpload uploaded : list (list N)) :
  NoDup pathsToUpload →
  ∀ i p, pathsToUpload !! i = Some p →
    AssetImporter.recordUploads pathsToUpload uploaded ∅ !! p = uploaded !! i.
Proof.
  intros Hnd i p Hi.
  change (AssetImporter.pm_paths (AssetImporter.recordUploads pathsToUpload uploaded ∅) !! p
          = uploaded !! i).
  rewrite recordUploads_paths.
  change (AssetImporter.pm_paths ∅) with (∅ : gmap (list N) (list N)).
  revert Hnd i p Hi.
  assert (H : ∀ ps us (m : gmap (list N) (list N)) i p,
            NoDup ps → ps !! i = Some p →
            fold_left (λ acc pu, <[pu.1 := pu.2]> acc) (zip ps us) m !! p =
              match us !! i with Some u => Some u | None => if decide (i < length us) then None else m !! p end).
  { induction ps as [|p0 ps IH]; intros us m i p Hnd Hi; [done|].
    apply NoDup_cons in Hnd as [Hp0 Hnd].
    destruct us as [|u us].
    - cbn. by destruct i.
    - cbn [zip zip_with fold_left fst snd]. destruct i as [|i].
      + injection Hi as <-. cbn [lookup list_lookup].
        assert (Hkeep : ∀ l (m' : gmap (list N) (list N)),
                  p0 ∉ (fst <$> l) →
                  fold_left (λ acc pu, <[pu.1 := pu.2]> acc) l m' !! p0 = m' !! p0).
        { induction l as [|[a b] l IHl]; intros m' Hn; [done|].
          rewrite fmap_cons in Hn. apply not_elem_of_cons in Hn as [Hne Hn].
          cbn [fold_left fst snd]. rewrite IHl by done. by rewrite lookup_insert_ne. }
        rewrite Hkeep; [by rewrite lookup_insert_eq|].
        intros Hin. apply Hp0. apply list_elem_of_fmap in Hin as ([a b] & -> & Hab).
        apply elem_of_zip_l in Hab. done.
      + cbn [lookup list_lookup] in *. rewrite (IH us _ i p Hnd Hi).
        destruct (us !! i) eqn:E; [done|].
        cbn [length]. destruct (decide (i < length us)), (decide (S i < S (length us)));
          try lia; [done|].
        apply lookup_insert_ne. intros ->. apply Hp0.
        by eapply list_elem_of_lookup_2. }
  intros Hnd i p Hi. rewrite (H _ _ _ i p Hnd Hi).
  destruct (uploaded !! i) eqn:E; [done|].
  destruct (decide _); [done|]. apply lookup_empty.
Qed.

Lemma uploads_are_paired_by_position_witness :
  AssetImporter.recordUploads [JS.lit "../assets/a.png"; JS.lit "../assets/b.pdf"]
    [JS.lit "assets/1.png"] ∅ !! JS.lit "../assets/b.pdf" = None.
Proof.
  assert (Hnd : NoDup [JS.lit "../assets/a.png"; JS.lit "../assets/b.pdf"]).
  { apply NoDup_cons. split; [|apply NoDup_singleton].
    intros H%list_elem_of_singleton. vm_compute in H. discriminate H. }
  exact (uploads_are_paired_by_position
           [JS.lit "../assets/a.png"; JS.lit "../assets/b.pdf"] [JS.lit "assets/1.png"]
           Hnd 1 (JS.lit "../assets/b.pdf") eq_refl).
Defined.

(** The file names the run has asked the [assets] directory for. *)
Definition lookupOf (ev : Host.event) : option (list N) :=
  match ev with
  | Host.Called (Host.GetFileHandle _ name) _ => Some name
  | _ => None
  end.

Definition lookups (w : Host.World) : list (list N) := omap lookupOf (Host.trace w).

Section Migrator.

Variable respond : list Host.event → Host.call → Host.outcome Host.value.
Hypothesis respond_answers : Answers respond.

Lemma gatherFiles_continues assetsFolder paths : ∀ w,
  ∃ files found w',
    AssetImporter.gatherFiles respond assetsFolder paths w = (Host.Ok (files, found), w') ∧
    length files = length found ∧ found `sublist_of` paths ∧
    lookups w' = lookups w ++ ((λ p, JS.substringFrom p 10) <$> paths).
Proof using All.
  induction paths as [|p paths IH]; intros w.
  - exists [], [], w. by rewrite app_nil_r.
  - cbn [AssetImporter.gatherFiles].
    set (c := Host.GetFileHandle assetsFolder (JS.substringFrom p 10)).
    set (w1 := {| Host.trace := Host.trace w ++ [Host.Called c (respond (Host.trace w) c)];
                  Host.uuidToDbIdMap := Host.uuidToDbIdMap w |}).
    assert (Hw1 : lookups w1 = lookups w ++ [JS.substringFrom p 10]).
    { unfold lookups, w1. cbn [Host.trace]. by rewrite omap_app. }
    assert (Hstep : ∃ r w2,
      Host.tryCatch
        (fileHandle ← Host.invoke respond c;
         file ← Host.invoke respond (Host.GetFile fileHandle);
         mret (Some file))
        (λ _, mret None) w = (Host.Ok r, w2) ∧ lookups w2 = lookups w1).
    { unfold Host.tryCatch, mbind, Host.M_bind, Host.invoke. fold w1.
      pose proof (respond_answers (Host.trace w) c) as Ha.
      destruct (respond (Host.trace w) c) as [fh|e|] eqn:E; [| |done].
      - pose proof (respond_answers (Host.trace w1) (Host.GetFile fh)) as Ha2.
        destruct (respond (Host.trace w1) (Host.GetFile fh)) as [f|e|] eqn:E2; [| |done].
        + eexists _, _. split; [reflexivity|].
          unfold lookups. cbn [Host.trace]. rewrite omap_app. cbn. by rewrite app_nil_r.
        + eexists _, _. split; [reflexivity|].
          unfold lookups. cbn [Host.trace]. rewrite omap_app. cbn. by rewrite app_nil_r.
      - eexists _, _. split; [reflexivity|]. done. }
    destruct Hstep as (r & w2 & Hstep & Hw2).
    destruct (IH w2) as (files & found & w3 & Hrest & Hlen & Hsub & Hw3).
    unfold mbind at 1, Host.M_bind at 1. rewrite Hstep.
    unfold mbind at 1, Host.M_bind at 1. rewrite Hrest.
    assert (Hl : lookups w3 =
              lookups w ++ ((λ p, JS.substringFrom p 10) <$> p :: paths)).
    { by rewrite fmap_cons, Hw3, Hw2, Hw1, <- app_assoc. }
    destruct r as [file|].
    + exists (file :: files), (p :: found), w3. cbn [fst snd length].
      split; [done|]. split; [by f_equal|]. split; [by apply sublist_skip|done].
    + exists files, found, w3. split; [done|]. split; [done|].
      split; [by apply sublist_cons|done].
Qed.

End Migrator.

(** X17. The loop over the discovered asset paths tolerates every missing
    file: whatever [getFileHandle] and [getFile] do for a path (return or
    throw), the loop goes on, asks the [assets] directory for every path
    exactly once, in order, under the name that follows [../assets/], and
    ends normally with as many files as kept paths, the kept paths being a
    sub-list of the discovered ones. *)
Theorem asset_lookup_tolerates_missing_files
    (respond : list Host.event → Host.call → Host.outcome Host.value)
    (assetsFolder : Host.value) (paths : list (list N)) (w : Host.World) :
  Answers respond →
  ∃ files found w',
    AssetImporter.gatherFiles respond assetsFolder paths w = (Host.Ok (files, found), w') ∧
    length files = length found ∧ found `sublist_of` paths ∧
    lookups w' = lookups w ++ ((λ p, JS.substringFrom p 10) <$> paths).
Proof. intros Ha. by apply gatherFiles_continues. Qed.

(** A host in whose [assets] directory only [b.pdf] exists. *)
Definition onlyB : list Host.event → Host.call → Host.outcome Host.value :=
  λ _ c,
    match c with
    | Host.GetFileHandle _ name =>
        if decide (name = JS.lit "b.pdf") then Host.Ok (Host.VObj 1)
        else Host.Throw (Host.Error (JS.lit "NotFoundError"))
    | _ => Host.Ok (Host.VObj 2)
    end.

Lemma onlyB_answers : Answers onlyB.
Proof. intros h c. destruct c; try done. unfold onlyB. by destruct (decide _). Qed.

Lemma asset_lookup_tolerates_missing_files_witness :
  AssetImporter.gatherFiles onlyB (Host.VObj 0)
    [JS.lit "../assets/a.png"; JS.lit "../assets/b.pdf"; JS.lit "../assets/c.png"]
    emptyWorld =
    (Host.Ok ([Host.VObj 2], [JS.lit "../assets/b.pdf"]),
     {| Host.trace :=
          [Host.Called (Host.GetFileHandle (Host.VObj 0) (JS.lit "a.png"))
                       (Host.Throw (Host.Error (JS.lit "NotFoundError")));
           Host.Called (Host.GetFileHandle (Host.VObj 0) (JS.lit "b.pdf"))
                       (Host.Ok (Host.VObj 1));
           Host.Called (Host.GetFile (Host.VObj 1)) (Host.Ok (Host.VObj 2));
           Host.Called (Host.GetFileHandle (Host.VObj 0) (JS.lit "c.png"))
                       (Host.Throw (Host.Error (JS.lit "NotFoundError")))];
        Host.uuidToDbIdMap := [] |}) ∧
  ∃ files found w',
    AssetImporter.gatherFiles onlyB (Host.VObj 0)
      [JS.lit "../assets/a.png"; JS.lit "../assets/b.pdf"; JS.lit "../assets/c.png"]
      emptyWorld = (Host.Ok (files, found), w') ∧
    length files = length found.
Proof.
  split; [by vm_compute|].
  destruct (asset_lookup_tolerates_missing_files onlyB (Host.VObj 0)
              [JS.lit "../assets/a.png"; JS.lit "../assets/b.pdf"; JS.lit "../assets/c.png"]
              emptyWorld onlyB_answers) as (files & found & w' & H & Hlen & _).
  by exists files, found, w'.
Defined.

Section MigratorKeys.

Variable respond : list Host.event → Host.call → Host.outcome Host.value.

Lemma gatherFiles_found assetsFolder paths :
  Returns (λ g, g.2 ⊆ paths) (AssetImporter.gatherFiles respond assetsFolder paths).
Proof.
  induction paths as [|p paths IH]; [by apply Returns_ret|].
  cbn [AssetImporter.gatherFiles].
  eapply Returns_bind; [apply Returns_any|]. intros found _.
  eapply Returns_bind; [apply IH|]. intros more Hmore.
  destruct found; apply Returns_ret; cbn [fst snd].
  - intros x [->|Hx]%elem_of_cons; [left|right; by apply Hmore].
  - intros x Hx. right. by apply Hmore.
Qed.

Lemma preUpload_keys pages logseqFolder :
  Returns (λ m : AssetImporter.PathMap, ∀ k, is_Some (m !! k) →
             k ∈ AssetImporter.collectAll pages)
    (AssetImporter.preUploadAssetsAndGetPathMap respond pages logseqFolder).
Proof.
  assert (Hempty : ∀ k, is_Some ((∅ : AssetImporter.PathMap) !! k) →
            k ∈ AssetImporter.collectAll pages).
  { intros k [x Hx]. change ((∅ : gmap (list N) (list N)) !! k = Some x) in Hx.
    by rewrite lookup_empty in Hx. }
  unfold AssetImporter.preUploadAssetsAndGetPathMap.
  destruct (Nat.eqb _ 0); [by apply Returns_ret|].
  apply Returns_tryCatch.
  - eapply Returns_bind; [apply Returns_any|]. intros assetsFolder _.
    eapply Returns_bind; [apply gatherFiles_found|]. intros gathered Hg.
    destruct (0 <? _); [|by apply Returns_ret].
    eapply Returns_bind; [apply Returns_any|]. intros _ _.
    eapply Returns_bind; [apply Returns_any|]. intros result _.
    destruct result as [| | | | | |uploaded failed]; try by apply Returns_ret.
    assert (Hrec : ∀ k,
      is_Some (match uploaded with
               | Some us => AssetImporter.recordUploads gathered.2 us ∅
               | None => ∅
               end !! k) → k ∈ AssetImporter.collectAll pages).
    { destruct uploaded as [us|]; [|done]. intros k Hk.
      apply recordUploads_keys in Hk as [Hk|Hk]; [by apply Hg|by apply Hempty]. }
    destruct failed as [n|]; [|by apply Returns_ret].
    destruct (0 <? n); [|by apply Returns_ret].
    eapply Returns_bind; [apply Returns_any|]. intros _ _. by apply Returns_ret.
  - intros e. eapply Returns_bind; [apply Returns_any|]. intros _ _.
    by apply Returns_ret.
Qed.

Lemma gatherFiles_lengths assetsFolder paths :
  Returns (λ g, length g.1 = length g.2)
    (AssetImporter.gatherFiles respond assetsFolder paths).
Proof.
  induction paths as [|p paths IH]; [by apply Returns_ret|].
  cbn [AssetImporter.gatherFiles].
  eapply Returns_bind; [apply Returns_any|]. intros found _.
  eapply Returns_bind; [apply IH|]. intros more Hmore.
  destruct found; apply Returns_ret; cbn [fst snd length]; by rewrite ?Hmore.
Qed.

Lemma bind_Ok_inv {A B} (m : Host.M A) (f : A → Host.M B) w b w' :
  (m ≫= f) w = (Host.Ok b, w') →
  ∃ a w1, m w = (Host.Ok a, w1) ∧ f a w1 = (Host.Ok b, w').
Proof.
  unfold mbind, Host.M_bind. destruct (m w) as [[a|e|] w1]; [eauto|done|done].
Qed.

(** The entry under the key [undefined] is only written when the host
    reports more uploaded files than it was sent. *)
Lemma preUpload_undefined pages logseqFolder w assetPathMap w' path :
  AssetImporter.preUploadAssetsAndGetPathMap respond pages logseqFolder w =
    (Host.Ok assetPathMap, w') →
  AssetImporter.pm_undefined assetPathMap = Some path →
  ∃ files uploaded failed,
    Host.Called (Host.UploadAssets files)
      (Host.Ok (Host.VUploadResult (Some uploaded) failed)) ∈ Host.trace w' ∧
    length files < length uploaded.
Proof.
  unfold AssetImporter.preUploadAssetsAndGetPathMap.
  destruct (Nat.eqb _ 0); [by intros [= <- <-]|].
  unfold Host.tryCatch.
  match goal with |- context [match ?body w with _ => _ end] =>
    destruct (body w) as [[m|e|] w1] eqn:E end; [|by intros [= <- <-]|done].
  intros [= -> ->] Hu.
  apply bind_Ok_inv in E as (assetsFolder & wa & _ & E).
  apply bind_Ok_inv in E as (gathered & wb & Hg & E).
  pose proof (gatherFiles_lengths _ _ _ _ _ Hg) as Hlen.
  destruct (0 <? _); [|injection E as <- <-; done].
  apply bind_Ok_inv in E as ([] & wc & _ & E).
  apply bind_Ok_inv in E as (result & wd & Hr & E).
  injection Hr as Hr <-.
  destruct result as [| | | | | |uploaded failed];
    try (injection E as <- <-; done).
  destruct uploaded as [us|].
  - exists gathered.1, us, failed.
    assert (Hlt : length gathered.1 < length us).
    { assert (Hm : AssetImporter.pm_undefined
                     (AssetImporter.recordUploads gathered.2 us ∅) = Some path).
      { destruct failed as [n|]; [destruct (0 <? n)|].
        - apply bind_Ok_inv in E as ([] & we & _ & E). by injection E as <- <-.
        - by injection E as <- <-.
        - by injection E as <- <-. }
      rewrite recordUploads_undefined in Hm.
      destruct (last (drop (length gathered.2) us)) eqn:El; [|done].
      apply last_Some in El as (l' & El).
      apply (f_equal length) in El. rewrite length_drop, length_app in El.
      cbn beta in Hlen. cbn [length] in El. lia. }
    split; [|done].
    destruct failed as [n|]; [destruct (0 <? n)|].
    + apply bind_Ok_inv in E as ([] & we & Hn & E). injection E as <- <-.
      injection Hn as <-. cbn [Host.trace]. rewrite Hr.
      apply elem_of_app. left. apply elem_of_app. right. by apply list_elem_of_singleton.
    + injection E as <- <-. cbn [Host.trace]. rewrite Hr.
      apply elem_of_app. right. by apply list_elem_of_singleton.
    + injection E as <- <-. cbn [Host.trace]. rewrite Hr.
      apply elem_of_app. right. by apply list_elem_of_singleton.
  - destruct failed as [n|]; [destruct (0 <? n)|].
    + apply bind_Ok_inv in E as ([] & we & _ & E). by injection E as <- <-.
    + by injection E as <- <-.
    + by injection E as <- <-.
Qed.

End MigratorKeys.

(** X18. [preUploadAssetsAndGetPathMap] never throws, whatever the host
    does at any of its calls (opening the directory, looking a file up,
    uploading): it always returns a map, and every string key of that map is
    an attachment path of a block of the batch that begins with
    [../assets/]. The only other key the loop over [result.uploaded] can
    write is [undefined], and it does so only when the host has answered the
    upload with more uploaded files than it was sent. The set of discovered
    paths holds no path twice. *)
Theorem preUpload_never_throws
    (respond : list Host.event → Host.call → Host.outcome Host.value)
    (pagesToImport : list LogseqPage) (logseqFolder : Host.value) (w : Host.World) :
  Answers respond →
  (∃ assetPathMap w',
     AssetImporter.preUploadAssetsAndGetPathMap respond pagesToImport logseqFolder w =
       (Host.Ok assetPathMap, w') ∧
     (∀ k, is_Some (AssetImporter.pm_paths assetPathMap !! k) →
        k ∈ AssetImporter.collectAll pagesToImport ∧
        JS.startsWith (JS.lit "../assets/") k = true) ∧
     (∀ path, AssetImporter.pm_undefined assetPathMap = Some path →
        ∃ files uploaded failed,
          Host.Called (Host.UploadAssets files)
            (Host.Ok (Host.VUploadResult (Some uploaded) failed)) ∈ Host.trace w' ∧
          length files < length uploaded)) ∧
  NoDup (AssetImporter.collectAll pagesToImport).
Proof.
  intros Ha. destruct (collectAll_paths pagesToImport) as [Hall Hnd]. split; [|done].
  destruct (AssetImporter.preUploadAssetsAndGetPathMap respond pagesToImport logseqFolder w)
    as [r w'] eqn:E.
  destruct (preUpload_calm respond Ha _ _ _ _ _ E) as [[m ->] _].
  exists m, w'. split; [done|]. split.
  - intros k Hk.
    pose proof (preUpload_keys respond pagesToImport logseqFolder _ _ _ E k Hk) as Hin.
    split; [done|]. rewrite Forall_forall in Hall. by apply Hall.
  - intros path Hpath. exact (preUpload_undefined respond _ _ _ _ _ path E Hpath).
Qed.

(** A host on which the upload itself is rejected. *)
Definition uploadFails : list Host.event → Host.call → Host.outcome Host.value :=
  λ _ c,
    match c with
    | Host.UploadAssets _ => Host.Throw (Host.Error (JS.lit "upload rejected"))
    | _ => Host.Ok (Host.VObj 1)
    end.

Lemma preUpload_never_throws_witness :
  AssetImporter.preUploadAssetsAndGetPathMap uploadFails [picturePage] (Host.VObj 0)
    emptyWorld =
    (Host.Ok ∅,
     {| Host.trace :=
          [Host.Called (Host.GetDirectoryHandle (Host.VObj 0) (JS.lit "assets"))
                       (Host.Ok (Host.VObj 1));
           Host.Called (Host.GetFileHandle (Host.VObj 1) (JS.lit "a.png"))
                       (Host.Ok (Host.VObj 1));
           Host.Called (Host.GetFile (Host.VObj 1)) (Host.Ok (Host.VObj 1));
           Host.Notified (JS.lit "info") (JS.utf8 "准备上传 1 个附件...");
           Host.Called (Host.UploadAssets [Host.VObj 1])
                       (Host.Throw (Host.Error (JS.lit "upload rejected")));
           Host.Notified (JS.lit "error") assetsUnavailable];
        Host.uuidToDbIdMap := [] |}) ∧
  NoDup (AssetImporter.collectAll [picturePage]).
Proof.
  split; [by vm_compute|].
  apply (preUpload_never_throws uploadFails [picturePage] (Host.VObj 0) emptyWorld).
  intros h c. by destruct c.
Defined.

(** A host that reports two uploaded files for the one file it was sent:
    the second turn of the loop writes the key [undefined]. *)
Definition uploadsTwice : list Host.event → Host.call → Host.outcome Host.value :=
  λ _ c,
    match c with
    | Host.UploadAssets _ =>
        Host.Ok (Host.VUploadResult (Some [JS.lit "assets/1.png"; JS.lit "assets/2.png"])
                                    (Some 0))
    | _ => Host.Ok (Host.VObj 1)
    end.

Example preUpload_undefined_key :
  ∃ assetPathMap w',
    AssetImporter.preUploadAssetsAndGetPathMap uploadsTwice [picturePage] (Host.VObj 0)
      emptyWorld = (Host.Ok assetPathMap, w') ∧
    AssetImporter.pm_paths assetPathMap =
      {[ JS.lit "../assets/a.png" := JS.lit "assets/1.png" ]} ∧
    AssetImporter.pm_undefined assetPathMap = Some (JS.lit "assets/2.png").
Proof. eexists _, _. split; [reflexivity|]. by vm_compute. Qed.

(** ** index.ts: the command always ends with a notification *)

(** A computation that stays within its bounds. *)
Definition Fueled {A} (m : Host.M A) : Prop :=
  ∀ w r w', m w = (r, w') → r ≠ Host.OutOfFuel.

(** A computation that stays within its bounds and, when it returns, has
    notified the user last. *)
Definition Notifies {A} (m : Host.M A) : Prop :=
  ∀ w r w', m w = (r, w') →
    r ≠ Host.OutOfFuel ∧
    ∀ a, r = Host.Ok a → ∃ level message, last (Host.trace w') = Some (Host.Notified level message).

Lemma Fueled_ret {A} (a : A) : Fueled (mret a).
Proof. by intros w r w' [= <- <-]. Qed.

Lemma Fueled_log ev : Fueled (Host.log ev).
Proof. by intros w r w' [= <- <-]. Qed.

Lemma Fueled_setMap m : Fueled (Host.setMap m).
Proof. by intros w r w' [= <- <-]. Qed.

Lemma Fueled_invoke respond c : Answers respond → Fueled (Host.invoke respond c).
Proof. intros Ha w r w' [= <- <-]. apply Ha. Qed.

Lemma Fueled_bind {A B} (m : Host.M A) (f : A → Host.M B) :
  Fueled m → (∀ a, Fueled (f a)) → Fueled (m ≫= f).
Proof.
  intros Hm Hf w r w'. unfold mbind, Host.M_bind.
  destruct (m w) as [[a|e|] w1] eqn:E.
  - apply Hf.
  - by intros [= <- <-].
  - by destruct (Hm _ _ _ E).
Qed.

Lemma Notifies_notify level message : Notifies (Host.notify level message).
Proof.
  intros w r w' [= <- <-]. split; [done|]. intros a _.
  exists level, message. cbn [Host.trace]. apply last_snoc.
Qed.

Lemma Notifies_throw {A} e : Notifies (Host.throw (A := A) e).
Proof. intros w r w' [= <- <-]. split; [done|]. by intros a. Qed.

Lemma Notifies_bind {A B} (m : Host.M A) (f : A → Host.M B) :
  Fueled m → (∀ a, Notifies (f a)) → Notifies (m ≫= f).
Proof.
  intros Hm Hf w r w'. unfold mbind, Host.M_bind.
  destruct (m w) as [[a|e|] w1] eqn:E.
  - apply Hf.
  - intros [= <- <-]. split; [done|]. by intros a.
  - by destruct (Hm _ _ _ E).
Qed.

Lemma Fueled_batchLoop importPageBatch allPages graph :
  (∀ batch, Fueled (importPageBatch batch graph)) →
  ∀ fuel i, length allPages ≤ i + Driver.BATCH_SIZE * fuel →
    Fueled (Driver.batchLoop importPageBatch fuel allPages graph i).
Proof.
  intros Hb. induction fuel as [|fuel IH]; intros i Hfuel.
  - unfold Driver.batchLoop. destruct (i <? length allPages) eqn:E; [|apply Fueled_ret].
    apply Nat.ltb_lt in E. lia.
  - rewrite batchLoop_S. destruct (i <? length allPages); [|apply Fueled_ret].
    apply Fueled_bind; [apply Hb|]. intros _.
    apply Fueled_bind; [apply Fueled_log|]. intros _.
    apply IH. unfold Driver.BATCH_SIZE in *. lia.
Qed.

(** X19. [startImportProcess] never rejects and never ends silently:
    whatever the setting, whatever the host answers or throws, and whatever
    the batch importer does (return or throw), the command returns
    normally and the last thing it has done is a notification to the
    user. *)
Theorem startImportProcess_always_notifies
    (respond : list Host.event → Host.call → Host.outcome Host.value)
    (logseqPathSetting : option (list N)) (decode : list N → list N)
    (importPageBatch : list LogseqPage → LogseqGraph → Host.M unit) (w : Host.World) :
  Answers respond →
  (∀ batch graph, Fueled (importPageBatch batch graph)) →
  ∃ w' level message,
    Driver.startImportProcess respond logseqPathSetting decode importPageBatch w =
      (Host.Ok tt, w') ∧
    last (Host.trace w') = Some (Host.Notified level message).
Proof.
  intros Ha Hb. unfold Driver.startImportProcess.
  match goal with
  | |- ∃ w' level message, Host.tryCatch ?body ?handler w = _ ∧ _ =>
      assert (Hbody : Notifies body); [|assert (Hh : ∀ e, Notifies (handler e))]
  end.
  - destruct logseqPathSetting as [logseqPath|]; [|apply Notifies_notify].
    destruct (_ || _); [apply Notifies_notify|].
    apply Notifies_bind; [apply Fueled_log|]. intros _.
    apply Notifies_bind; [by apply Fueled_invoke|]. intros files.
    destruct files as [| | | | |fs|];
      try (destruct (negb (Host.truthy _)); [apply Notifies_notify|apply Notifies_throw]).
    destruct (Nat.eqb (length fs) 0); [apply Notifies_notify|].
    destruct (Nat.eqb _ 0); [apply Notifies_notify|].
    apply Notifies_bind; [apply Fueled_log|]. intros _.
    apply Notifies_bind; [apply Fueled_log|]. intros _.
    apply Notifies_bind; [apply Fueled_setMap|]. intros _.
    apply Notifies_bind; [|intros _; apply Notifies_notify].
    apply Fueled_batchLoop; [done|]. unfold Driver.BATCH_SIZE. lia.
  - intros [message|v]; apply Notifies_notify.
  - unfold Host.tryCatch.
    match goal with
    | |- ∃ w' level message, match ?body w with _ => _ end = _ ∧ _ =>
        destruct (body w) as [[[]|e|] w1] eqn:E; destruct (Hbody _ _ _ E) as [Hr Hn]
    end; [| |done].
    + destruct (Hn tt eq_refl) as (level & message & Hl). by exists w1, level, message.
    + match goal with
      | |- ∃ w' level message, ?h w1 = _ ∧ _ =>
          destruct (h w1) as [r w2] eqn:E2
      end.
      destruct (Hh e _ _ _ E2) as [Hr2 Hn2].
      assert (r = Host.Ok tt) as ->.
      { destruct e; by injection E2 as <- _. }
      destruct (Hn2 tt eq_refl) as (level & message & Hl). by exists w2, level, message.
Qed.

Lemma startImportProcess_always_notifies_witness :
  ∃ w' level message,
    Driver.startImportProcess notFoundHost (Some (JS.lit "/graph")) (λ data, data)
      markBatch emptyWorld = (Host.Ok tt, w') ∧
    last (Host.trace w') = Some (Host.Notified level message).
Proof.
  apply (startImportProcess_always_notifies notFoundHost (Some (JS.lit "/graph"))
           (λ data, data) markBatch emptyWorld).
  - by intros h c.
  - intros batch graph. apply Fueled_log.
Defined.

(** ** index.ts: the guards of the command *)

(** The state of the run after some more events. *)
Definition logged (w : Host.World) (evs : list Host.event) : Host.World :=
  {| Host.trace := Host.trace w ++ evs; Host.uuidToDbIdMap := Host.uuidToDbIdMap w |}.

Definition noPathWarning : Host.event :=
  Host.Notified (JS.lit "warn")
    (JS.utf8 "请先在插件设置中，正确输入您 Logseq 库的绝对路径。").

Definition noFilesWarning : Host.event :=
  Host.Notified (JS.lit "warn")
    (JS.utf8 "无法读取文件夹，或文件夹为空。请检查路径和权限，或确认虎鲸笔记是否支持此操作。").

Definition noMarkdownWarning : Host.event :=
  Host.Notified (JS.lit "warn") (JS.utf8 "在指定路径中没有找到 Markdown (.md) 文件。").

Lemma filter_none {A} (P : A → Prop) `{∀ x, Decision (P x)} (l : list A) :
  Forall (λ x, ¬ P x) l → filter P l = [].
Proof.
  induction 1 as [|x l Hx _ IH]; [done|]. rewrite filter_cons.
  by destruct (decide (P x)).
Qed.

(** X20. The guards of [startImportProcess]. Without a path in the
    settings, or with one that is empty or only white space, the command
    warns once and calls nothing. With a path, when the directory listing
    is an empty array, or an array without any name ending in [.md], the
    command warns once after the [read-directory] call; nothing is parsed
    and the batch importer is never called (the outcome does not depend on
    it). *)
Theorem startImportProcess_guards
    (respond : list Host.event → Host.call → Host.outcome Host.value)
    (decode : list N → list N)
    (importPageBatch : list LogseqPage → LogseqGraph → Host.M unit) (w : Host.World) :
  (∀ setting,
     setting = None ∨ (∃ p, setting = Some p ∧ JS.trim p = []) →
     Driver.startImportProcess respond setting decode importPageBatch w =
       (Host.Ok tt, logged w [noPathWarning])) ∧
  (∀ path files,
     JS.trim path ≠ [] →
     let announced :=
       Host.Notified (JS.lit "info") (JS.utf8 "准备从路径读取文件: " ++ path) in
     respond (Host.trace w ++ [announced]) (Host.ReadDirectory path) =
       Host.Ok (Host.VFiles files) →
     forallb (λ file, negb (JS.endsWith (JS.lit ".md") file.1)) files = true →
     Driver.startImportProcess respond (Some path) decode importPageBatch w =
       (Host.Ok tt,
        logged w [announced;
                  Host.Called (Host.ReadDirectory path) (Host.Ok (Host.VFiles files));
                  match files with [] => noFilesWarning | _ :: _ => noMarkdownWarning end])).
Proof.
  split.
  - intros setting [->|(p & -> & Hp)]; [done|].
    unfold Driver.startImportProcess, Host.tryCatch. rewrite Hp.
    cbn [JS.truthy negb]. by rewrite orb_true_r.
  - intros path files Hpath announced Hresp Hmd.
    unfold Driver.startImportProcess, Host.tryCatch.
    assert (Ht : negb (JS.truthy path) || negb (JS.truthy (JS.trim path)) = false).
    { destruct path as [|c path]; [done|]. by destruct (JS.trim (c :: path)). }
    rewrite Ht.
    unfold mbind at 1, Host.M_bind at 1, Host.notify at 1, Host.log at 1.
    unfold mbind at 1, Host.M_bind at 1, Host.invoke at 1.
    cbn [Host.trace Host.uuidToDbIdMap]. fold announced. rewrite Hresp.
    destruct files as [|file files].
    + unfold logged. cbn [length Nat.eqb Host.notify Host.log Host.trace Host.uuidToDbIdMap].
      unfold Host.notify, Host.log. cbn [Host.trace Host.uuidToDbIdMap].
      by rewrite <- !app_assoc.
    + cbn [length Nat.eqb].
      rewrite filter_none.
      * unfold logged, Host.notify, Host.log. cbn [fmap list_fmap length Nat.eqb Host.trace Host.uuidToDbIdMap].
        by rewrite <- !app_assoc.
      * rewrite forallb_forall in Hmd. apply Forall_forall. intros f Hf%list_elem_of_In.
        apply Hmd in Hf. by destruct (JS.endsWith _ _).
Qed.

Lemma startImportProcess_guards_witness :
  Driver.startImportProcess notFoundHost (Some (JS.lit "   ")) (λ data, data) markBatch
    emptyWorld = (Host.Ok tt, logged emptyWorld [noPathWarning]).
Proof.
  destruct (startImportProcess_guards notFoundHost (λ data, data) markBatch emptyWorld)
    as [H _].
  apply H. right. exists (JS.lit "   "). split; [done|]. by vm_compute.
Defined.

(** ** index.ts: the batches of the command *)

(** [files.filter(file => file.name.endsWith(".md")).map(...)] *)
Definition markdownFiles (decode : list N → list N) (files : list (list N * list N))
    : list LogseqFile :=
  (λ file, {| file_path := file.1; file_content := decode file.2 |})
    <$> filter (λ file, JS.endsWith (JS.lit ".md") file.1 = true) files.

(** The notification of the [catch] of [startImportProcess]. *)
Definition importFailed (error : Host.exn) : Host.event :=
  Host.Notified (JS.lit "error")
    match error with
    | Host.Error message =>
        JS.utf8 "导入失败: " ++ message ++ JS.lit ". "
        ++ JS.utf8 "请确认虎鲸笔记是否有读取本地文件的API和权限。"
    | Host.Thrown _ => JS.utf8 "发生未知错误。请检查控制台以获取详细信息。"
    end.

Definition allBatchesDone : Host.event :=
  Host.Notified (JS.lit "success") (JS.utf8 "所有批次导入完成！").

Lemma bind_notify {B} level message (f : unit → Host.M B) w :
  (Host.notify level message ≫= f) w = f tt (logged w [Host.Notified level message]).
Proof. done. Qed.

Lemma bind_setMap {B} m (f : unit → Host.M B) w :
  (Host.setMap m ≫= f) w =
  f tt {| Host.trace := Host.trace w; Host.uuidToDbIdMap := m |}.
Proof. done. Qed.

Lemma bind_invoke {B} respond c (f : Host.value → Host.M B) w :
  (Host.invoke respond c ≫= f) w =
  let w' := logged w [Host.Called c (respond (Host.trace w) c)] in
  match respond (Host.trace w) c with
  | Host.Ok v => f v w'
  | Host.Throw e => (Host.Throw e, w')
  | Host.OutOfFuel => (Host.OutOfFuel, w')
  end.
Proof.
  unfold mbind, Host.M_bind, Host.invoke, logged.
  by destruct (respond (Host.trace w) c).
Qed.

(** C8. When the setting holds a path and [read-directory] lists at least
    one [.md] file, [startImportProcess] parses the files and then runs, on
    the [N] pages of [graph.pages.values()] (the insertion order of the map)
    and with a fresh [uuidToDbIdMap], exactly the sequence for [k] from 0 to
    [ceil(N/50) - 1] of one call of [importPageBatch] on the [k]-th slice of
    the pages followed by the progress notification ["min(50k+50, N) / N"];
    after the last step it notifies the success, and what a step throws ends
    the sequence in the handler of the command. Every slice holds between 1
    and 50 pages, the slices put end to end are the page list, and when no two
    files give the same page name the page list is the list of the pages of
    the [.md] files in the order of the listing. *)
Theorem startImportProcess_batches
    (respond : list Host.event → Host.call → Host.outcome Host.value)
    (path : list N) (decode : list N → list N)
    (importPageBatch : list LogseqPage → LogseqGraph → Host.M unit)
    (w : Host.World) (files : list (list N * list N)) :
  JS.trim path ≠ [] →
  let announced :=
    Host.Notified (JS.lit "info") (JS.utf8 "准备从路径读取文件: " ++ path) in
  respond (Host.trace w ++ [announced]) (Host.ReadDirectory path) =
    Host.Ok (Host.VFiles files) →
  let mdFiles := markdownFiles decode files in
  mdFiles ≠ [] →
  let graph := parseLogseqGraph mdFiles in
  let allPages := snd <$> graph_pages graph in
  let batches := seq 0 (ceilDiv (length allPages) Driver.BATCH_SIZE) in
  let started :=
    {| Host.trace :=
         Host.trace w
         ++ [announced;
             Host.Called (Host.ReadDirectory path) (Host.Ok (Host.VFiles files));
             Host.Notified (JS.lit "info")
               (JS.utf8 "找到了 " ++ Driver.showNat (length mdFiles)
                ++ JS.utf8 " 个 Markdown 文件，开始解析...");
             Host.Notified (JS.lit "info")
               (JS.utf8 "解析完成: " ++ Driver.showNat (length allPages)
                ++ JS.utf8 " 个页面。开始分批导入...")];
       Host.uuidToDbIdMap := [] |} in
  Driver.startImportProcess respond (Some path) decode importPageBatch w =
    match Host.forEach batches (batchStep importPageBatch allPages graph) started with
    | (Host.Ok _, w') => (Host.Ok tt, logged w' [allBatchesDone])
    | (Host.Throw e, w') => (Host.Ok tt, logged w' [importFailed e])
    | (Host.OutOfFuel, w') => (Host.OutOfFuel, w')
    end ∧
  length batches = ceilDiv (length allPages) Driver.BATCH_SIZE ∧
  Forall (λ k, 0 < length (batchSlice allPages k) ≤ Driver.BATCH_SIZE) batches ∧
  concat (batchSlice allPages <$> batches) = allPages ∧
  (NoDup (page_name ∘ pageOfFile <$> mdFiles) → allPages = pageOfFile <$> mdFiles).
Proof.
  intros Hpath announced Hresp mdFiles Hmd graph allPages batches started.
  destruct (batch_loop_invocations importPageBatch allPages graph)
    as (Hloop & Hlen & Hslices & Hconcat).
  split; [|split; [done|split; [done|split; [done|]]]].
  2:{ intros Hnd. by apply pages_in_file_order. }
  unfold Driver.startImportProcess, Host.tryCatch.
  assert (Ht : negb (JS.truthy path) || negb (JS.truthy (JS.trim path)) = false).
  { destruct path as [|c path]; [done|]. by destruct (JS.trim (c :: path)). }
  assert (Hfiles : Nat.eqb (length files) 0 = false).
  { destruct files as [|file files']; [by destruct Hmd|done]. }
  assert (Hmds : Nat.eqb (length mdFiles) 0 = false).
  { destruct (length mdFiles) eqn:E; [|done]. by apply nil_length_inv in E. }
  rewrite Ht, bind_notify, bind_invoke.
  unfold logged. cbn [Host.trace Host.uuidToDbIdMap]. cbv zeta.
  fold announced. rewrite Hresp.
  fold (markdownFiles decode files). fold mdFiles.
  rewrite Hfiles, Hmds. fold graph. fold allPages.
  rewrite !bind_notify, bind_setMap.
  unfold logged. cbn [Host.trace Host.uuidToDbIdMap].
  rewrite <- !app_assoc. cbn [app]. fold started.
  unfold mbind, Host.M_bind. rewrite Hloop. fold batches.
  destruct (Host.forEach batches (batchStep importPageBatch allPages graph) started)
    as [[[]|e|] w']; [done| |done].
  by destruct e.
Qed.

Lemma startImportProcess_batches_witness :
  ceilDiv 120 Driver.BATCH_SIZE = 3 ∧
  (Driver.startImportProcess listing120 (Some (JS.lit "/graph")) (λ data, data)
     markBatch emptyWorld).1 = Host.Ok tt.
Proof.
  split; [by vm_compute|].
  pose proof (startImportProcess_batches listing120 (JS.lit "/graph") (λ data, data)
                markBatch emptyWorld notes120) as H.
  cbv zeta in H. destruct H as [-> _]; by vm_compute.
Defined.

(** ** The two-pass importer: blocks are created in document order *)

(** The texts of the blocks the run has asked the host to insert. *)
Definition insertedOf (ev : Host.event) : option (list N) :=
  match ev with
  | Host.Called (Host.InsertBlock _ _ [fr] _) _ => Some (cf_v fr)
  | _ => None
  end.

Definition inserted (w : Host.World) : list (list N) := omap insertedOf (Host.trace w).

(** A computation that asks for the insertion of the texts [expected], in
    this order, and of nothing else; when it does not return normally it has
    asked for a prefix of them. *)
Definition InOrder {A} (expected : list (list N)) (m : Host.M A) : Prop :=
  ∀ w r w', m w = (r, w') →
    ∃ l, inserted w' = inserted w ++ l ∧ l `prefix_of` expected ∧
         ∀ a, r = Host.Ok a → l = expected.

Lemma InOrder_ret {A} (a : A) : InOrder [] (mret a).
Proof. intros w r w' [= <- <-]. exists []. by rewrite app_nil_r. Qed.

Lemma InOrder_getMap : InOrder [] Host.getMap.
Proof. intros w r w' [= <- <-]. exists []. by rewrite app_nil_r. Qed.

Lemma InOrder_setMap m : InOrder [] (Host.setMap m).
Proof. intros w r w' [= <- <-]. exists []. by rewrite app_nil_r. Qed.

Lemma inserted_snoc w ev :
  inserted {| Host.trace := Host.trace w ++ [ev];
              Host.uuidToDbIdMap := Host.uuidToDbIdMap w |} =
  inserted w ++ option_list (insertedOf ev).
Proof. unfold inserted. cbn [Host.trace]. by rewrite omap_app. Qed.

Lemma InOrder_log ev : insertedOf ev = None → InOrder [] (Host.log ev).
Proof.
  intros Hev w r w' [= <- <-]. exists []. by rewrite inserted_snoc, Hev.
Qed.

Lemma InOrder_invoke respond c :
  InOrder (option_list (insertedOf (Host.Called c (Host.Ok Host.VNull))))
          (Host.invoke respond c).
Proof.
  intros w r w' [= <- <-].
  exists (option_list (insertedOf (Host.Called c (Host.Ok Host.VNull)))).
  rewrite inserted_snoc. split; [|done]. done.
Qed.

Lemma InOrder_bind {A B} e1 e2 (m : Host.M A) (f : A → Host.M B) :
  InOrder e1 m → (∀ a, InOrder e2 (f a)) → InOrder (e1 ++ e2) (m ≫= f).
Proof.
  intros Hm Hf w r w'. unfold mbind, Host.M_bind.
  destruct (m w) as [[a|e|] w1] eqn:E; destruct (Hm _ _ _ E) as (l1 & Hl1 & Hp1 & Hok1).
  - intros H. destruct (Hf a _ _ _ H) as (l2 & Hl2 & Hp2 & Hok2).
    rewrite (Hok1 a eq_refl) in Hl1.
    exists (e1 ++ l2). split; [by rewrite Hl2, Hl1, app_assoc|].
    split; [by apply prefix_app|]. intros b Hb. by rewrite (Hok2 b Hb).
  - intros [= <- <-]. exists l1. split; [done|]. split; [by apply prefix_app_r|done].
  - intros [= <- <-]. exists l1. split; [done|]. split; [by apply prefix_app_r|done].
Qed.

Lemma InOrder_then {A B} e (m : Host.M A) (f : A → Host.M B) :
  InOrder e m → (∀ a, InOrder [] (f a)) → InOrder e (m ≫= f).
Proof. intros Hm Hf. rewrite <- (app_nil_r e). by apply InOrder_bind. Qed.

Lemma InOrder_forEach {A} (e : A → list (list N)) (xs : list A) (f : A → Host.M unit) :
  (∀ x, InOrder (e x) (f x)) → InOrder (flat_map e xs) (Host.forEach xs f).
Proof.
  intros Hf. induction xs as [|x xs IH]; [apply InOrder_ret|].
  rewrite forEach_cons. cbn [flat_map]. apply InOrder_bind; [apply Hf|]. by intros _.
Qed.

Section TwoPass.

Variable respond : list Host.event → Host.call → Host.outcome Host.value.

Lemma createBlock_in_order block : ∀ parentDbId,
  InOrder (blk_content <$> flattenBlock block)
          (TwoPassImporter.createBlock respond parentDbId block).
Proof.
  induction block as [id content properties children level IH]
    using LogseqBlock_tree_ind.
  intros parentDbId. rewrite flattenBlock_eq, fmap_cons.
  cbn [TwoPassImporter.createBlock blk_content blk_children blk_id blk_properties].
  apply (InOrder_bind [content] _); [apply (InOrder_invoke respond)|]. intros blockId.
  apply (InOrder_bind [] _).
  { destruct id as [u|]; [|apply InOrder_ret].
    destruct (JS.truthy u); [|apply InOrder_ret].
    apply (InOrder_bind [] []); [apply InOrder_getMap|].
    intros m. apply InOrder_setMap. }
  intros _. apply (InOrder_bind [] _).
  { destruct (0 <? _); [|apply InOrder_ret].
    apply (InOrder_bind [] []); [apply (InOrder_invoke respond)|].
    intros _. apply InOrder_ret. }
  intros _.
  match goal with
  | |- InOrder _ (?inner children) =>
      assert (Hk : InOrder (blk_content <$> flattenBlocks children) (inner children));
        [|exact Hk]
  end.
  induction IH as [|c cs Hc _ IHcs]; [apply InOrder_ret|].
  change (flattenBlocks (c :: cs)) with (flattenBlock c ++ flattenBlocks cs).
  rewrite fmap_app. apply InOrder_bind; [apply Hc|]. intros _. exact IHcs.
Qed.

(** The texts pass 1 creates for a batch: for every page its name, then
    the contents of its blocks in document order. *)
Definition documentOrder (pages : list LogseqPage) : list (list N) :=
  flat_map (λ page, page_name page :: (blk_content <$> flattenBlocks (page_blocks page)))
           pages.

Lemma importPageBatch_in_order pages graph :
  InOrder (documentOrder pages) (TwoPassImporter.importPageBatch respond pages graph).
Proof.
  unfold TwoPassImporter.importPageBatch, Host.invokeGroup.
  apply InOrder_then.
  - apply (InOrder_bind [] (documentOrder pages)); [by apply InOrder_log|]. intros _.
    apply InOrder_then; [|intros _; by apply InOrder_log].
    apply InOrder_forEach. intros page.
    apply (InOrder_bind [page_name page] _); [apply (InOrder_invoke respond)|].
    intros pageBlockId. unfold TwoPassImporter.createBlocksRecursively.
    induction (page_blocks page) as [|b bs IHbs]; [apply InOrder_ret|].
    rewrite forEach_cons.
    change (flattenBlocks (b :: bs)) with (flattenBlock b ++ flattenBlocks bs).
    rewrite fmap_app.
    apply InOrder_bind; [apply createBlock_in_order|]. by intros _.
  - intros _. apply (InOrder_bind [] []); [by apply InOrder_log|]. intros _.
    apply InOrder_then; [|intros _; by apply InOrder_log].
    apply (InOrder_bind [] []); [apply InOrder_getMap|].
    intros entries.
    induction entries as [|entry entries IHe]; [apply InOrder_ret|].
    rewrite forEach_cons. apply (InOrder_bind [] []); [|by intros _].
    destruct (graph_blocks graph !! entry.1); [|apply InOrder_ret].
    apply (InOrder_bind [] []); [apply InOrder_getMap|].
    intros m. destruct (decide _); [apply InOrder_ret|].
    apply (InOrder_bind [] []); [apply (InOrder_invoke respond)|].
    intros _. apply InOrder_ret.
Qed.

End TwoPass.

(** X21. The two-pass importer asks the host to create the blocks of a
    batch in document order: page after page, the title of a page first and
    then its blocks from top to bottom, a block before its children, each
    exactly once. Whatever the host answers, the insertions asked for are a
    prefix of that list, and all of it when [importPageBatch] returns
    normally; pass 2 asks for no insertion. *)
Theorem two_pass_creates_in_document_order
    (respond : list Host.event → Host.call → Host.outcome Host.value)
    (pages : list LogseqPage) (graph : LogseqGraph) (w : Host.World) :
  let run := TwoPassImporter.importPageBatch respond pages graph w in
  ∃ l, inserted run.2 = inserted w ++ l ∧
       l `prefix_of` documentOrder pages ∧
       (run.1 = Host.Ok tt → l = documentOrder pages).
Proof.
  intros run.
  destruct (importPageBatch_in_order respond pages graph w run.1 run.2) as (l & H1 & H2 & H3).
  { apply surjective_pairing. }
  exists l. split; [done|]. split; [done|]. intros Hok. by apply (H3 tt).
Qed.

Lemma two_pass_creates_in_document_order_witness :
  documentOrder [pageOfFile nestedFile] =
    [JS.lit "Nested"; JS.lit "a"; JS.lit "b"; JS.lit "c"] ∧
  inserted (TwoPassImporter.importPageBatch (λ _ _, Host.Ok (Host.VNum 7))
              [pageOfFile nestedFile] emptyGraph emptyWorld).2 =
    [JS.lit "Nested"; JS.lit "a"; JS.lit "b"; JS.lit "c"].
Proof.
  split; [by vm_compute|].
  destruct (two_pass_creates_in_document_order (λ _ _, Host.Ok (Host.VNum 7))
              [pageOfFile nestedFile] emptyGraph emptyWorld) as (l & H1 & _ & H3).
  rewrite H1, H3; by vm_compute.
Defined.


(** ** parser.ts: the page tree reads in file order

    The stack discipline of [parseLogseqFile] allocates the blocks in
    pre-order: the blocks below a block are the ones allocated right after
    it, up to the next block that is not below it. [Chain kids cs a e] says
    that the subtrees of the blocks [cs] are the consecutive index ranges
    that fill [a, e), each range starting with its block. *)

Inductive Chain (kids : list (list nat)) : list nat → nat → nat → Prop :=
  | Chain_nil a : Chain kids [] a a
  | Chain_cons c cs ks e' e :
      kids !! c = Some ks → Chain kids ks (S c) e' → Chain kids cs e' e →
      Chain kids (c :: cs) c e.

(** The open blocks under the stack top: each one has the next one up as
    its last child so far, and the bottom one is the last top-level block. *)
Fixpoint Below (kids : list (list nat)) (roots : list nat) (top : nat)
    (st : list nat) : Prop :=
  match st with
  | [] => ∃ roots', roots = roots' ++ [top] ∧ Chain kids roots' 0 top
  | p :: st' =>
      ∃ cs', kids !! p = Some (cs' ++ [top]) ∧ Chain kids cs' (S p) top ∧
             Below kids roots p st'
  end.

Definition Open (kids : list (list nat)) (roots : list nat) (st : list nat)
    (e : nat) : Prop :=
  match st with
  | [] => Chain kids roots 0 e
  | top :: st' =>
      ∃ cs, kids !! top = Some cs ∧ Chain kids cs (S top) e ∧ Below kids roots top st'
  end.

Definition Ordered (x : Hier.T) : Prop :=
  length (Hier.kids x) = length (Hier.levels x) ∧
  Open (Hier.kids x) (Hier.roots x) (Hier.stack x) (length (Hier.levels x)).

Lemma Chain_le kids cs a e : Chain kids cs a e → a ≤ e.
Proof. induction 1; lia. Qed.

Lemma Chain_elems kids cs a e : Chain kids cs a e → Forall (λ c, a ≤ c < e) cs.
Proof.
  induction 1 as [|c cs ks e' e Hk H1 _ H2 IH2]; [constructor|].
  apply Chain_le in H1 as Hle1. apply Chain_le in H2 as Hle2.
  constructor; [lia|]. eapply Forall_impl; [exact IH2|]. cbn. lia.
Qed.

Lemma Chain_ext kids kids' cs a e :
  Chain kids cs a e → (∀ i, a ≤ i < e → kids' !! i = kids !! i) →
  Chain kids' cs a e.
Proof.
  induction 1 as [|c cs ks e' e Hk H1 IH1 H2 IH2]; intros Hsame; [constructor|].
  apply Chain_le in H1 as Hle1. apply Chain_le in H2 as Hle2.
  apply (Chain_cons kids' c cs ks e' e).
  - rewrite Hsame by lia. done.
  - apply IH1. intros i Hi. apply Hsame. lia.
  - apply IH2. intros i Hi. apply Hsame. lia.
Qed.

Lemma Chain_snoc kids cs a m ks e :
  Chain kids cs a m → kids !! m = Some ks → Chain kids ks (S m) e →
  Chain kids (cs ++ [m]) a e.
Proof.
  induction 1 as [|c cs ks' e' e0 Hk H1 _ H2 IH2]; intros Hm Hks.
  - apply (Chain_cons kids a [] ks e e); [done|done|constructor].
  - cbn [app]. apply (Chain_cons kids c (cs ++ [e0]) ks' e' e); [done|done|].
    by apply IH2.
Qed.

Lemma Below_ext kids kids' roots st : ∀ top,
  Below kids roots top st → (∀ i, i < top → kids' !! i = kids !! i) →
  Below kids' roots top st.
Proof.
  induction st as [|p st IH]; intros top; cbn [Below].
  - intros (roots' & Hr & Hc) Hsame. exists roots'. split; [done|].
    apply (Chain_ext kids); [done|]. intros i Hi. apply Hsame. lia.
  - intros (cs' & Hp & Hc & Hb) Hsame. apply Chain_le in Hc as Hle.
    exists cs'. split; [by rewrite Hsame by lia|]. split.
    + apply (Chain_ext kids); [done|]. intros i Hi. apply Hsame. lia.
    + apply IH; [done|]. intros i Hi. apply Hsame. lia.
Qed.

(** Popping the stack top closes its subtree. *)
Lemma Open_pop kids roots top st e :
  Open kids roots (top :: st) e → Open kids roots st e.
Proof.
  cbn [Open]. intros (cs & Htop & Hc & Hb). destruct st as [|p st]; cbn [Below Open] in *.
  - destruct Hb as (roots' & -> & Hr). by apply (Chain_snoc kids roots' 0 top cs e).
  - destruct Hb as (cs' & Hp & Hc' & Hb). exists (cs' ++ [top]).
    split; [done|]. split; [|done]. by apply (Chain_snoc kids cs' (S p) top cs e).
Qed.

Lemma Open_popWhile kids roots lv level st e :
  Open kids roots st e → Open kids roots (Hier.popWhile lv level st) e.
Proof.
  induction st as [|top st IH]; intros Ho; [done|]. cbn [Hier.popWhile].
  destruct (lv !! top) as [l|]; [|done].
  destruct (Qle_bool level l); [|done]. by apply IH, (Open_pop kids roots top).
Qed.

Lemma Open_closed kids roots st e : Open kids roots st e → Chain kids roots 0 e.
Proof.
  induction st as [|top st IH]; [done|]. intros Ho. by apply IH, (Open_pop kids roots top).
Qed.

Lemma Ordered_empty : Ordered Hier.empty.
Proof. split; [done|]. constructor. Qed.

Lemma Ordered_add x level : Ordered x → Ordered (Hier.add x level).
Proof.
  intros [Hlen Ho]. unfold Hier.add.
  apply (Open_popWhile _ _ (Hier.levels x) level) in Ho.
  set (n := length (Hier.levels x)) in *.
  destruct (Hier.popWhile _ _ _) as [|p st]; cbn [Open] in Ho.
  - split; cbn [Hier.kids Hier.levels Hier.roots Hier.stack].
    { rewrite !length_app. cbn. lia. }
    rewrite length_app. cbn [length]. rewrite Nat.add_1_r. fold n.
    exists []. split; [by rewrite <- Hlen; apply list_lookup_middle|].
    split; [constructor|]. cbn [Below]. exists (Hier.roots x). split; [done|].
    apply (Chain_ext (Hier.kids x)); [done|].
    intros i Hi. apply lookup_app_l. lia.
  - destruct Ho as (cs & Hp & Hc & Hb). apply Chain_le in Hc as Hle.
    split; cbn [Hier.kids Hier.levels Hier.roots Hier.stack].
    { rewrite length_alter, !length_app. cbn. lia. }
    rewrite length_app. cbn [length]. rewrite Nat.add_1_r. fold n.
    assert (Hsame : ∀ i, i ≠ p → i < n →
      alter (λ c, c ++ [n]) p (Hier.kids x ++ [[]]) !! i = Hier.kids x !! i).
    { intros i Hne Hi. rewrite list_lookup_alter_ne by done. apply lookup_app_l. lia. }
    exists []. split.
    { rewrite list_lookup_alter_ne by lia. rewrite <- Hlen. by apply list_lookup_middle. }
    split; [constructor|]. cbn [Below]. exists cs. split.
    { rewrite list_lookup_alter_eq, lookup_app_l by lia. by rewrite Hp. }
    split.
    + apply (Chain_ext (Hier.kids x)); [done|]. intros i Hi. apply Hsame; lia.
    + apply (Below_ext (Hier.kids x)); [done|]. intros i Hi. apply Hsame; lia.
Qed.

Lemma Ordered_fold ls x : Ordered x → Ordered (fold_left Hier.add ls x).
Proof.
  revert x. induction ls as [|l ls IH]; intros x Hx; [done|].
  cbn [fold_left]. by apply IH, Ordered_add.
Qed.

(** The trees of a chain of blocks, flattened, are the trees of the heap
    objects of its index range, in heap order. *)
Lemma flatten_chain h cs a e :
  Chain (o_children <$> h) cs a e → e ≤ length h →
  flattenBlocks (omap (Parser.treeOf h) cs) = take (e - a) (drop a (Parser.trees 0 h)).
Proof.
  induction 1 as [a|c cs ks e' e Hk H1 IH1 H2 IH2]; intros He.
  - by rewrite Nat.sub_diag.
  - apply Chain_le in H1 as Hle1. apply Chain_le in H2 as Hle2.
    rewrite list_lookup_fmap in Hk.
    destruct (h !! c) as [o|] eqn:Ho; [|done]. injection Hk as <-.
    cbn [omap list_omap]. rewrite (treeOf_lookup h c o Ho).
    cbn [flattenBlocks]. rewrite flattenBlock_eq. cbn [blk_children].
    rewrite (list_omap_ext _ (Parser.treeOf h) _ (o_children o)).
    2:{ apply Forall_Forall2_diag. eapply Forall_impl; [exact (Chain_elems _ _ _ _ H1)|].
        cbn. intros c' Hc'. destruct (decide (c < c')); [done|lia]. }
    rewrite IH1 by lia. rewrite IH2 by lia.
    pose proof (treeOf_lookup h c o Ho) as Ht. unfold Parser.treeOf in Ht.
    rewrite (drop_S _ _ _ Ht).
    replace (e - c) with (S ((e' - S c) + (e - e'))) by lia.
    cbn [take app]. f_equal.
    { f_equal. symmetry. apply list_omap_ext, Forall_Forall2_diag.
      eapply Forall_impl; [exact (Chain_elems _ _ _ _ H1)|].
      cbn. intros c' Hc'. destruct (decide (c < c')); [done|lia]. }
    rewrite <- take_take_drop, drop_drop. do 3 f_equal. lia.
Qed.

Lemma trees_fields objs : ∀ i,
  blk_content <$> Parser.trees i objs = o_content <$> objs ∧
  blk_level <$> Parser.trees i objs = o_level <$> objs.
Proof.
  induction objs as [|o objs IH]; intros i; [done|].
  cbn [Parser.trees fmap list_fmap blk_content blk_level].
  destruct (IH (S i)) as [-> ->]. done.
Qed.

Lemma run_Ordered content : Ordered (hierOf (Parser.run content)).
Proof. unfold Parser.run. rewrite hierOf_run. apply Ordered_fold, Ordered_empty. Qed.

Lemma page_blocks_flat file :
  flattenBlocks (page_blocks (pageOfFile file)) =
  Parser.trees 0 (pf_heap (parseLogseqFile file)).
Proof.
  destruct (run_Ordered (file_content file)) as [_ Ho].
  apply Open_closed in Ho.
  cbn [hierOf Hier.kids Hier.roots Hier.levels] in Ho. rewrite length_fmap in Ho.
  unfold pageOfFile, pageOf. cbn [page_blocks parseLogseqFile pf_heap pf_blocks].
  rewrite (flatten_chain _ _ 0 _ Ho) by done.
  rewrite Nat.sub_0_r, drop_0. apply take_ge. by rewrite trees_length.
Qed.

(** X22. Reading the page [parseLogseqFile] returns from the top (a block,
    then its children, then the next block) gives the block lines of the
    file in file order: the contents are the texts of the block lines after
    the dash, the levels are half their indentations, and no block line is
    lost, repeated or moved, whatever the indentation of the lines. *)
Theorem page_tree_reads_in_file_order (file : LogseqFile) :
  let lines := JS.split 10 (file_content file) in
  let read := flattenBlocks (page_blocks (pageOfFile file)) in
  blk_content <$> read = omap blockContent lines ∧
  blk_level <$> read = omap blockLevel lines.
Proof.
  intros lines read. unfold read. rewrite page_blocks_flat.
  destruct (trees_fields (pf_heap (parseLogseqFile file)) 0) as [-> ->].
  cbn [parseLogseqFile pf_heap]. unfold Parser.run. fold lines. split.
  - by rewrite contents_run.
  - change (o_level <$> Parser.heap (fold_left Parser.step lines Parser.init))
      with (Hier.levels (hierOf (fold_left Parser.step lines Parser.init))).
    by rewrite hierOf_run, levels_fold.
Qed.


(** ** ImporterUI.tsx: what the walk over the picked folder finds *)

(** Induction on directory trees. *)
Fixpoint Entry_tree_ind (P : FolderPicker.Entry → Prop)
    (file : ∀ name text, P (FolderPicker.FileEntry name text))
    (directory : ∀ name entries,
       Forall P entries → P (FolderPicker.DirectoryEntry name entries))
    (entry : FolderPicker.Entry) : P entry :=
  match entry with
  | FolderPicker.FileEntry name text => file name text
  | FolderPicker.DirectoryEntry name entries =>
      directory name entries
        ((fix all (es : list FolderPicker.Entry) : Forall P es :=
            match es with
            | [] => List.Forall_nil P
            | e :: es' =>
                @List.Forall_cons _ P e es' (Entry_tree_ind P file directory e) (all es')
            end) entries)
  end.

(** [FileAt entry dirs name text]: the tree of [entry] holds a file called
    [name] with the text [text] (none when it cannot be read), below the
    directories [dirs], from [entry] down. *)
Inductive FileAt : FolderPicker.Entry → list (list N) → list N → option (list N) → Prop :=
  | FileAt_file name text : FileAt (FolderPicker.FileEntry name text) [] name text
  | FileAt_directory d sub e dirs name text :
      e ∈ sub → FileAt e dirs name text →
      FileAt (FolderPicker.DirectoryEntry d sub) (d :: dirs) name text.

Definition FileIn (entries : list FolderPicker.Entry) (dirs : list (list N))
    (name : list N) (text : option (list N)) : Prop :=
  ∃ e, e ∈ entries ∧ FileAt e dirs name text.

(** The path the walk builds for a file [name] below the directories
    [dirs], starting at [currentPath]. *)
Definition pathOf (currentPath : list N) (dirs : list (list N)) (name : list N) : list N :=
  FolderPicker.newPath (fold_left FolderPicker.newPath dirs currentPath) name.

Definition isMarkdown (name : list N) : bool := JS.endsWith (JS.lit ".md") name.

Definition FoundIn (entries : list FolderPicker.Entry) (currentPath : list N)
    (f : LogseqFile) : Prop :=
  ∃ dirs name, FileIn entries dirs name (Some (file_content f)) ∧
               isMarkdown name = true ∧ file_path f = pathOf currentPath dirs name.

Definition Unreadable (entries : list FolderPicker.Entry) : Prop :=
  ∃ dirs name, FileIn entries dirs name None ∧ isMarkdown name = true.

(** What [recurse] does to the array [files]. *)
Definition Walked (entries : list FolderPicker.Entry) (currentPath : list N)
    (files : list LogseqFile) (r : option (list LogseqFile)) : Prop :=
  match r with
  | Some out =>
      ∃ new, out = files ++ new ∧ (∀ f, f ∈ new ↔ FoundIn entries currentPath f) ∧
             ¬ Unreadable entries
  | None => Unreadable entries
  end.

Lemma FileIn_nil dirs name text : ¬ FileIn [] dirs name text.
Proof. intros (e & He & _). by apply elem_of_nil in He. Qed.

Lemma FileIn_cons e es dirs name text :
  FileIn (e :: es) dirs name text ↔ FileAt e dirs name text ∨ FileIn es dirs name text.
Proof.
  unfold FileIn. split.
  - intros (e' & [->|He]%elem_of_cons & H); [by left|right; eauto].
  - intros [H|(e' & He & H)]; [exists e; split; [left|done]|].
    exists e'. split; [by right|done].
Qed.

Lemma FileIn_one e dirs name text : FileIn [e] dirs name text ↔ FileAt e dirs name text.
Proof.
  rewrite FileIn_cons. split; [|by left]. intros [H|H]; [done|]. by apply FileIn_nil in H.
Qed.

Lemma FoundIn_cons e es cur f :
  FoundIn (e :: es) cur f ↔ FoundIn [e] cur f ∨ FoundIn es cur f.
Proof.
  unfold FoundIn. split.
  - intros (dirs & name & [H|H]%FileIn_cons & Hmd & Hp).
    + left. exists dirs, name. by rewrite FileIn_one.
    + right. by exists dirs, name.
  - intros [(dirs & name & H & Hmd & Hp)|(dirs & name & H & Hmd & Hp)];
      exists dirs, name; rewrite FileIn_cons.
    + apply FileIn_one in H. auto.
    + auto.
Qed.

Lemma Unreadable_cons e es : Unreadable (e :: es) ↔ Unreadable [e] ∨ Unreadable es.
Proof.
  unfold Unreadable. split.
  - intros (dirs & name & [H|H]%FileIn_cons & Hmd).
    + left. exists dirs, name. by rewrite FileIn_one.
    + right. by exists dirs, name.
  - intros [(dirs & name & H & Hmd)|(dirs & name & H & Hmd)];
      exists dirs, name; rewrite FileIn_cons.
    + apply FileIn_one in H. auto.
    + auto.
Qed.

Lemma recurse_Walked entries cur :
  Forall (λ e, ∀ cur files, Walked [e] cur files (FolderPicker.visit e cur files)) entries →
  ∀ files, Walked entries cur files (FolderPicker.recurse entries cur files).
Proof.
  induction 1 as [|e es He _ IH]; intros files; cbn [FolderPicker.recurse].
  - exists []. split; [by rewrite app_nil_r|]. split.
    + intros f. split; [by intros ?%elem_of_nil|].
      intros (dirs & name & H & _). by apply FileIn_nil in H.
    + intros (dirs & name & H & _). by apply FileIn_nil in H.
  - specialize (He cur files). destruct (FolderPicker.visit e cur files) as [files'|];
      cbn [mbind option_bind Walked] in *.
    + destruct He as (new & -> & Hnew & Hok). specialize (IH (files ++ new)).
      destruct (FolderPicker.recurse es cur (files ++ new)) as [out|]; cbn [Walked] in *.
      * destruct IH as (new' & -> & Hnew' & Hok'). exists (new ++ new').
        split; [by rewrite app_assoc|]. split.
        -- intros f. rewrite elem_of_app, FoundIn_cons, Hnew, Hnew'. done.
        -- rewrite Unreadable_cons. tauto.
      * rewrite Unreadable_cons. by right.
    + rewrite Unreadable_cons. by left.
Qed.

Lemma visit_Walked entry : ∀ cur files,
  Walked [entry] cur files (FolderPicker.visit entry cur files).
Proof.
  induction entry as [name text|name entries IH] using Entry_tree_ind; intros cur files.
  - cbn [FolderPicker.visit]. fold (isMarkdown name).
    destruct (isMarkdown name) eqn:Hmd; [destruct text as [content|]|];
      cbn [mbind option_bind Walked].
    + eexists. split; [reflexivity|]. split.
      * intros f. rewrite list_elem_of_singleton. split.
        -- intros ->. exists [], name. rewrite FileIn_one. cbn [file_content file_path].
           split; [constructor|done].
        -- intros (dirs & n & H%FileIn_one & _ & Hp). inversion H; subst.
           destruct f as [p c]. cbn in *. by subst.
      * intros (dirs & n & H%FileIn_one & _). inversion H.
    + exists [], name. rewrite FileIn_one. split; [constructor|done].
    + exists []. split; [by rewrite app_nil_r|]. split.
      * intros f. split; [by intros ?%elem_of_nil|].
        intros (dirs & n & H%FileIn_one & Hn & _). inversion H; subst. congruence.
      * intros (dirs & n & H%FileIn_one & Hn). inversion H; subst. congruence.
  - pose proof (recurse_Walked entries (FolderPicker.newPath cur name) IH files) as Hr.
    assert (Heq : FolderPicker.visit (FolderPicker.DirectoryEntry name entries) cur files =
                  FolderPicker.recurse entries (FolderPicker.newPath cur name) files).
    { cbn [FolderPicker.visit]. generalize files. clear.
      induction entries as [|e es IHes]; intros files; [done|].
      cbn [FolderPicker.recurse]. destruct (FolderPicker.visit e _ files); [|done].
      cbn [mbind option_bind]. apply IHes. }
    rewrite Heq.
    assert (Hin : ∀ dirs n text,
      FileIn [FolderPicker.DirectoryEntry name entries] dirs n text ↔
      ∃ dirs', dirs = name :: dirs' ∧ FileIn entries dirs' n text).
    { intros dirs n text. rewrite FileIn_one. split.
      - intros H. inversion H; subst. eexists. split; [done|]. by eexists.
      - intros (dirs' & -> & e & He & H). by apply (FileAt_directory name entries e). }
    destruct (FolderPicker.recurse entries _ files) as [out|]; cbn [Walked] in *.
    + destruct Hr as (new & -> & Hnew & Hok). exists new. split; [done|]. split.
      * intros f. rewrite Hnew. unfold FoundIn. split.
        -- intros (dirs & n & H & Hmd & Hp). exists (name :: dirs), n.
           split; [apply Hin; eauto|]. done.
        -- intros (dirs & n & (dirs' & -> & H)%Hin & Hmd & Hp). by exists dirs', n.
      * intros (dirs & n & (dirs' & -> & H)%Hin & Hmd). apply Hok. by exists dirs', n.
    + destruct Hr as (dirs & n & H & Hmd). exists (name :: dirs), n.
      split; [apply Hin; eauto|done].
Qed.

Lemma endsWith_eq suffix s :
  JS.endsWith suffix s = true → s = take (length s - length suffix) s ++ suffix.
Proof.
  unfold JS.endsWith. intros H. apply startsWith_eq in H.
  apply (f_equal (@rev N)) in H. rewrite rev_involutive, rev_app_distr, rev_involutive in H.
  revert H. generalize (rev (drop (length (rev suffix)) (rev s))). intros pre ->.
  by rewrite length_app, Nat.add_sub, take_app_length.
Qed.

(** The folders in front of a Markdown file name do not show in the page
    name. *)
Lemma pageName_newPath cur name :
  isMarkdown name = true →
  Parser.pageName (FolderPicker.newPath cur name) = Parser.pageName name.
Proof.
  intros Hmd. unfold FolderPicker.newPath. destruct (JS.truthy cur); [|done].
  unfold isMarkdown in Hmd. apply endsWith_eq in Hmd.
  change (length (JS.lit ".md")) with 3 in Hmd.
  set (stem := take (length name - 3) name) in *.
  unfold Parser.pageName. rewrite Hmd.
  rewrite !app_assoc, !endsWith_app, !length_app.
  change (length (JS.lit ".md")) with 3. rewrite !Nat.add_sub.
  rewrite <- !length_app, !take_app_length.
  change (JS.lit "/") with [47%N]. rewrite <- app_assoc. cbn [app].
  by rewrite last_split_app_sep.
Qed.

(** X23. The walk over the picked folder returns the files of the tree
    whose name ends in [.md], each with its text and with the path made of
    the directory names from the picked folder down and the file name; files
    with another name are not read. It fails exactly when some file with a
    name in [.md] cannot be read, and then returns no file at all. The page
    the parser makes of a returned file is named after the file name alone:
    the folders do not show in it. *)
Theorem picked_folder_walk (directoryHandle : list FolderPicker.Entry) :
  (FolderPicker.getFilesInDirectory directoryHandle = None ↔
     ∃ dirs name, FileIn directoryHandle dirs name None ∧ isMarkdown name = true) ∧
  (∀ files, FolderPicker.getFilesInDirectory directoryHandle = Some files →
     ∀ f, f ∈ files ↔
          ∃ dirs name, FileIn directoryHandle dirs name (Some (file_content f)) ∧
                       isMarkdown name = true ∧ file_path f = pathOf [] dirs name) ∧
  (∀ dirs name, isMarkdown name = true →
     Parser.pageName (pathOf [] dirs name) = Parser.pageName name).
Proof.
  pose proof (recurse_Walked directoryHandle []
                (proj2 (Forall_forall _ _) (λ e _, visit_Walked e)) []) as H.
  fold (FolderPicker.getFilesInDirectory directoryHandle) in H.
  split; [|split].
  - destruct (FolderPicker.getFilesInDirectory directoryHandle); cbn [Walked] in H.
    + destruct H as (_ & _ & _ & Hok). split; [done|]. intros Hu. by destruct Hok.
    + done.
  - intros files Hf. rewrite Hf in H. destruct H as (new & -> & Hnew & _). exact Hnew.
  - intros dirs name Hmd. by apply pageName_newPath.
Qed.

(** A folder with a note, a picture that cannot be read and a sub-folder
    with a note of the same name. *)
Definition pickedFolder : list FolderPicker.Entry :=
  [FolderPicker.FileEntry (JS.lit "Note.md") (Some (JS.lit "- a"));
   FolderPicker.FileEntry (JS.lit "logo.png") None;
   FolderPicker.DirectoryEntry (JS.lit "pages")
     [FolderPicker.FileEntry (JS.lit "Note.md") (Some (JS.lit "- b"))]].

Lemma picked_folder_walk_witness :
  FolderPicker.getFilesInDirectory pickedFolder =
    Some [{| file_path := JS.lit "Note.md"; file_content := JS.lit "- a" |};
          {| file_path := JS.lit "pages/Note.md"; file_content := JS.lit "- b" |}] ∧
  Parser.pageName (pathOf [] [JS.lit "pages"] (JS.lit "Note.md")) =
    Parser.pageName (JS.lit "Note.md").
Proof.
  split; [by vm_compute|].
  destruct (picked_folder_walk pickedFolder) as (_ & _ & H).
  apply H. by vm_compute.
Defined.
